(** * c-midiplayer: the MIDI decoding and playback engine, and its event queue

    A shallow embedding of [src/midiplayer.c] (variable-length decoder, track
    cursor, tempo model, scheduler) and of the event queue of [src/main.c].

    Conventions.
    - C integers are [Z] with their wrap-around written out ([int32], [uint8],
      [uint32], [uint64]); a byte is a [Z] in [0, 256).
    - A track's [data] pointer is [option (list Z)]: [None] is [NULL], and the
      list is the allocated block.  A read outside the block, or through
      [NULL], has no defined result in C; the embedding stops there with a
      [Fault] that names the offending index.
    - [double] is the kernel's binary64 [float].
    - Loops that the source does not bound carry a [fuel : nat]; an outcome
      records whether the loop finished, ran out of fuel or faulted, together
      with the state reached. *)

From Stdlib Require Import ZArith List Bool Lia Floats Uint63 Sorted.
Import ListNotations.
Local Open Scope Z_scope.

Set Implicit Arguments.

(** ** Machine integers *)

Definition int32 (z : Z) : Z := (z + 2 ^ 31) mod 2 ^ 32 - 2 ^ 31.
Definition uint8 (z : Z) : Z := z mod 2 ^ 8.
Definition uint32 (z : Z) : Z := z mod 2 ^ 32.
Definition uint64 (z : Z) : Z := z mod 2 ^ 64.
Definition UINT64_MAX : Z := 2 ^ 64 - 1.

Definition is_byte (b : Z) : Prop := 0 <= b < 256.

(** ** Faults and the error monad *)

Inductive fault : Type :=
| NullDeref
| OutOfBounds (index size : Z).

Inductive res (A : Type) : Type :=
| Ok (a : A)
| Fault (f : fault).
Arguments Ok {A} a.
Arguments Fault {A} f.

Definition bind {A B : Type} (c : res A) (k : A -> res B) : res B :=
  match c with
  | Ok a => k a
  | Fault f => Fault f
  end.

Notation "x <- c ;; k" := (bind c (fun x => k))
  (at level 61, c at next level, right associativity).

(** ** Track data (midiplayer.c, [TrackData]) *)

Module Track.
Record t : Type := mk {
  data : option (list Z);
  long_msg : list Z;
  tick : Z;
  offset : Z;
  length : Z;
  message : Z;
  temp : Z;
  long_msg_len : Z;
  long_msg_capacity : Z;
  data_capacity : Z
}.

Definition with_data (v : option (list Z)) (k : t) : t :=
  mk v (long_msg k) (tick k) (offset k) (length k) (message k) (temp k)
     (long_msg_len k) (long_msg_capacity k) (data_capacity k).
Definition with_long_msg (v : list Z) (k : t) : t :=
  mk (data k) v (tick k) (offset k) (length k) (message k) (temp k)
     (long_msg_len k) (long_msg_capacity k) (data_capacity k).
Definition with_tick (v : Z) (k : t) : t :=
  mk (data k) (long_msg k) v (offset k) (length k) (message k) (temp k)
     (long_msg_len k) (long_msg_capacity k) (data_capacity k).
Definition with_offset (v : Z) (k : t) : t :=
  mk (data k) (long_msg k) (tick k) v (length k) (message k) (temp k)
     (long_msg_len k) (long_msg_capacity k) (data_capacity k).
Definition with_length (v : Z) (k : t) : t :=
  mk (data k) (long_msg k) (tick k) (offset k) v (message k) (temp k)
     (long_msg_len k) (long_msg_capacity k) (data_capacity k).
Definition with_message (v : Z) (k : t) : t :=
  mk (data k) (long_msg k) (tick k) (offset k) (length k) v (temp k)
     (long_msg_len k) (long_msg_capacity k) (data_capacity k).
Definition with_temp (v : Z) (k : t) : t :=
  mk (data k) (long_msg k) (tick k) (offset k) (length k) (message k) v
     (long_msg_len k) (long_msg_capacity k) (data_capacity k).
Definition with_long_msg_len (v : Z) (k : t) : t :=
  mk (data k) (long_msg k) (tick k) (offset k) (length k) (message k) (temp k)
     v (long_msg_capacity k) (data_capacity k).
Definition with_long_msg_capacity (v : Z) (k : t) : t :=
  mk (data k) (long_msg k) (tick k) (offset k) (length k) (message k) (temp k)
     (long_msg_len k) v (data_capacity k).
End Track.

Definition TrackData : Type := Track.t.

Definition Zlen (l : list Z) : Z := Z.of_nat (List.length l).

(** [track->data[i]]: the byte at index [i] of the allocated block. *)
Definition read_data (track : TrackData) (i : Z) : res Z :=
  match Track.data track with
  | None => Fault NullDeref
  | Some buf =>
      if (0 <=? i) && (i <? Zlen buf)
      then Ok (nth (Z.to_nat i) buf 0)
      else Fault (OutOfBounds i (Zlen buf))
  end.

(** ** Variable-length decoder (midiplayer.c:61-70) *)

(** The [do ... while] loop.  Each round reads one byte and moves the cursor
    by one; it goes round again only while [offset < length], so it runs at
    most [length - offset] times, which is the [n] it is started with. *)
Fixpoint decode_loop (n : nat) (track : TrackData) (result : Z)
  : res (Z * TrackData) :=
  match n with
  | O => Ok (result, track)
  | S n' =>
      byte <- read_data track (Track.offset track) ;;
      let track := Track.with_offset (uint64 (Track.offset track + 1)) track in
      let result := int32 (Z.lor (Z.shiftl result 7) (Z.land byte 0x7F)) in
      if negb (Z.land byte 0x80 =? 0)
         && (Track.offset track <? Track.length track)
      then decode_loop n' track result
      else Ok (result, track)
  end.

Definition decode_variable_length (track : TrackData) : res (Z * TrackData) :=
  if Track.length track <=? Track.offset track then Ok (0, track)
  else decode_loop (Z.to_nat (Track.length track - Track.offset track)) track 0.

(** midiplayer.c:72-74 *)
Definition update_tick (track : TrackData) : res TrackData :=
  r <- decode_variable_length track ;;
  let '(v, track) := r in
  Ok (Track.with_tick (int32 (Track.tick track + v)) track).

(** ** Track cursor (midiplayer.c:76-122) *)

Definition is_null (p : option (list Z)) : bool :=
  match p with
  | None => true
  | Some _ => false
  end.

(** midiplayer.c:76-84 *)
Definition update_command (track : TrackData) : res TrackData :=
  if (Track.length track =? 0) || is_null (Track.data track) then Ok track
  else
    temp <- read_data track (Track.offset track) ;;
    if 0x80 <=? temp
    then Ok (Track.with_message temp
               (Track.with_offset (uint64 (Track.offset track + 1)) track))
    else Ok track.

(** [memcpy(dst, &track->data[track->offset], n)], source side: the [n] bytes
    from the cursor on.  Copying nothing touches no byte. *)
Definition copy_from_data (track : TrackData) (n : Z) : res (list Z) :=
  match Track.data track with
  | None => Fault NullDeref
  | Some buf =>
      if n =? 0 then Ok []
      else if Track.offset track + n <=? Zlen buf
      then Ok (firstn (Z.to_nat n) (skipn (Z.to_nat (Track.offset track)) buf))
      else Fault (OutOfBounds (Z.max (Track.offset track) (Zlen buf)) (Zlen buf))
  end.

(** [realloc(long_msg, n)]: a block of [n] bytes that keeps the old prefix.
    The allocator is taken to grant the request. *)
Definition realloc (block : list Z) (n : Z) : list Z :=
  firstn (Z.to_nat n) (block ++ repeat 0 (Z.to_nat n)).

(** [memcpy], destination side: [src] overwrites the front of [dst]. *)
Definition copy_into (dst src : list Z) : res (list Z) :=
  if Zlen src <=? Zlen dst
  then Ok (src ++ skipn (List.length src) dst)
  else Fault (OutOfBounds (Zlen dst) (Zlen dst)).

(** The meta / SysEx branch of [update_message] (midiplayer.c:100-119). *)
Definition read_long_message (msg_type : Z) (track : TrackData) : res TrackData :=
  temp <- (if msg_type =? 0xFF
           then b <- read_data track (Track.offset track) ;;
                Ok (uint32 (Z.shiftl b 8))
           else Ok 0) ;;
  let track := Track.with_temp temp track in
  let track := Track.with_offset (uint64 (Track.offset track + 1)) track in
  r <- decode_variable_length track ;;
  let '(len, track) := r in
  let track := Track.with_long_msg_len (uint64 len) track in
  let track :=
    if Track.long_msg_capacity track <? Track.long_msg_len track
    then Track.with_long_msg_capacity (Track.long_msg_len track)
           (Track.with_long_msg
              (realloc (Track.long_msg track) (Track.long_msg_len track)) track)
    else track in
  src <- copy_from_data track (Track.long_msg_len track) ;;
  dst <- copy_into (Track.long_msg track) src ;;
  let track := Track.with_long_msg dst track in
  Ok (Track.with_offset
        (uint64 (Track.offset track + Track.long_msg_len track)) track).

(** Two data bytes: [data[offset] << 8 | data[offset + 1] << 16]. *)
Definition read_two_data_bytes (track : TrackData) : res TrackData :=
  b0 <- read_data track (Track.offset track) ;;
  b1 <- read_data track (uint64 (Track.offset track + 1)) ;;
  Ok (Track.with_offset (uint64 (Track.offset track + 2))
        (Track.with_temp (uint32 (Z.lor (Z.shiftl b0 8) (Z.shiftl b1 16))) track)).

(** One data byte: [data[offset] << 8]. *)
Definition read_one_data_byte (track : TrackData) : res TrackData :=
  b0 <- read_data track (Track.offset track) ;;
  Ok (Track.with_offset (uint64 (Track.offset track + 1))
        (Track.with_temp (uint32 (Z.shiftl b0 8)) track)).

(** midiplayer.c:86-122 *)
Definition update_message (track : TrackData) : res TrackData :=
  if (Track.length track =? 0) || is_null (Track.data track) then Ok track
  else
    let msg_type := uint8 (Z.land (Track.message track) 0xFF) in
    track <- (if msg_type <? 0xC0 then read_two_data_bytes track
              else if msg_type <? 0xE0 then read_one_data_byte track
              else if msg_type <? 0xF0 then read_two_data_bytes track
              else if (msg_type =? 0xFF) || (msg_type =? 0xF0)
                   then read_long_message msg_type track
              else Ok track) ;;
    Ok (Track.with_message
          (uint32 (Z.lor (Track.message track) (Track.temp track))) track).

(** ** Tempo model (midiplayer.c:124-136) *)

(** [(double) z] for an unsigned [z]; exact below [2^53]. *)
Definition to_double (z : Z) : float := PrimFloat.of_uint63 (Uint63.of_Z z).

(** Lines 128-129: the quotient in binary64 and its floor at [1.0]. *)
Definition tempo_multiplier (bpm time_div : Z) : float :=
  let multiplier := PrimFloat.div (to_double (uint64 (bpm * 10))) (to_double time_div) in
  if PrimFloat.ltb multiplier 1%float then 1%float else multiplier.

(** The test run on every division: it converts to a finite double, and a
    tempo of 0 over it gives the multiplier 1. *)
Definition division_check (d : Z) : bool :=
  (d =? 0)
  || (match FloatOps.Prim2SF (to_double d) with
      | SpecFloat.S754_finite _ _ _ => true
      | _ => false
      end
      && PrimFloat.Leibniz.eqb (tempo_multiplier 0 d) 1).

(** [f] on the [2^k] integers from [lo] on. *)
Fixpoint all_block (f : Z -> bool) (k : nat) (lo : Z) : bool :=
  match k with
  | O => f lo
  | S k' => all_block f k' lo && all_block f k' (lo + 2 ^ Z.of_nat k')
  end.

(** [track->long_msg[i]] *)
Definition read_long_msg (track : TrackData) (i : nat) : res Z :=
  match nth_error (Track.long_msg track) i with
  | Some b => Ok b
  | None => Fault (OutOfBounds (Z.of_nat i) (Zlen (Track.long_msg track)))
  end.

(** Line 127. *)
Definition tempo_of_bytes (b0 b1 b2 : Z) : Z :=
  Z.lor (Z.lor (Z.shiftl b0 16) (Z.shiftl b1 8)) b2.

(** The scheduler's locals that decoding touches, and what it emits. *)
Inductive call : Type :=
| NoteOnCall (arg1 arg2 arg3 : Z)   (* note_on_callback(arg1, arg2, arg3) *)
| NoteOffCall (arg1 arg2 : Z).      (* note_off_callback(arg1, arg2) *)

Inductive emission : Type :=
| Notify (at_tick : Z) (c : call)
| Delay (delta_tick : Z) (multiplier : float).

Module Play.
Record t : Type := mk {
  tick : Z;
  multiplier : float;
  bpm : Z;
  note_on_count : Z;
  log : list emission      (* most recent first *)
}.
End Play.

Definition emit (e : emission) (p : Play.t) : Play.t :=
  Play.mk (Play.tick p) (Play.multiplier p) (Play.bpm p) (Play.note_on_count p)
          (e :: Play.log p).

Definition process_meta_event (track : TrackData) (p : Play.t) (time_div : Z)
  : res (TrackData * Play.t) :=
  let meta_type := uint8 (Z.land (Z.shiftr (Track.message track) 8) 0xFF) in
  if meta_type =? 0x51 then
    b0 <- read_long_msg track 0 ;;
    b1 <- read_long_msg track 1 ;;
    b2 <- read_long_msg track 2 ;;
    let bpm := tempo_of_bytes b0 b1 b2 in
    Ok (track,
        Play.mk (Play.tick p) (tempo_multiplier bpm time_div) bpm
                (Play.note_on_count p) (Play.log p))
  else if meta_type =? 0x2F then
    Ok (Track.with_length 0 (Track.with_data None track), p)
  else Ok (track, p).

(** ** Scheduler (midiplayer.c:182-304) *)

(** Lines 224-229: the fields of a decoded message. *)
Definition status_byte_of (message : Z) : Z := uint8 (Z.land message 0xFF).
Definition channel_of (message : Z) : Z :=
  uint8 (Z.land (status_byte_of message) 0x0F).
Definition command_of (message : Z) : Z :=
  uint8 (Z.land (status_byte_of message) 0xF0).
Definition note_of (message : Z) : Z :=
  uint8 (Z.land (Z.shiftr message 8) 0xFF).
Definition velocity_of (message : Z) : Z :=
  uint8 (Z.land (Z.shiftr message 16) 0xFF).

Section Scheduler.
(** Whether each callback pointer is non-[NULL], and the file's division. *)
Variables note_on_callback note_off_callback : bool.
Variable time_div : Z.

(** Lines 224-250: classify the decoded message and notify. *)
Definition dispatch (track : TrackData) (p : Play.t) : res (TrackData * Play.t) :=
  let message := Track.message track in
  let status_byte := status_byte_of message in
  let channel := channel_of message in
  let command := command_of message in
  let note := note_of message in
  let velocity := velocity_of message in
  if command =? 0x90 then
    let p := Play.mk (Play.tick p) (Play.multiplier p) (Play.bpm p)
                     (uint64 (Play.note_on_count p + 1)) (Play.log p) in
    if 0 <? velocity then
      Ok (track, if note_on_callback
                 then emit (Notify (Play.tick p) (NoteOnCall velocity channel note)) p
                 else p)
    else
      Ok (track, if note_off_callback
                 then emit (Notify (Play.tick p) (NoteOffCall channel note)) p
                 else p)
  else if command =? 0x80 then
    Ok (track, if note_off_callback
               then emit (Notify (Play.tick p) (NoteOffCall channel note)) p
               else p)
  else if status_byte =? 0xFF then process_meta_event track p time_div
  else Ok (track, p).

(** How a loop of the scheduler ends. *)
Inductive outcome (A : Type) : Type :=
| Finished (a : A)
| Timeout (p : Play.t)              (* fuel ran out; locals at that point *)
| Crashed (f : fault) (p : Play.t). (* undefined access; locals at that point *)
Arguments Finished {A} a.
Arguments Timeout {A} p.
Arguments Crashed {A} f p.

(** Lines 220-255: the inner [while] over one track. *)
Fixpoint drain (fuel : nat) (track : TrackData) (p : Play.t)
  : outcome (TrackData * Play.t) :=
  if negb (is_null (Track.data track))
     && (uint64 (Track.tick track) <=? Play.tick p)
  then
    match fuel with
    | O => Timeout p
    | S fuel' =>
        match (t1 <- update_command track ;; update_message t1) with
        | Fault f => Crashed f p
        | Ok t2 =>
            match dispatch t2 p with
            | Fault f => Crashed f p
            | Ok (t3, p') =>
                if negb (is_null (Track.data t3)) then
                  match update_tick t3 with
                  | Fault f => Crashed f p'
                  | Ok t4 => drain fuel' t4 p'
                  end
                else drain fuel' t3 p'
            end
        end
    end
  else Finished (track, p).

(** Lines 216-263: the [for] over the track array, from index [i] on.
    Returns the array, the indices stored in [active_tracks] and the
    locals. *)
Fixpoint scan_tracks (fuel : nat) (tracks : list TrackData) (i : nat) (p : Play.t)
  : outcome (list TrackData * list nat * Play.t) :=
  match tracks with
  | [] => Finished ([], [], p)
  | track :: rest =>
      match (if negb (is_null (Track.data track)) then drain fuel track p
             else Finished (track, p)) with
      | Timeout q => Timeout q
      | Crashed f q => Crashed f q
      | Finished (track', p') =>
          match scan_tracks fuel rest (S i) p' with
          | Timeout q => Timeout q
          | Crashed f q => Crashed f q
          | Finished (rest', active, p'') =>
              Finished (track' :: rest',
                        (if negb (is_null (Track.data track'))
                         then i :: active else active),
                        p'')
          end
      end
  end.

(** Line 275: [tracks[idx].tick - tick], the [int] converted to
    [uint64_t]. *)
Definition pending_delta (tick : Z) (track : TrackData) : Z :=
  uint64 (uint64 (Track.tick track) - tick).

(** Lines 271-280: the distance to the nearest pending event. *)
Definition next_delta (tracks : list TrackData) (tick : Z) (active : list nat) : Z :=
  fold_left
    (fun delta_tick idx =>
       match nth_error tracks idx with
       | Some track =>
           if negb (is_null (Track.data track)) then
             let track_delta := pending_delta tick track in
             if track_delta <? delta_tick then track_delta else delta_tick
           else delta_tick
       | None => delta_tick
       end)
    active UINT64_MAX.

(** Lines 210-300: the pump.  [budget] bounds every inner [while], [fuel]
    the rounds of the outer one.  Of the pacing code only the operands of
    the ideal delay ([delta_tick * multiplier], line 290) are kept; the
    wall clock does not feed back into decoding. *)
Fixpoint pump (budget fuel : nat) (tracks : list TrackData) (p : Play.t)
  : outcome (list TrackData * Play.t) :=
  match fuel with
  | O => Timeout p
  | S fuel' =>
      match scan_tracks budget tracks 0 p with
      | Timeout q => Timeout q
      | Crashed f q => Crashed f q
      | Finished (tracks', active, p') =>
          match active with
          | [] => Finished (tracks', p')
          | _ :: _ =>
              let delta_tick := next_delta tracks' (Play.tick p') active in
              let p'' :=
                Play.mk (uint64 (Play.tick p' + delta_tick)) (Play.multiplier p')
                        (Play.bpm p') (Play.note_on_count p')
                        (Delay delta_tick (Play.multiplier p') :: Play.log p') in
              pump budget fuel' tracks' p''
          end
      end
  end.

(** Lines 184-194: the locals as [play_midi] initialises them. *)
Definition initial_play : Play.t := Play.mk 0 0%float 500000 0 [].

Definition play_midi (fuel : nat) (tracks : list TrackData)
  : outcome (list TrackData * Play.t) :=
  pump fuel fuel tracks initial_play.
End Scheduler.

Arguments Finished {A} a.
Arguments Timeout {A} p.
Arguments Crashed {A} f p.

(** The locals an outcome ends with. *)
Definition final_play (o : outcome (list TrackData * Play.t)) : Play.t :=
  match o with
  | Finished (_, p) => p
  | Timeout p => p
  | Crashed _ p => p
  end.

(** The ticks at which notifications were made, oldest first. *)
Definition notify_ticks (log : list emission) : list Z :=
  rev (flat_map (fun e => match e with
                          | Notify k _ => [k]
                          | Delay _ _ => []
                          end) log).

(** The calls made, oldest first. *)
Definition calls (log : list emission) : list call :=
  rev (flat_map (fun e => match e with
                          | Notify _ c => [c]
                          | Delay _ _ => []
                          end) log).

(** The multiplier used by each delay computation, oldest first. *)
Definition delay_multipliers (log : list emission) : list float :=
  rev (flat_map (fun e => match e with
                          | Notify _ _ => []
                          | Delay _ m => [m]
                          end) log).

(** The locals any outcome ends with. *)
Definition play_of {A : Type} (proj : A -> Play.t) (o : outcome A) : Play.t :=
  match o with
  | Finished a => proj a
  | Timeout p => p
  | Crashed _ p => p
  end.

(** A log, most recent first, whose notification ticks never go up towards
    the past and start at most at [k]. *)
Fixpoint log_ok (k : Z) (log : list emission) : Prop :=
  match log with
  | [] => True
  | Notify t _ :: older => t <= k /\ log_ok t older
  | Delay _ _ :: older => log_ok k older
  end.

(** [p'] continues [p] at the same global tick. *)
Definition follows (p p' : Play.t) : Prop :=
  Play.tick p' = Play.tick p /\
  (log_ok (Play.tick p) (Play.log p) -> log_ok (Play.tick p') (Play.log p')).

(** load_midi_file, lines 388-410: the cursor built for a track chunk whose
    payload is [bytes].  The 256-byte scratch block comes from [malloc]; its
    content, indeterminate in C, is taken to be zeros. *)
Definition load_track (bytes : list Z) : res TrackData :=
  update_tick (Track.mk (Some bytes) (repeat 0 256) 0 0 (Zlen bytes) 0 0 0 256
                        (Zlen bytes)).

(** One round of the accumulation, [result = (result << 7) | (byte & 0x7F)],
    in a 32-bit [int]. *)
Definition vlq_step (result byte : Z) : Z :=
  int32 (Z.lor (Z.shiftl result 7) (Z.land byte 0x7F)).

Definition continues (byte : Z) : Prop := Z.land byte 0x80 <> 0.

(** ** The SMF variable-length quantity

    The encoding that [decode_variable_length] reads: an integer is cut into
    7-bit groups, most significant first; every byte but the last carries the
    continuation flag [0x80]. *)

Definition is_group (g : Z) : Prop := 0 <= g < 128.

Fixpoint vlq_bytes (groups : list Z) : list Z :=
  match groups with
  | [] => []
  | [g] => [g]
  | g :: rest => Z.lor g 0x80 :: vlq_bytes rest
  end.

Definition vlq_value (groups : list Z) : Z :=
  fold_left (fun acc g => acc * 128 + g) groups 0.

(** The shortest encoding of [n], for [0 <= n < 2^28]. *)
Definition vlq_groups (n : Z) : list Z :=
  if n <? 2 ^ 7 then [n]
  else if n <? 2 ^ 14 then [n / 2 ^ 7; n mod 2 ^ 7]
  else if n <? 2 ^ 21 then [n / 2 ^ 14; (n / 2 ^ 7) mod 2 ^ 7; n mod 2 ^ 7]
  else [n / 2 ^ 21; (n / 2 ^ 14) mod 2 ^ 7; (n / 2 ^ 7) mod 2 ^ 7; n mod 2 ^ 7].

Definition vlq_encode (n : Z) : list Z := vlq_bytes (vlq_groups n).

(** A cursor at [offset] over [buf], as the loader sets its bounds. *)
Definition cursor_at (buf : list Z) (offset : Z) : TrackData :=
  Track.mk (Some buf) (repeat 0 256) 0 offset (Zlen buf) 0 0 0 256 (Zlen buf).

(** How many bytes one call of the decoder moves the cursor by. *)
Definition decode_consumed (track : TrackData) : Z :=
  match decode_variable_length track with
  | Ok (_, track') => Track.offset track' - Track.offset track
  | Fault _ => 0
  end.

(** ** Event queue (main.c:26-114) *)

Record MidiEvent : Type := mkMidiEvent {
  note : Z;
  velocity : Z;
  channel : Z;
  isNoteOn : bool;
  timestamp : float
}.

Record EventQueue : Type := mkEventQueue {
  events : Z -> MidiEvent;
  head : Z;
  tail : Z
}.

Section Queue.
(** The macro; 13414000 in main.c, 8192 in batch_test.c, 134140400 in
    old-main.c. *)
Variable RING_BUFFER_SIZE : Z.

(** main.c:91-102; the mutex makes the body one atomic step. *)
Definition queue_push (event : MidiEvent) (q : EventQueue) : bool * EventQueue :=
  let next := Z.rem (head q + 1) RING_BUFFER_SIZE in
  if negb (next =? tail q)
  then (true,
        mkEventQueue (fun i => if i =? head q then event else events q i)
                     next (tail q))
  else (false, q).

(** main.c:104-114; on success the event read and the new queue. *)
Definition queue_pop (q : EventQueue) : option MidiEvent * EventQueue :=
  if negb (tail q =? head q)
  then (Some (events q (tail q)),
        mkEventQueue (events q) (head q) (Z.rem (tail q + 1) RING_BUFFER_SIZE))
  else (None, q).

(** One request of the producer or of the consumer. *)
Inductive request : Type :=
| Push (event : MidiEvent)
| Pop.

(** What an interleaving of requests leaves behind: the events whose push
    succeeded and the events popped, both oldest first. *)
Record history : Type := mkHistory {
  queue : EventQueue;
  accepted : list MidiEvent;
  popped : list MidiEvent
}.

Definition serve (h : history) (r : request) : history :=
  match r with
  | Push e =>
      let '(ok, q) := queue_push e (queue h) in
      mkHistory q (if ok then accepted h ++ [e] else accepted h) (popped h)
  | Pop =>
      let '(got, q) := queue_pop (queue h) in
      mkHistory q (accepted h)
                (match got with
                 | Some e => popped h ++ [e]
                 | None => popped h
                 end)
  end.

Definition run_requests (h : history) (rs : list request) : history :=
  fold_left serve rs h.

(** The occupied count, [(head - tail) mod capacity]. *)
Definition occupied (q : EventQueue) : Z :=
  (head q - tail q) mod RING_BUFFER_SIZE.

(** The events stored between [tail] and [head], oldest first. *)
Definition contents (q : EventQueue) : list MidiEvent :=
  map (fun k => events q ((tail q + Z.of_nat k) mod RING_BUFFER_SIZE))
      (seq 0 (Z.to_nat (occupied q))).

(** Both indices stay inside the array. *)
Definition indices_ok (q : EventQueue) : Prop :=
  0 <= head q < RING_BUFFER_SIZE /\ 0 <= tail q < RING_BUFFER_SIZE.

(** What every reachable history satisfies: the accepted events are the
    popped ones followed by the stored ones. *)
Definition fifo_invariant (h : history) : Prop :=
  indices_ok (queue h) /\
  accepted h = popped h ++ contents (queue h).

(** main.c:282-283, [while (queue_pop(&event)) { ... }]: the events handed
    to the loop body, in order, and the queue the loop leaves, when no
    push comes in between.  [None] when [fuel] rounds were not enough. *)
Fixpoint drain_events (fuel : nat) (q : EventQueue)
  : option (list MidiEvent * EventQueue) :=
  match fuel with
  | O => None
  | S fuel' =>
      match queue_pop q with
      | (Some event, q') =>
          match drain_events fuel' q' with
          | Some (rest, q'') => Some (event :: rest, q'')
          | None => None
          end
      | (None, q') => Some ([], q')
      end
  end.
End Queue.

(** main.c:72-75 *)
Definition init_event_queue (blank : MidiEvent) : EventQueue :=
  mkEventQueue (fun _ => blank) 0 0.

(** main.c:150-157 and 170-177: the events the registered consumers build
    from the arguments they are called with. *)
Definition note_on (channel note velocity : Z) (now : float) : MidiEvent :=
  mkMidiEvent note velocity channel true now.

Definition note_off (channel note : Z) (now : float) : MidiEvent :=
  mkMidiEvent note 0 channel false now.

(** A consumer registered through midiplayer.h, whose [NoteOnCallback] is
    declared as [(channel, note, velocity)] and whose [NoteOffCallback] as
    [(channel, note)], receives a call positionally. *)
Definition deliver (now : float) (c : call) : MidiEvent :=
  match c with
  | NoteOnCall arg1 arg2 arg3 => note_on arg1 arg2 arg3 now
  | NoteOffCall arg1 arg2 => note_off arg1 arg2 now
  end.

(** ** Sample inputs *)

Definition track_of (bytes : list Z) : TrackData :=
  match load_track bytes with
  | Ok t => t
  | Fault _ => cursor_at bytes 0
  end.

(** A Note-On (channel 0, note 0x3C, velocity 0x40), then under running
    status the data bytes [40 00] (note 0x40, velocity 0), then
    End-of-Track. *)
Definition running_status_track : list Z :=
  [0x00; 0x90; 0x3C; 0x40;  0x00; 0x40; 0x00;  0x00; 0xFF; 0x2F; 0x00].

(** A Note-On at tick 0 and its Note-Off 96 ticks later; no Set-Tempo. *)
Definition no_tempo_track : list Z :=
  [0x00; 0x90; 0x3C; 0x40;  0x60; 0x80; 0x3C; 0x00;  0x00; 0xFF; 0x2F; 0x00].

(** A Set-Tempo of 0 microseconds at tick 0, a Note-On 96 ticks later,
    End-of-Track. *)
Definition tempo_zero_track : list Z :=
  [0x00; 0xFF; 0x51; 0x03; 0x00; 0x00; 0x00;  0x60; 0x90; 0x3C; 0x40;
   0x00; 0xFF; 0x2F; 0x00].

(** A track written as what it holds: for each event its delta-time,
    below 2^28 and in its shortest encoding, and the bytes of the event. *)
Definition encode_timed (events : list (Z * list Z)) : list Z :=
  concat (map (fun e => vlq_encode (fst e) ++ snd e) events).

(** The tick of each event: the sum of the delta-times up to it. *)
Fixpoint event_ticks (from : Z) (events : list (Z * list Z)) : list Z :=
  match events with
  | [] => []
  | e :: rest => (from + fst e) :: event_ticks (from + fst e) rest
  end.

(** Two long tracks.  Both hold sixteen Program Changes 2^28 - 1 ticks
    apart, the last at tick 2^32 - 16.  The first then has a Note-On 10
    ticks later, at tick 2^32 - 6; the second has one 2^28 - 1 ticks
    later, at tick 2^32 + 2^28 - 17. *)
Definition wrap_events_a : list (Z * list Z) :=
  repeat (2 ^ 28 - 1, [0xC0; 0x00]) 16
  ++ [(10, [0x90; 0x3C; 0x40]); (0, [0xFF; 0x2F; 0x00])].
Definition wrap_events_b : list (Z * list Z) :=
  repeat (2 ^ 28 - 1, [0xC1; 0x00]) 16
  ++ [(2 ^ 28 - 1, [0x91; 0x40; 0x40]); (0, [0xFF; 0x2F; 0x00])].

(** A text meta event that announces 5 payload bytes where 1 is left. *)
Definition overlong_meta_track : list Z := [0x00; 0xFF; 0x01; 0x05; 0x41].

(** A Note-On whose second data byte is missing. *)
Definition short_note_track : list Z := [0x00; 0x90; 0x3C].

(** One complete Note-On and no End-of-Track. *)
Definition no_end_track : list Z := [0x00; 0x90; 0x3C; 0x40].

(** Track A: events at ticks 0, 10, 20; track B: at 0, 5, 15; each ends with
    End-of-Track. *)
Definition merge_track_a : list Z :=
  [0x00; 0x90; 0x3C; 0x40;  0x0A; 0x80; 0x3C; 0x40;  0x0A; 0x90; 0x3E; 0x40;
   0x00; 0xFF; 0x2F; 0x00].
Definition merge_track_b : list Z :=
  [0x00; 0x91; 0x40; 0x40;  0x05; 0x81; 0x40; 0x40;  0x0A; 0x91; 0x43; 0x40;
   0x00; 0xFF; 0x2F; 0x00].

(** ** Byte order and time helpers (midiplayer.c:10-58) *)

(** midiplayer.c:10-15 *)
Definition fntohl (nlong : Z) : Z :=
  uint32
    (Z.lor
       (Z.lor
          (Z.lor (Z.shiftr (Z.land nlong 0xFF000000) 24)
                 (Z.shiftr (Z.land nlong 0x00FF0000) 8))
          (Z.shiftl (Z.land nlong 0x0000FF00) 8))
       (Z.shiftl (Z.land nlong 0x000000FF) 24)).

(** midiplayer.c:17-20 *)
Definition fntohs (nshort : Z) : Z :=
  (Z.lor (Z.shiftr (Z.land nshort 0xFF00) 8)
         (Z.shiftl (Z.land nshort 0x00FF) 8)) mod 2 ^ 16.

(** The integer a little-endian host finds in memory after [fread] stored
    the bytes [bs] there, first byte lowest. *)
Fixpoint host_word (bs : list Z) : Z :=
  match bs with
  | [] => 0
  | b :: rest => b + 256 * host_word rest
  end.

(** The integer the bytes [bs] spell in file order, first byte highest. *)
Definition big_endian (bs : list Z) : Z :=
  fold_left (fun acc b => acc * 256 + b) bs 0.

(** midiplayer.c:45-51, as a function of the [timespec] the clock
    returned: [(tv_sec, tv_nsec)] to 100-nanosecond units. *)
Definition to_100ns (ts : Z * Z) : Z :=
  uint64 (uint64 (fst ts) * 10000000 + Z.quot (uint64 (snd ts)) 100).

(** midiplayer.c:53-58: the [timespec] handed to [nanosleep]; [/] and [%]
    of C truncate towards zero. *)
Definition delayExecution100Ns (delayIn100Ns : Z) : Z * Z :=
  (Z.quot delayIn100Ns 10000000, Z.rem delayIn100Ns 10000000 * 100).

(** ** SMF loader (midiplayer.c:159-170, 306-425)

    The file is the list of its bytes and the stream position is the
    suffix still to be read.  The host is little-endian, as the
    unconditional byte swaps of the source assume.  The loader never looks
    at what [fread] returns: when the file ends early it goes on with
    bytes that no read has stored.  Such a byte holds an arbitrary value:
    [junk i] gives the value of the [i]-th of them, and the loader counts
    the ones it has used, so that no two objects share theirs.  The tag
    buffer is declared once: it starts unset, and a short read leaves the
    chars of the previous tag where it stored none.  An integer whose read
    came up short has an indeterminate value and is taken whole from
    [junk]; so is [*time_div], whose old value is the caller's.  The part
    of a track block that the file did not fill is what [malloc] left
    there, [junk] again.  [malloc] is taken to grant every request, with a
    non-null block also for size 0. *)

(** midiplayer.c:159-170 *)
Definition init_track_data : TrackData := Track.mk None [] 0 0 0 0 0 0 0 0.

Definition MThd : list Z := [0x4D; 0x54; 0x68; 0x64].
Definition MTrk : list Z := [0x4D; 0x54; 0x72; 0x6B].

(** [fread(buf, 1, n, file)]: the bytes read replace the front of the
    buffer, the rest of the buffer keeps what it held. *)
Definition fread_chars (buf : list Z) (n : nat) (file : list Z)
  : list Z * list Z :=
  let got := firstn n file in
  (got ++ skipn (List.length got) buf, skipn n file).

(** [strncmp(buf, tag, 4) == 0] for a tag without NUL: the first
    difference decides. *)
Fixpoint strncmp_eq (buf tag : list Z) : bool :=
  match tag, buf with
  | [], _ => true
  | c :: tag', b :: buf' => if b =? c then strncmp_eq buf' tag' else false
  | _ :: _, [] => false
  end.

Inductive load_result : Type :=
| LoadFailed                  (* returns NULL after a message *)
| Loaded (tracks : list TrackData) (time_div track_count : Z)
| LoadFault (f : fault).

Section Loader.
Variable junk : nat -> Z.

(** [n] bytes that nothing has stored, after [used] others. *)
Definition unset (used n : nat) : list Z :=
  map (fun i => uint8 (junk i)) (seq used n).

(** [fread(&x, n, 1, file)] into an integer of [n] bytes: the value, the
    stream and the count of unset bytes used. *)
Definition fread_word (n : nat) (file : list Z) (used : nat)
  : Z * list Z * nat :=
  if (n <=? List.length file)%nat
  then (host_word (firstn n file), skipn n file, used)
  else (host_word (unset used n), [], (used + n)%nat).

(** [fread(block, 1, n, file)] into a fresh block of [n] bytes. *)
Definition fread_block (n : nat) (file : list Z) (used : nat)
  : list Z * list Z * nat :=
  let got := firstn n file in
  let missing := (n - List.length got)%nat in
  (got ++ unset used missing, skipn n file, (used + missing)%nat).

(** Lines 366-412: the loop over the declared chunks; [valid] holds the
    cursors built so far, in order. *)
Fixpoint load_chunks (n : nat) (header : list Z) (file : list Z) (used : nat)
         (valid : list TrackData)
  : res (list TrackData) :=
  match n with
  | O => Ok valid
  | S n' =>
      let '(header, file) := fread_chars header 4 file in
      if strncmp_eq header MTrk then
        let '(w, file, used) := fread_word 4 file used in
        let length := fntohl w in
        let '(block, file, used) := fread_block (Z.to_nat length) file used in
        match load_track block with
        | Fault f => Fault f
        | Ok track => load_chunks n' header file used (valid ++ [track])
        end
      else load_chunks n' header file used valid
  end.

(** midiplayer.c:306-425, for a file that could be opened. *)
Definition load_midi_file (file : list Z) : load_result :=
  let '(header, file) := fread_chars (unset 0 4) 4 file in
  if negb (strncmp_eq header MThd) then LoadFailed
  else
    let '(w, file, used) := fread_word 4 file 4 in
    let header_length := fntohl w in
    if negb (header_length =? 6) then LoadFailed
    else
      let '(_, file, used) := fread_word 2 file used in
      let '(w, file, used) := fread_word 2 file used in
      let num_tracks := fntohs w in
      let '(w, file, used) := fread_word 2 file used in
      let time_div := fntohs w in
      if 0x8000 <=? time_div then LoadFailed
      else
        match load_chunks (Z.to_nat num_tracks) header file used [] with
        | Fault f => LoadFault f
        | Ok valid =>
            Loaded
              (valid ++
               repeat init_track_data
                 (Z.to_nat num_tracks - List.length valid))
              time_div
              (Z.of_nat (List.length valid))
        end.
End Loader.

(** The file format the loader reads: big-endian fields. *)
Definition be16 (n : Z) : list Z := [(n / 2 ^ 8) mod 256; n mod 256].
Definition be32 (n : Z) : list Z :=
  [(n / 2 ^ 24) mod 256; (n / 2 ^ 16) mod 256; (n / 2 ^ 8) mod 256; n mod 256].

Definition smf_header (format num_tracks division : Z) : list Z :=
  MThd ++ be32 6 ++ be16 format ++ be16 num_tracks ++ be16 division.

Definition smf_chunk (payload : list Z) : list Z :=
  MTrk ++ be32 (Zlen payload) ++ payload.

Definition smf_file (format division : Z) (payloads : list (list Z)) : list Z :=
  smf_header format (Z.of_nat (List.length payloads)) division
  ++ concat (map smf_chunk payloads).

(** What the loader establishes for a cursor it built. *)
Definition cursor_ok (t : TrackData) : Prop :=
  exists buf,
    Track.data t = Some buf /\ Track.length t = Zlen buf /\
    Track.data_capacity t = Zlen buf /\ Zlen buf < 2 ^ 32 /\
    0 <= Track.offset t <= Track.length t /\
    Track.long_msg_capacity t = 256 /\ Zlen (Track.long_msg t) = 256.

(** What a call made by the scheduler can look like, given which callback
    pointers are set. *)
Definition call_ok (on off : bool) (c : call) : Prop :=
  match c with
  | NoteOnCall arg1 arg2 arg3 =>
      on = true /\ 1 <= arg1 <= 255 /\ 0 <= arg2 <= 15 /\ 0 <= arg3 <= 255
  | NoteOffCall arg1 arg2 =>
      off = true /\ 0 <= arg1 <= 15 /\ 0 <= arg2 <= 255
  end.

Definition calls_ok (on off : bool) (p : Play.t) : Prop :=
  Forall (fun e => match e with
                   | Notify _ c => call_ok on off c
                   | Delay _ _ => True
                   end) (Play.log p).

(** A multiplier as the engine can hold it: the initial 0, or at least 1. *)
Definition multiplier_ok (m : float) : Prop :=
  m = 0%float \/ PrimFloat.leb 1 m = true.

Definition delays_ok (p : Play.t) : Prop :=
  multiplier_ok (Play.multiplier p) /\
  Forall (fun e => match e with
                   | Notify _ _ => True
                   | Delay d m => 0 < d < 2 ^ 64 /\ multiplier_ok m
                   end) (Play.log p).

(** Lines 284 and 290: the locals after the global tick moved by
    [delta_tick]. *)
Definition advance (p : Play.t) (delta_tick : Z) : Play.t :=
  Play.mk (uint64 (Play.tick p + delta_tick)) (Play.multiplier p)
          (Play.bpm p) (Play.note_on_count p)
          (Delay delta_tick (Play.multiplier p) :: Play.log p).

(** * Properties *)

#[local] Arguments Z.shiftl : simpl never.
#[local] Arguments Z.shiftr : simpl never.
#[local] Arguments Z.land : simpl never.
#[local] Arguments Z.lor : simpl never.
#[local] Arguments Z.modulo : simpl never.
#[local] Arguments Z.rem : simpl never.
#[local] Arguments Z.pow : simpl never.
#[local] Arguments Z.mul : simpl never.
#[local] Arguments Z.add : simpl never.
#[local] Arguments Z.sub : simpl never.
#[local] Arguments Z.leb : simpl never.
#[local] Arguments Z.ltb : simpl never.
#[local] Arguments Z.eqb : simpl never.
#[local] Arguments Z.of_nat : simpl never.
#[local] Arguments Z.to_nat : simpl never.

(** ** Machine integers and bytes *)

Lemma int32_small (z : Z) : 0 <= z < 2 ^ 31 -> int32 z = z.
Proof.
  intros Hz. unfold int32.
  rewrite Z.mod_small by lia. lia.
Qed.

Lemma uint64_small (z : Z) : 0 <= z < 2 ^ 64 -> uint64 z = z.
Proof. intros Hz. unfold uint64. now apply Z.mod_small. Qed.

Lemma uint64_range (z : Z) : 0 <= uint64 z < 2 ^ 64.
Proof. unfold uint64. apply Z.mod_pos_bound. lia. Qed.

(** A boolean test that holds on [0 .. n-1] by evaluation holds for every
    integer of that range. *)
Lemma range_check (f : Z -> bool) (n : nat) :
  forallb f (map Z.of_nat (seq 0 n)) = true ->
  forall z, 0 <= z < Z.of_nat n -> f z = true.
Proof.
  intros Hall z Hz.
  rewrite forallb_forall in Hall. apply Hall.
  replace z with (Z.of_nat (Z.to_nat z)) by lia.
  apply in_map, in_seq. lia.
Qed.

Lemma all_block_spec (f : Z -> bool) (k : nat) :
  forall lo, all_block f k lo = true ->
  forall z, lo <= z < lo + 2 ^ Z.of_nat k -> f z = true.
Proof.
  induction k as [| k IH]; intros lo Hall z Hz; simpl all_block in Hall.
  - change (2 ^ Z.of_nat 0) with 1 in Hz. replace z with lo by lia. exact Hall.
  - apply andb_true_iff in Hall. destruct Hall as [Hlow Hhigh].
    rewrite Nat2Z.inj_succ, Z.pow_succ_r in Hz by lia.
    destruct (Z.lt_ge_cases z (lo + 2 ^ Z.of_nat k)).
    + apply (IH lo Hlow). lia.
    + apply (IH _ Hhigh). lia.
Qed.

Lemma low7_of_group (g : Z) :
  0 <= g < 128 -> Z.land g 0x7F = g /\ Z.land (Z.lor g 0x80) 0x7F = g.
Proof.
  intros Hg.
  assert (H := @range_check
                 (fun g => (Z.land g 0x7F =? g) && (Z.land (Z.lor g 0x80) 0x7F =? g))
                 128 eq_refl g Hg).
  apply andb_true_iff in H. destruct H as [H1 H2].
  split; now apply Z.eqb_eq.
Qed.

Lemma flag_of_group (g : Z) :
  0 <= g < 128 -> Z.land g 0x80 = 0 /\ Z.land (Z.lor g 0x80) 0x80 <> 0.
Proof.
  intros Hg.
  assert (H := @range_check
                 (fun g => (Z.land g 0x80 =? 0) && negb (Z.land (Z.lor g 0x80) 0x80 =? 0))
                 128 eq_refl g Hg).
  apply andb_true_iff in H. destruct H as [H1 H2].
  split; [now apply Z.eqb_eq |].
  apply negb_true_iff in H2. now apply Z.eqb_neq.
Qed.

(** Below [2^k] the bits from [k] up are clear. *)
Lemma testbit_high (k a i : Z) :
  0 <= k -> 0 <= a < 2 ^ k -> k <= i -> Z.testbit a i = false.
Proof.
  intros Hk Ha Hi.
  rewrite <- (Z.mod_small a (2 ^ k)) by assumption.
  apply Z.mod_pow2_bits_high. lia.
Qed.

(** Packing below a shift is an addition. *)
Lemma lor_shiftl_add (k r g : Z) :
  0 <= k -> 0 <= g < 2 ^ k -> Z.lor (Z.shiftl r k) g = r * 2 ^ k + g.
Proof.
  intros Hk Hg.
  rewrite <- (Z.shiftl_mul_pow2 r k) by assumption.
  rewrite <- Z.add_lor_land.
  replace (Z.land (Z.shiftl r k) g) with 0; [lia |].
  symmetry. apply Z.bits_inj'. intros i Hi.
  rewrite Z.land_spec, Z.bits_0.
  destruct (Z.lt_ge_cases i k) as [Hlt | Hge].
  - rewrite Z.shiftl_spec_low by assumption. reflexivity.
  - rewrite (testbit_high Hk Hg Hge). apply andb_false_r.
Qed.

(** ** C1: the variable-length decoder *)

Lemma with_offset_twice (a b : Z) (t : TrackData) :
  Track.with_offset a (Track.with_offset b t) = Track.with_offset a t.
Proof. reflexivity. Qed.

Lemma Zlen_app (l1 l2 : list Z) : Zlen (l1 ++ l2) = Zlen l1 + Zlen l2.
Proof. unfold Zlen. rewrite length_app. lia. Qed.

Lemma Zlen_cons (x : Z) (l : list Z) : Zlen (x :: l) = Zlen l + 1.
Proof. unfold Zlen. simpl List.length. lia. Qed.

Lemma Zlen_nonneg (l : list Z) : 0 <= Zlen l.
Proof. unfold Zlen. lia. Qed.

Lemma read_data_middle (t : TrackData) (pre post : list Z) (x : Z) :
  Track.data t = Some (pre ++ x :: post) ->
  Track.offset t = Zlen pre ->
  read_data t (Track.offset t) = Ok x.
Proof.
  intros Hd Ho. unfold read_data. rewrite Hd, Ho.
  assert (Hin : (0 <=? Zlen pre) && (Zlen pre <? Zlen (pre ++ x :: post)) = true).
  { rewrite Zlen_app, Zlen_cons.
    pose proof (Zlen_nonneg pre). pose proof (Zlen_nonneg post).
    apply andb_true_iff. split; [apply Z.leb_le | apply Z.ltb_lt]; lia. }
  rewrite Hin. f_equal.
  unfold Zlen. rewrite Nat2Z.id. apply nth_middle.
Qed.

(** The loop on a buffer cut at the cursor into the bytes it will take and
    the rest: continuation bytes [init], then a byte [lastb] that either has
    the flag clear or is the last of the buffer. *)
Lemma decode_loop_run (init : list Z) :
  forall (n : nat) (t : TrackData) (pre post : list Z) (lastb acc : Z),
    Track.data t = Some (pre ++ init ++ lastb :: post) ->
    Track.offset t = Zlen pre ->
    Track.length t = Zlen (pre ++ init ++ lastb :: post) ->
    Track.length t < 2 ^ 64 ->
    Forall continues init ->
    Z.land lastb 0x80 = 0 \/ post = [] ->
    (List.length init < n)%nat ->
    decode_loop n t acc =
    Ok (fold_left vlq_step (init ++ [lastb]) acc,
        Track.with_offset (Zlen pre + Zlen init + 1) t).
Proof.
  induction init as [| b init IH]; intros n t pre post lastb acc Hd Ho Hl Hmax Hc Hstop Hn.
  - destruct n as [| n]; [simpl in Hn; lia |].
    simpl decode_loop.
    rewrite (read_data_middle t pre post lastb Hd Ho). simpl bind.
    rewrite Hl in *. rewrite !Zlen_app, Zlen_cons in *. 
    pose proof (Zlen_nonneg pre). pose proof (Zlen_nonneg post).
    rewrite Ho. rewrite uint64_small by (change (Zlen []) with 0 in *; lia).
    change (Zlen []) with 0. rewrite Z.add_0_r.
    replace (negb (Z.land lastb 128 =? 0) && (Zlen pre + 1 <? Zlen pre + (0 + (Zlen post + 1))))
      with false; [reflexivity |].
    symmetry. apply andb_false_iff.
    destruct Hstop as [Hclear | Hend].
    + left. rewrite Hclear. reflexivity.
    + right. subst post. change (Zlen []) with 0. apply Z.ltb_ge. lia.
  - destruct n as [| n]; [simpl in Hn; lia |].
    simpl decode_loop.
    change (pre ++ (b :: init) ++ lastb :: post)
      with (pre ++ b :: (init ++ lastb :: post)) in Hd, Hl.
    rewrite (read_data_middle t pre (init ++ lastb :: post) b Hd Ho). simpl bind.
    inversion Hc as [| ? ? Hb Hrest]; subst.
    assert (Hlen : Zlen (pre ++ b :: init ++ lastb :: post)
                   = Zlen pre + 1 + Zlen init + 1 + Zlen post).
    { rewrite Zlen_app, Zlen_cons, Zlen_app, Zlen_cons. lia. }
    pose proof (Zlen_nonneg pre). pose proof (Zlen_nonneg post).
    pose proof (Zlen_nonneg init).
    rewrite Ho, uint64_small by lia.
    assert (Hcond : negb (Z.land b 128 =? 0) && (Zlen pre + 1 <? Track.length t) = true).
    { apply andb_true_iff. split.
      - apply negb_true_iff, Z.eqb_neq. exact Hb.
      - apply Z.ltb_lt. lia. }
    simpl Track.offset. simpl Track.length. rewrite Hcond.
    rewrite (IH n (Track.with_offset (Zlen pre + 1) t) (pre ++ [b]) post lastb
               (int32 (Z.lor (Z.shiftl acc 7) (Z.land b 127)))).
    + rewrite with_offset_twice. simpl fold_left.
      rewrite Zlen_app, !Zlen_cons. change (Zlen []) with 0.
      unfold vlq_step at 2. do 3 f_equal. lia.
    + simpl. rewrite Hd. now rewrite <- app_assoc.
    + simpl. rewrite Zlen_app. reflexivity.
    + simpl. rewrite Hl. now rewrite <- app_assoc.
    + simpl. lia.
    + assumption.
    + assumption.
    + simpl in Hn. lia.
Qed.

(** Every non-empty run of bytes starts with such a cut. *)
Lemma vlq_cut (l : list Z) :
  l <> [] ->
  exists init lastb post,
    l = init ++ lastb :: post /\
    Forall continues init /\
    (Z.land lastb 0x80 = 0 \/ post = []).
Proof.
  induction l as [| b l IH]; intros Hne; [congruence |].
  destruct (Z.eq_dec (Z.land b 0x80) 0) as [Hclear | Hset].
  - exists [], b, l. repeat split; auto.
  - destruct l as [| b' l'].
    + exists [], b, []. repeat split; auto.
    + destruct IH as (init & lastb & post & Heq & Hall & Hstop); [congruence |].
      exists (b :: init), lastb, post. rewrite Heq. repeat split; auto.
Qed.

Lemma split_at_cursor (buf : list Z) (off : Z) :
  0 <= off < Zlen buf ->
  exists pre rest, buf = pre ++ rest /\ Zlen pre = off /\ rest <> [].
Proof.
  intros Hoff.
  exists (firstn (Z.to_nat off) buf), (skipn (Z.to_nat off) buf).
  unfold Zlen in *. repeat split.
  - symmetry. apply firstn_skipn.
  - rewrite length_firstn. lia.
  - intros Hnil. apply (f_equal (@List.length Z)) in Hnil.
    rewrite length_skipn in Hnil. simpl in Hnil. lia.
Qed.

(** What one call does, on any cursor whose bounds are those of its block. *)
Lemma decode_variable_length_cases (t : TrackData) (buf : list Z) :
  Track.data t = Some buf ->
  Track.length t = Zlen buf ->
  0 <= Track.offset t ->
  Zlen buf < 2 ^ 64 ->
  (Track.length t <= Track.offset t /\ decode_variable_length t = Ok (0, t))
  \/
  (exists pre init lastb post,
      buf = pre ++ init ++ lastb :: post /\
      Zlen pre = Track.offset t /\
      Forall continues init /\
      (Z.land lastb 0x80 = 0 \/ post = []) /\
      decode_variable_length t =
      Ok (fold_left vlq_step (init ++ [lastb]) 0,
          Track.with_offset (Track.offset t + Zlen init + 1) t)).
Proof.
  intros Hd Hl Ho Hmax. unfold decode_variable_length.
  destruct (Z.leb_spec (Track.length t) (Track.offset t)) as [Hge | Hlt].
  - left. split; [assumption | reflexivity].
  - right.
    destruct (@split_at_cursor buf (Track.offset t)) as (pre & rest & Hbuf & Hpre & Hne);
      [lia |].
    destruct (vlq_cut Hne) as (init & lastb & post & Hrest & Hall & Hstop).
    exists pre, init, lastb, post. subst rest.
    repeat split; try assumption.
    rewrite <- Hpre.
    apply decode_loop_run with (post := post); try assumption.
    + now rewrite Hd, Hbuf.
    + now symmetry.
    + now rewrite Hl, Hbuf.
    + lia.
    + rewrite Hl, Hbuf, !Zlen_app, Zlen_cons.
      pose proof (Zlen_nonneg post). unfold Zlen in *. lia.
Qed.

Lemma vlq_step_group (r g : Z) :
  0 <= r < 2 ^ 24 -> 0 <= g < 128 ->
  vlq_step r g = r * 128 + g /\ vlq_step r (Z.lor g 0x80) = r * 128 + g.
Proof.
  intros Hr Hg. unfold vlq_step.
  destruct (low7_of_group Hg) as [H1 H2]. rewrite H1, H2.
  rewrite (@lor_shiftl_add 7 r g) by lia.
  change (2 ^ 7) with 128.
  rewrite int32_small by lia. split; reflexivity.
Qed.

Lemma vlq_bytes_snoc (gs : list Z) (g : Z) :
  vlq_bytes (gs ++ [g]) = map (fun x => Z.lor x 0x80) gs ++ [g].
Proof.
  induction gs as [| x gs IH]; [reflexivity |].
  simpl app. simpl map. rewrite <- IH.
  destruct gs; reflexivity.
Qed.

Lemma continues_flagged (gs : list Z) :
  Forall is_group gs -> Forall continues (map (fun x => Z.lor x 0x80) gs).
Proof.
  induction 1 as [| g gs Hg _ IH]; simpl; constructor; [| assumption].
  exact (proj2 (flag_of_group Hg)).
Qed.

Ltac step_group :=
  match goal with
  | |- context [vlq_step ?r (Z.lor ?g 128)] =>
      rewrite (proj2 (@vlq_step_group r g ltac:(lia) ltac:(lia)))
  | |- context [vlq_step ?r ?g] =>
      rewrite (proj1 (@vlq_step_group r g ltac:(lia) ltac:(lia)))
  end.

(** The accumulation over the bytes of at most four groups is exact. *)
Lemma vlq_fold_bytes (groups : list Z) :
  groups <> [] -> (List.length groups <= 4)%nat -> Forall is_group groups ->
  fold_left vlq_step (vlq_bytes groups) 0 = vlq_value groups /\
  0 <= vlq_value groups < 2 ^ 28.
Proof.
  intros Hne Hlen Hall. unfold vlq_value, is_group in *.
  destruct groups as [| g1 [| g2 [| g3 [| g4 [| g5 rest]]]]];
    [congruence | | | | | simpl in Hlen; lia];
    repeat match goal with
           | H : Forall _ (_ :: _) |- _ => inversion H; clear H; subst
           end;
    simpl vlq_bytes; simpl fold_left.
  all: repeat step_group; lia.
Qed.

(** Decoding any valid encoding of one to four bytes, wherever it sits in
    the buffer. *)
Lemma decode_groups (t : TrackData) (pre post groups : list Z) :
  groups <> [] -> (List.length groups <= 4)%nat -> Forall is_group groups ->
  Track.data t = Some (pre ++ vlq_bytes groups ++ post) ->
  Track.offset t = Zlen pre ->
  Track.length t = Zlen (pre ++ vlq_bytes groups ++ post) ->
  Track.length t < 2 ^ 64 ->
  decode_variable_length t =
  Ok (vlq_value groups, Track.with_offset (Track.offset t + Zlen groups) t).
Proof.
  intros Hne Hlen Hall Hd Ho Hl Hmax.
  destruct (vlq_fold_bytes Hne Hlen Hall) as [Hval _].
  destruct (exists_last Hne) as (gs & g & Hgs). subst groups.
  rewrite vlq_bytes_snoc in *.
  apply Forall_app in Hall. destruct Hall as [Hgs Hg].
  inversion Hg as [| ? ? Hg' _]; subst.
  rewrite <- app_assoc in Hd, Hl. simpl app in Hd, Hl.
  unfold decode_variable_length.
  assert (Hlt : Track.offset t < Track.length t).
  { rewrite Hl, Ho, !Zlen_app, Zlen_cons.
    pose proof (Zlen_nonneg post).
    pose proof (Zlen_nonneg (map (fun x => Z.lor x 128) gs)). lia. }
  destruct (Z.leb_spec (Track.length t) (Track.offset t)) as [Hge | _]; [lia |].
  rewrite (@decode_loop_run _ _ t pre post g 0 Hd Ho Hl Hmax
             (continues_flagged Hgs) (or_introl (proj1 (flag_of_group Hg')))).
  - rewrite Hval, Ho. do 3 f_equal.
    unfold Zlen. rewrite length_map, length_app. simpl List.length. lia.
  - rewrite Hl, Ho, !Zlen_app, Zlen_cons.
    pose proof (Zlen_nonneg post). unfold Zlen in *. lia.
Qed.

(** The shortest encoding is a valid one and carries its integer. *)
Lemma vlq_groups_valid (n : Z) :
  0 <= n < 2 ^ 28 ->
  vlq_groups n <> [] /\ (List.length (vlq_groups n) <= 4)%nat /\
  Forall is_group (vlq_groups n) /\ vlq_value (vlq_groups n) = n.
Proof.
  intros Hn. unfold vlq_groups, vlq_value, is_group.
  change (2 ^ 7) with 128. change (2 ^ 14) with 16384.
  change (2 ^ 21) with 2097152. change (2 ^ 28) with 268435456 in Hn.
  destruct (Z.ltb_spec n 128); [| destruct (Z.ltb_spec n 16384);
                                  [| destruct (Z.ltb_spec n 2097152)]];
    (split; [discriminate |]); (split; [simpl; lia |]);
    (split; [repeat constructor |]); simpl fold_left;
    Z.div_mod_to_equations; lia.
Qed.

(** C1, as stated, fails: nothing in the loop stops after four bytes.  On
    five bytes of which the first four carry the continuation flag the
    decoder takes all five. *)
Lemma decode_takes_five_bytes :
  ~ (1 <= decode_consumed (cursor_at [0x81; 0x81; 0x81; 0x81; 0x01] 0) <= 4).
Proof.
  assert (H : decode_consumed (cursor_at [0x81; 0x81; 0x81; 0x81; 0x01] 0) = 5)
    by (vm_compute; reflexivity).
  rewrite H. lia.
Qed.

(** C1 (amended): on a cursor whose bounds are those of its block the
    decoder never faults.  At or past the end it returns 0 and leaves the
    cursor alone; otherwise it takes the continuation bytes at the cursor
    and the byte that ends them (flag clear, or last byte of the buffer),
    however many they are, accumulating [result = (result << 7) | (byte &
    0x7F)] in a 32-bit [int], and leaves the cursor just after them.  Every
    valid encoding of one to four bytes decodes to its integer, with the
    cursor moved by exactly its length; a run of continuation bytes cut short
    by the end of the buffer yields the partial value, with the cursor at the
    end. *)
Theorem decode_variable_length_correct (t : TrackData) (buf : list Z) :
  Track.data t = Some buf ->
  Track.length t = Zlen buf ->
  0 <= Track.offset t ->
  Zlen buf < 2 ^ 64 ->
  ((Track.length t <= Track.offset t /\ decode_variable_length t = Ok (0, t))
   \/
   (exists pre init lastb post,
       buf = pre ++ init ++ lastb :: post /\
       Zlen pre = Track.offset t /\
       Forall continues init /\
       (Z.land lastb 0x80 = 0 \/ post = []) /\
       decode_variable_length t =
       Ok (fold_left vlq_step (init ++ [lastb]) 0,
           Track.with_offset (Track.offset t + Zlen init + 1) t)))
  /\
  (forall pre groups post,
      buf = pre ++ vlq_bytes groups ++ post ->
      Zlen pre = Track.offset t ->
      groups <> [] -> (List.length groups <= 4)%nat -> Forall is_group groups ->
      decode_variable_length t =
      Ok (vlq_value groups, Track.with_offset (Track.offset t + Zlen groups) t))
  /\
  (forall pre n post,
      0 <= n < 2 ^ 28 ->
      buf = pre ++ vlq_encode n ++ post ->
      Zlen pre = Track.offset t ->
      decode_variable_length t =
      Ok (n, Track.with_offset (Track.offset t + Zlen (vlq_encode n)) t)
      /\ 1 <= Zlen (vlq_encode n) <= 4)
  /\
  (forall pre init lastb,
      buf = pre ++ init ++ [lastb] ->
      Zlen pre = Track.offset t ->
      Forall continues (init ++ [lastb]) ->
      decode_variable_length t =
      Ok (fold_left vlq_step (init ++ [lastb]) 0,
          Track.with_offset (Track.length t) t)).
Proof.
  intros Hd Hl Ho Hmax.
  assert (Hgroups :
            forall pre groups post,
              buf = pre ++ vlq_bytes groups ++ post ->
              Zlen pre = Track.offset t ->
              groups <> [] -> (List.length groups <= 4)%nat -> Forall is_group groups ->
              decode_variable_length t =
              Ok (vlq_value groups, Track.with_offset (Track.offset t + Zlen groups) t)).
  { intros pre groups post Hbuf Hpre Hne Hlen Hall. subst buf.
    apply decode_groups with (pre := pre) (post := post); auto; lia. }
  split; [| split; [| split]].
  - now apply decode_variable_length_cases.
  - exact Hgroups.
  - intros pre n post Hn Hbuf Hpre.
    destruct (vlq_groups_valid Hn) as (Hne & Hlen & Hall & Hval).
    assert (Hsame : Zlen (vlq_encode n) = Zlen (vlq_groups n)).
    { unfold vlq_encode.
      destruct (exists_last Hne) as (gs & g & Hgs). rewrite Hgs, vlq_bytes_snoc.
      unfold Zlen. now rewrite !length_app, length_map. }
    split.
    + rewrite Hsame.
      pose proof (Hgroups pre (vlq_groups n) post Hbuf Hpre Hne Hlen Hall) as HG.
      rewrite Hval in HG. exact HG.
    + rewrite Hsame. unfold Zlen.
      destruct (vlq_groups n); [congruence | simpl List.length in *; lia].
  - intros pre init lastb Hbuf Hpre Hall.
    apply Forall_app in Hall. destruct Hall as [Hinit _].
    unfold decode_variable_length.
    assert (Hlt : Track.offset t < Track.length t).
    { rewrite Hl, Hbuf, <- Hpre, !Zlen_app, Zlen_cons.
      pose proof (Zlen_nonneg init). change (Zlen []) with 0. lia. }
    destruct (Z.leb_spec (Track.length t) (Track.offset t)) as [Hge | _]; [lia |].
    rewrite (@decode_loop_run init _ t pre [] lastb 0); auto.
    + do 3 f_equal. rewrite Hl, Hbuf, !Zlen_app, Zlen_cons.
      change (Zlen []) with 0. lia.
    + now rewrite Hd, Hbuf.
    + now rewrite Hl, Hbuf.
    + lia.
    + rewrite Hl, Hbuf, <- Hpre, !Zlen_app, Zlen_cons.
      change (Zlen []) with 0. unfold Zlen. lia.
Qed.

(** The two-byte encoding [81 48] of 200, read at offset 1. *)
Lemma decode_variable_length_correct_witness :
  decode_variable_length (cursor_at [0x00; 0x81; 0x48; 0x90] 1) =
  Ok (200, Track.with_offset 3 (cursor_at [0x00; 0x81; 0x48; 0x90] 1)).
Proof.
  destruct (@decode_variable_length_correct
              (cursor_at [0x00; 0x81; 0x48; 0x90] 1) [0x00; 0x81; 0x48; 0x90]
              eq_refl eq_refl)
    as (_ & _ & H & _).
  - discriminate.
  - reflexivity.
  - exact (proj1 (H [0x00] 200 [0x90] ltac:(split; [discriminate | reflexivity]) eq_refl eq_refl)).
Defined.

(** ** C9: the event queue *)

Section QueueFacts.
Variable N : Z.
Hypothesis N_pos : 0 < N.

Lemma mod_wrap_high (x : Z) : N <= x < 2 * N -> x mod N = x - N.
Proof.
  intros Hx. replace x with ((x - N) + 1 * N) at 1 by lia.
  rewrite Z.mod_add by lia. apply Z.mod_small. lia.
Qed.

Lemma mod_wrap_low (x : Z) : - N <= x < 0 -> x mod N = x + N.
Proof.
  intros Hx. replace x with ((x + N) + (-1) * N) at 1 by lia.
  rewrite Z.mod_add by lia. apply Z.mod_small. lia.
Qed.

Lemma occupied_cases (q : EventQueue) :
  indices_ok N q ->
  (tail q <= head q /\ occupied N q = head q - tail q) \/
  (head q < tail q /\ occupied N q = head q - tail q + N).
Proof.
  intros [Hh Ht]. unfold occupied.
  destruct (Z.le_gt_cases (tail q) (head q)) as [Hle | Hgt].
  - left. split; [assumption |]. apply Z.mod_small. lia.
  - right. split; [assumption |]. apply mod_wrap_low. lia.
Qed.

Lemma next_index (i : Z) :
  0 <= i < N ->
  Z.rem (i + 1) N = (i + 1) mod N /\
  0 <= (i + 1) mod N < N /\
  ((i + 1 < N /\ (i + 1) mod N = i + 1) \/ (i + 1 = N /\ (i + 1) mod N = 0)).
Proof.
  intros Hi. split; [apply Z.rem_mod_nonneg; lia |].
  split; [apply Z.mod_pos_bound; lia |].
  destruct (Z.eq_dec (i + 1) N) as [He | Hne].
  - right. split; [assumption |]. rewrite He. apply Z.mod_same. lia.
  - left. split; [lia |]. apply Z.mod_small. lia.
Qed.

(** The slot [k] places after [tail], for [k] up to the occupied count. *)
Lemma slot_cases (q : EventQueue) (k : Z) :
  indices_ok N q -> 0 <= k <= occupied N q ->
  (tail q + k < N /\ (tail q + k) mod N = tail q + k) \/
  (N <= tail q + k /\ (tail q + k) mod N = tail q + k - N).
Proof.
  intros Hq Hk. pose proof Hq as [Hh Ht].
  destruct (Z.lt_ge_cases (tail q + k) N) as [Hlt | Hge].
  - left. split; [assumption |]. apply Z.mod_small. lia.
  - right. split; [assumption |]. apply mod_wrap_high.
    destruct (occupied_cases Hq) as [[? ?] | [? ?]]; lia.
Qed.

Lemma queue_push_full (e : MidiEvent) (q : EventQueue) :
  indices_ok N q -> occupied N q = N - 1 ->
  queue_push N e q = (false, q).
Proof.
  intros Hq Hocc. pose proof Hq as [Hh Ht]. unfold queue_push.
  destruct (next_index Hh) as (Hrem & _ & Hnext). rewrite Hrem.
  replace ((head q + 1) mod N =? tail q) with true; [reflexivity |].
  symmetry. apply Z.eqb_eq.
  destruct (occupied_cases Hq) as [[? ?] | [? ?]]; lia.
Qed.

Lemma queue_push_room (e : MidiEvent) (q : EventQueue) :
  indices_ok N q -> occupied N q <> N - 1 ->
  exists q',
    queue_push N e q = (true, q') /\
    indices_ok N q' /\
    occupied N q' = occupied N q + 1 /\
    contents N q' = contents N q ++ [e].
Proof.
  intros Hq Hocc. pose proof Hq as [Hh Ht]. unfold queue_push.
  destruct (next_index Hh) as (Hrem & Hrange & Hnext). rewrite Hrem.
  assert (Hbound : 0 <= occupied N q < N) by (apply Z.mod_pos_bound; lia).
  assert (Hneq : (head q + 1) mod N <> tail q).
  { destruct (occupied_cases Hq) as [[? ?] | [? ?]]; lia. }
  apply Z.eqb_neq in Hneq. rewrite Hneq. simpl negb. cbv iota.
  eexists. split; [reflexivity |].
  set (q' := mkEventQueue _ _ _).
  assert (Hq' : indices_ok N q') by (split; simpl; assumption).
  assert (Hocc' : occupied N q' = occupied N q + 1).
  { destruct (occupied_cases Hq') as [[? Ho'] | [? Ho']];
      destruct (occupied_cases Hq) as [[? Ho] | [? Ho]];
      rewrite Ho', Ho; simpl in *; lia. }
  split; [assumption |]. split; [assumption |].
  unfold contents. rewrite Hocc'.
  replace (Z.to_nat (occupied N q + 1)) with (Z.to_nat (occupied N q) + 1)%nat by lia.
  rewrite seq_app, map_app. simpl seq. simpl map. f_equal.
  - apply map_ext_in. intros k Hk. apply in_seq in Hk. simpl.
    replace (((tail q + Z.of_nat k) mod N) =? head q) with false; [reflexivity |].
    symmetry. apply Z.eqb_neq.
    destruct (@slot_cases q (Z.of_nat k) Hq ltac:(lia)) as [[? Hs] | [? Hs]];
      rewrite Hs;
      destruct (occupied_cases Hq) as [[? ?] | [? ?]]; lia.
  - simpl. f_equal.
    replace (((tail q + Z.of_nat (Z.to_nat (occupied N q))) mod N) =? head q)
      with true; [reflexivity |].
    symmetry. apply Z.eqb_eq. rewrite Z2Nat.id by lia.
    destruct (@slot_cases q (occupied N q) Hq ltac:(lia)) as [[? Hs] | [? Hs]];
      rewrite Hs;
      destruct (occupied_cases Hq) as [[? ?] | [? ?]]; lia.
Qed.

Lemma queue_pop_empty (q : EventQueue) :
  indices_ok N q -> occupied N q = 0 -> queue_pop N q = (None, q).
Proof.
  intros Hq Hocc. unfold queue_pop.
  replace (tail q =? head q) with true; [reflexivity |].
  symmetry. apply Z.eqb_eq.
  destruct (occupied_cases Hq) as [[? ?] | [? ?]]; destruct Hq; lia.
Qed.

Lemma queue_pop_some (q : EventQueue) :
  indices_ok N q -> occupied N q <> 0 ->
  exists e q',
    queue_pop N q = (Some e, q') /\
    indices_ok N q' /\
    occupied N q' = occupied N q - 1 /\
    contents N q = e :: contents N q'.
Proof.
  intros Hq Hocc. pose proof Hq as [Hh Ht]. unfold queue_pop.
  destruct (next_index Ht) as (Hrem & Hrange & Hnext). rewrite Hrem.
  assert (Hbound : 0 <= occupied N q < N) by (apply Z.mod_pos_bound; lia).
  assert (Hneq : tail q <> head q).
  { intros Heq. apply Hocc. unfold occupied. rewrite Heq, Z.sub_diag.
    apply Z.mod_0_l. lia. }
  apply Z.eqb_neq in Hneq. rewrite Hneq. simpl negb. cbv iota.
  do 2 eexists. split; [reflexivity |].
  set (q' := mkEventQueue _ _ _).
  assert (Hq' : indices_ok N q') by (split; simpl; assumption).
  assert (Hocc' : occupied N q' = occupied N q - 1).
  { destruct (occupied_cases Hq') as [[? Ho'] | [? Ho']];
      destruct (occupied_cases Hq) as [[? Ho] | [? Ho]];
      rewrite Ho', Ho; simpl in *; lia. }
  split; [assumption |]. split; [assumption |].
  unfold contents. rewrite Hocc'.
  replace (Z.to_nat (occupied N q)) with (S (Z.to_nat (occupied N q - 1))) by lia.
  simpl seq. simpl map. f_equal.
  - f_equal. change (Z.of_nat 0) with 0. rewrite Z.add_0_r.
    apply Z.mod_small. lia.
  - rewrite <- seq_shift, map_map. apply map_ext. intros k. simpl.
    f_equal. rewrite Z.add_mod_idemp_l by lia. f_equal. lia.
Qed.

Lemma serve_invariant (h : history) (r : request) :
  fifo_invariant N h -> fifo_invariant N (serve N h r).
Proof.
  intros [Hq Hfifo]. destruct r as [e |]; unfold serve.
  - destruct (Z.eq_dec (occupied N (queue h)) (N - 1)) as [Hfull | Hroom].
    + rewrite (queue_push_full e Hq Hfull). split; assumption.
    + destruct (queue_push_room e Hq Hroom) as (q' & Hpush & Hq' & _ & Hc).
      rewrite Hpush. split; simpl; [assumption |].
      rewrite Hc, Hfifo. now rewrite app_assoc.
  - destruct (Z.eq_dec (occupied N (queue h)) 0) as [Hempty | Hsome].
    + rewrite (queue_pop_empty Hq Hempty). split; assumption.
    + destruct (queue_pop_some Hq Hsome) as (e & q' & Hpop & Hq' & _ & Hc).
      rewrite Hpop. split; simpl; [assumption |].
      rewrite Hfifo, Hc, <- app_assoc. reflexivity.
Qed.

Lemma run_requests_invariant (rs : list request) :
  forall h, fifo_invariant N h -> fifo_invariant N (run_requests N h rs).
Proof.
  induction rs as [| r rs IH]; intros h Hh; [exact Hh |].
  simpl. apply IH. now apply serve_invariant.
Qed.

Lemma initial_invariant (blank : MidiEvent) :
  fifo_invariant N (mkHistory (init_event_queue blank) [] []).
Proof.
  split; simpl.
  - split; simpl; lia.
  - unfold contents, occupied, init_event_queue. cbn [head tail].
    rewrite Z.sub_diag, Z.mod_0_l by lia. reflexivity.
Qed.

Lemma contents_length (q : EventQueue) :
  Z.of_nat (List.length (contents N q)) = occupied N q.
Proof.
  unfold contents. rewrite length_map, length_seq.
  apply Z2Nat.id. apply Z.mod_pos_bound. lia.
Qed.
End QueueFacts.

(** C9: start from the empty queue and serve any interleaving of pushes and
    pops (each one atomic under the mutex), for any capacity.  The events
    accepted so far are exactly the events popped so far, in the same order,
    followed by the events still stored, whose number is the occupied count
    [(head - tail) mod capacity]; that count never exceeds [capacity - 1]; a
    push onto a full queue (next head equal to tail, that is count
    [capacity - 1]) fails and returns the queue as it was; a pop from an
    empty queue (tail equal to head, that is count 0) fails and returns the
    queue as it was. *)
Theorem event_queue_fifo (N : Z) (blank : MidiEvent) (rs : list request) :
  0 < N ->
  let h := run_requests N (mkHistory (init_event_queue blank) [] []) rs in
  let q := queue h in
  (exists pending,
      accepted h = popped h ++ pending /\
      Z.of_nat (List.length pending) = occupied N q)
  /\ occupied N q <= N - 1
  /\ (Z.rem (head q + 1) N = tail q <-> occupied N q = N - 1)
  /\ (forall e, Z.rem (head q + 1) N = tail q -> queue_push N e q = (false, q))
  /\ (tail q = head q <-> occupied N q = 0)
  /\ (tail q = head q -> queue_pop N q = (None, q)).
Proof.
  intros HN h q.
  destruct (run_requests_invariant HN rs (initial_invariant HN blank)) as [Hq Hfifo].
  fold h in Hq, Hfifo. fold q in Hq, Hfifo.
  pose proof Hq as [Hh Ht].
  assert (Hbound : 0 <= occupied N q < N) by (apply Z.mod_pos_bound; lia).
  destruct (next_index HN Hh) as (Hrem & _ & Hnext).
  split; [| split; [| split; [| split; [| split]]]].
  - exists (contents N q). split; [assumption | apply contents_length; assumption].
  - lia.
  - rewrite Hrem.
    destruct (occupied_cases HN Hq) as [[? ?] | [? ?]]; lia.
  - intros e Hfull. unfold queue_push.
    apply Z.eqb_eq in Hfull. rewrite Hfull. reflexivity.
  - destruct (occupied_cases HN Hq) as [[? ?] | [? ?]]; lia.
  - intros Hempty. unfold queue_pop.
    apply Z.eqb_eq in Hempty. rewrite Hempty. reflexivity.
Qed.

(** Capacity 3: two pushes fill the queue, the third is refused, then one
    pop. *)
Lemma event_queue_fifo_witness :
  let blank := mkMidiEvent 0 0 0 false 0%float in
  let rs := [Push (note_on 0 60 100 0%float); Push (note_on 0 64 100 0%float);
             Push (note_on 0 67 100 0%float); Pop] in
  let h := run_requests 3 (mkHistory (init_event_queue blank) [] []) rs in
  let q := queue h in
  (exists pending,
      accepted h = popped h ++ pending /\
      Z.of_nat (List.length pending) = occupied 3 q)
  /\ occupied 3 q <= 3 - 1
  /\ (Z.rem (head q + 1) 3 = tail q <-> occupied 3 q = 3 - 1)
  /\ (forall e, Z.rem (head q + 1) 3 = tail q -> queue_push 3 e q = (false, q))
  /\ (tail q = head q <-> occupied 3 q = 0)
  /\ (tail q = head q -> queue_pop 3 q = (None, q)).
Proof.
  intros blank rs.
  exact (@event_queue_fifo 3 blank rs eq_refl).
Defined.

(** The run of the witness, spelled out: the third push is dropped and the
    pop returns the first event pushed. *)
Example queue_capacity_three :
  let blank := mkMidiEvent 0 0 0 false 0%float in
  let a := note_on 0 60 100 0%float in
  let b := note_on 0 64 100 0%float in
  let c := note_on 0 67 100 0%float in
  let h := run_requests 3 (mkHistory (init_event_queue blank) [] [])
                        [Push a; Push b; Push c; Pop] in
  accepted h = [a; b] /\ popped h = [a] /\ occupied 3 (queue h) = 1.
Proof. vm_compute. repeat split. Qed.

(** ** C8: Note-On with velocity 0 *)

(** C8: a decoded Note-On with velocity 0 is notified exactly as a Note-Off
    of the same channel and note: the log gains the same single call of the
    note-off callback (none when that pointer is null), and no call of the
    note-on callback. *)
Theorem note_on_velocity_zero_is_note_off
        (note_on_callback note_off_callback : bool) (time_div : Z)
        (t_on t_off : TrackData) (p : Play.t) :
  command_of (Track.message t_on) = 0x90 ->
  velocity_of (Track.message t_on) = 0 ->
  command_of (Track.message t_off) = 0x80 ->
  channel_of (Track.message t_on) = channel_of (Track.message t_off) ->
  note_of (Track.message t_on) = note_of (Track.message t_off) ->
  exists p_on p_off,
    dispatch note_on_callback note_off_callback time_div t_on p = Ok (t_on, p_on) /\
    dispatch note_on_callback note_off_callback time_div t_off p = Ok (t_off, p_off) /\
    Play.log p_on = Play.log p_off /\
    Play.log p_on =
    (if note_off_callback
     then Notify (Play.tick p)
                 (NoteOffCall (channel_of (Track.message t_off))
                              (note_of (Track.message t_off))) :: Play.log p
     else Play.log p).
Proof.
  intros Hon Hvel Hoff Hch Hnote. unfold dispatch.
  rewrite Hon, Hvel, Hoff, Hch, Hnote.
  change (0x90 =? 0x90) with true. change (0 <? 0) with false.
  change (0x80 =? 0x90) with false. change (0x80 =? 0x80) with true.
  cbv iota.
  do 2 eexists. split; [reflexivity |]. split; [reflexivity |].
  destruct note_off_callback; split; reflexivity.
Qed.

(** Note-On [90 3C 00] against Note-Off [80 3C 40], both callbacks set. *)
Lemma note_on_velocity_zero_is_note_off_witness :
  exists p_on p_off,
    dispatch true true 480 (Track.with_message 0x003C90 (cursor_at [] 0)) initial_play
    = Ok (Track.with_message 0x003C90 (cursor_at [] 0), p_on) /\
    dispatch true true 480 (Track.with_message 0x403C80 (cursor_at [] 0)) initial_play
    = Ok (Track.with_message 0x403C80 (cursor_at [] 0), p_off) /\
    Play.log p_on = Play.log p_off /\
    Play.log p_on = [Notify 0 (NoteOffCall 0 60)].
Proof.
  exact (@note_on_velocity_zero_is_note_off true true 480
           (Track.with_message 0x003C90 (cursor_at [] 0))
           (Track.with_message 0x403C80 (cursor_at [] 0))
           initial_play eq_refl eq_refl eq_refl eq_refl eq_refl).
Defined.

(** ** C10: the order of the note-on arguments *)

(** C10: for Note-On [91 3C 64] (channel 1, note 60, velocity 100) the
    scheduler calls [note_on_callback(100, 1, 60)]: velocity first.  A
    consumer written against midiplayer.h, such as [note_on] of main.c,
    takes the first argument for the channel, and so queues an event with
    channel 100, note 1 and velocity 60. *)
Theorem note_on_arguments_out_of_order (now : float) :
  let track := Track.with_message 0x643C91 (cursor_at [] 0) in
  exists p,
    dispatch true true 480 track initial_play = Ok (track, p) /\
    calls (Play.log p) = [NoteOnCall 100 1 60] /\
    map (deliver now) (calls (Play.log p)) = [mkMidiEvent 1 60 100 true now] /\
    note_on 1 60 100 now = mkMidiEvent 60 100 1 true now.
Proof.
  intros track. eexists. split; [vm_compute; reflexivity |].
  repeat split.
Qed.

(** ** C7: running status *)

(** With the high bit clear at the status position, [update_command] leaves
    the cursor and the latched status where they are. *)
Lemma update_command_running_status (t : TrackData) (b : Z) :
  read_data t (Track.offset t) = Ok b -> b < 0x80 -> update_command t = Ok t.
Proof.
  intros Hread Hb. unfold update_command.
  destruct ((Track.length t =? 0) || is_null (Track.data t)); [reflexivity |].
  rewrite Hread. simpl bind.
  destruct (Z.leb_spec 0x80 b); [lia | reflexivity].
Qed.

(** C7: in [running_status_track] the second event has no status byte.
    [update_command] keeps the cursor and the latched [0x90], and
    [update_message] reads [40 00] as the two data bytes; but it ORs them
    into a [message] that still holds the first event's data bytes, so the
    event dispatched has note [0x3C | 0x40 = 0x7C] and velocity
    [0x40 | 0x00 = 0x40]: a second Note-On instead of the Note-Off of note
    0x40 that the bytes spell. *)
Theorem running_status_keeps_stale_data :
  exists t0 t1 t2,
    load_track running_status_track = Ok t0 /\
    (a <- update_command t0 ;; b <- update_message a ;; update_tick b) = Ok t1 /\
    Track.message t1 = 0x403C90 /\
    read_data t1 (Track.offset t1) = Ok 0x40 /\
    update_command t1 = Ok t1 /\
    update_message t1 = Ok t2 /\
    Track.offset t2 = Track.offset t1 + 2 /\
    status_byte_of (Track.message t2) = 0x90 /\
    note_of (Track.message t2) = 0x7C /\
    velocity_of (Track.message t2) = 0x40 /\
    calls (Play.log (final_play (play_midi true true 480 8 [t0])))
    = [NoteOnCall 0x40 0 0x3C; NoteOnCall 0x40 0 0x7C].
Proof.
  do 3 eexists.
  split; [vm_compute; reflexivity |].
  split; [vm_compute; reflexivity |].
  split; [reflexivity |].
  split; [vm_compute; reflexivity |].
  split; [vm_compute; reflexivity |].
  split; [vm_compute; reflexivity |].
  repeat split; vm_compute; reflexivity.
Qed.

(** ** C6: the multiplier before any Set-Tempo *)

(** C6: [no_tempo_track] has no Set-Tempo event.  The session finishes, and
    the one delay it computes, for the 96 ticks between the two events,
    uses the multiplier 0 that [play_midi] starts with: the default tempo
    of 500000 is stored but never turned into a multiplier. *)
Theorem multiplier_is_zero_before_set_tempo :
  exists tracks p,
    play_midi true true 480 8 [track_of no_tempo_track] = Finished (tracks, p) /\
    Play.bpm p = 500000 /\
    Play.log p = [Notify 96 (NoteOffCall 0 60); Delay 96 0%float;
                  Notify 0 (NoteOnCall 0x40 0 0x3C)] /\
    delay_multipliers (Play.log p) = [0%float] /\
    PrimFloat.leb 1 0 = false.
Proof.
  do 2 eexists. split; [vm_compute; reflexivity |].
  repeat split.
Qed.

(** ** C2: the cursor and the bounds of the buffer *)

(** C2: in [overlong_meta_track] the meta event announces 5 payload bytes
    with the cursor at 4 of 5.  [update_message] passes that length to
    [memcpy] unclamped: the copy leaves the block at index 5.  In
    [short_note_track] the second data byte is read at index 3 of 3.  In
    both sessions the scheduler runs into the access. *)
Theorem update_message_reads_past_the_end :
  exists t0 t1 s0 s1,
    load_track overlong_meta_track = Ok t0 /\
    update_command t0 = Ok t1 /\
    Track.offset t1 = 2 /\ Track.length t1 = 5 /\
    update_message t1 = Fault (OutOfBounds 5 5) /\
    play_midi true true 480 8 [t0] = Crashed (OutOfBounds 5 5) initial_play /\
    load_track short_note_track = Ok s0 /\
    update_command s0 = Ok s1 /\
    Track.offset s1 = 2 /\ Track.length s1 = 3 /\
    update_message s1 = Fault (OutOfBounds 3 3) /\
    play_midi true true 480 8 [s0] = Crashed (OutOfBounds 3 3) initial_play.
Proof.
  do 4 eexists.
  split; [vm_compute; reflexivity |].
  split; [vm_compute; reflexivity |].
  split; [reflexivity |]. split; [reflexivity |].
  split; [vm_compute; reflexivity |].
  split; [vm_compute; reflexivity |].
  split; [vm_compute; reflexivity |].
  split; [vm_compute; reflexivity |].
  split; [reflexivity |]. split; [reflexivity |].
  split; vm_compute; reflexivity.
Qed.

(** ** C4: when a track stops being active *)

(** An empty track chunk: every round of the inner loop leaves the track
    and the locals as they were. *)
Lemma drain_empty_track (fuel : nat) :
  drain true true 480 fuel (track_of []) initial_play = Timeout initial_play.
Proof.
  induction fuel as [| fuel IH]; [reflexivity |].
  (* one round evaluates to the same track and the same locals *)
  change (drain true true 480 fuel (track_of []) initial_play = Timeout initial_play).
  exact IH.
Qed.

(** C4: a track whose buffer is exhausted stays active.  For a track chunk
    of length 0 the pump never ends, whatever the fuel: each round of the
    inner loop decodes nothing and leaves the tick at 0.  For
    [no_end_track], once its one event is decoded the cursor is at the end
    of the buffer (offset 4 of 4), the track is still active and due, and
    the next round reads [data[4]]. *)
Theorem exhausted_track_is_not_deactivated :
  (forall fuel,
      play_midi true true 480 fuel [track_of []] = Timeout initial_play)
  /\
  (exists t0 t1,
      load_track no_end_track = Ok t0 /\
      (a <- update_command t0 ;; b <- update_message a ;; update_tick b) = Ok t1 /\
      Track.offset t1 = 4 /\ Track.length t1 = 4 /\
      is_null (Track.data t1) = false /\ Track.tick t1 = 0 /\
      update_command t1 = Fault (OutOfBounds 4 4) /\
      forall fuel,
        exists p,
          play_midi true true 480 (S (S fuel)) [t0] = Crashed (OutOfBounds 4 4) p /\
          calls (Play.log p) = [NoteOnCall 0x40 0 0x3C]).
Proof.
  split.
  - intros [| fuel]; [reflexivity |].
    unfold play_midi. cbn [pump scan_tracks].
    change (negb (is_null (Track.data (track_of [])))) with true. cbv iota.
    rewrite drain_empty_track. reflexivity.
  - do 2 eexists.
    split; [vm_compute; reflexivity |].
    split; [vm_compute; reflexivity |].
    split; [reflexivity |]. split; [reflexivity |].
    split; [reflexivity |]. split; [reflexivity |].
    split; [vm_compute; reflexivity |].
    intros fuel. eexists. split; [vm_compute; reflexivity | reflexivity].
Qed.

(** ** C3 and X18: the order of the notifications *)

Lemma log_ok_weaken (log : list emission) (k k' : Z) :
  k <= k' -> log_ok k log -> log_ok k' log.
Proof.
  revert k k'. induction log as [| e log IH]; intros k k' Hk H; [exact I |].
  destruct e as [t c | d m]; simpl in *.
  - destruct H as [Ht Hrest]. split; [lia | assumption].
  - now apply IH with (k := k).
Qed.

Lemma follows_refl (p : Play.t) : follows p p.
Proof. split; [reflexivity | trivial]. Qed.

Lemma follows_trans (p q r : Play.t) : follows p q -> follows q r -> follows p r.
Proof.
  intros [Hpq Lpq] [Hqr Lqr]. split; [congruence | auto].
Qed.

Lemma StronglySorted_snoc (l : list Z) (a : Z) :
  StronglySorted Z.le l -> Forall (fun x => x <= a) l ->
  StronglySorted Z.le (l ++ [a]).
Proof.
  induction 1 as [| x l Hl IH Hx]; intros Hall; simpl.
  - repeat constructor.
  - inversion Hall as [| ? ? Hxa Hrest]; subst.
    constructor; [now apply IH |].
    apply Forall_app. split; [assumption | now constructor].
Qed.

(** A well-ordered log lists its ticks in non-decreasing order. *)
Lemma log_ok_sorted (log : list emission) :
  forall k, log_ok k log ->
    StronglySorted Z.le (notify_ticks log) /\
    Forall (fun t => t <= k) (notify_ticks log).
Proof.
  unfold notify_ticks.
  induction log as [| e log IH]; intros k H; simpl.
  - split; constructor.
  - destruct e as [t c | d m]; simpl in *.
    + destruct H as [Ht Hrest]. destruct (IH t Hrest) as [Hs Hb].
      split.
      * now apply StronglySorted_snoc.
      * apply Forall_app. split.
        -- eapply Forall_impl; [| exact Hb]. simpl. intros; lia.
        -- now repeat constructor.
    + now apply IH.
Qed.

Lemma emit_follows (p : Play.t) (c : call) :
  follows p (emit (Notify (Play.tick p) c) p).
Proof.
  split; [reflexivity |]. simpl. intros H. split; [lia | assumption].
Qed.

Ltac destruct_scrutinee H :=
  match type of H with
  | context [match ?x with _ => _ end] => destruct x eqn:?
  | context [if ?x then _ else _] => destruct x eqn:?
  end.

Lemma process_meta_event_follows (t t' : TrackData) (p p' : Play.t) (time_div : Z) :
  process_meta_event t p time_div = Ok (t', p') -> follows p p'.
Proof.
  unfold process_meta_event, bind, read_long_msg. intros H.
  repeat destruct_scrutinee H; inversion H; subst;
    try apply follows_refl.
  split; [reflexivity | trivial].
Qed.

Lemma dispatch_follows (on off : bool) (time_div : Z)
      (t t' : TrackData) (p p' : Play.t) :
  dispatch on off time_div t p = Ok (t', p') -> follows p p'.
Proof.
  unfold dispatch. intros H.
  destruct (command_of (Track.message t) =? 0x90).
  - destruct (0 <? velocity_of (Track.message t)); inversion H; subst.
    + destruct on; split; try reflexivity; simpl; intros; try split; auto; lia.
    + destruct off; split; try reflexivity; simpl; intros; try split; auto; lia.
  - destruct (command_of (Track.message t) =? 0x80).
    + inversion H; subst.
      destruct off; split; try reflexivity; simpl; intros; try split; auto; lia.
    + destruct (status_byte_of (Track.message t) =? 0xFF).
      * eapply process_meta_event_follows; eassumption.
      * inversion H; subst. apply follows_refl.
Qed.

Section SchedulerFacts.
Variables on off : bool.
Variable time_div : Z.

Lemma drain_follows (fuel : nat) :
  forall t p, follows p (play_of snd (drain on off time_div fuel t p)).
Proof.
  induction fuel as [| fuel IH]; intros t p; simpl drain.
  - destruct (negb (is_null (Track.data t)) && (uint64 (Track.tick t) <=? Play.tick p));
      apply follows_refl.
  - destruct (negb (is_null (Track.data t)) && (uint64 (Track.tick t) <=? Play.tick p));
      [| apply follows_refl].
    destruct (t1 <- update_command t;; update_message t1) as [t2 | f];
      [| apply follows_refl].
    destruct (dispatch on off time_div t2 p) as [[t3 p'] | f] eqn:Hd;
      [| apply follows_refl].
    apply dispatch_follows in Hd.
    destruct (negb (is_null (Track.data t3))).
    + destruct (update_tick t3) as [t4 | f]; [| exact Hd].
      eapply follows_trans; [exact Hd | apply IH].
    + eapply follows_trans; [exact Hd | apply IH].
Qed.

(** When the inner loop ends with the track still active, the track is no
    longer due. *)
Lemma drain_finished (fuel : nat) :
  forall t p t' p',
    drain on off time_div fuel t p = Finished (t', p') ->
    is_null (Track.data t') = false ->
    Play.tick p' < uint64 (Track.tick t').
Proof.
  induction fuel as [| fuel IH]; intros t p t' p' H Hactive; simpl drain in H.
  - destruct (negb (is_null (Track.data t))) eqn:Hn;
      destruct (Z.leb_spec (uint64 (Track.tick t)) (Play.tick p));
      simpl in H; inversion H; subst; try assumption.
    all: rewrite Hactive in Hn; discriminate.
  - destruct (negb (is_null (Track.data t))) eqn:Hn;
      destruct (Z.leb_spec (uint64 (Track.tick t)) (Play.tick p));
      simpl andb in H; cbv iota in H.
    2,3,4: inversion H; subst; try assumption;
      rewrite Hactive in Hn; discriminate.
    destruct (t1 <- update_command t;; update_message t1) as [t2 | f];
      [| discriminate].
    destruct (dispatch on off time_div t2 p) as [[t3 p3] | f]; [| discriminate].
    destruct (negb (is_null (Track.data t3))).
    + destruct (update_tick t3) as [t4 | f]; [| discriminate].
      eapply IH; eassumption.
    + eapply IH; eassumption.
Qed.

Lemma scan_tracks_follows (fuel : nat) (tracks : list TrackData) :
  forall i p, follows p (play_of snd (scan_tracks on off time_div fuel tracks i p)).
Proof.
  induction tracks as [| t rest IH]; intros i p; simpl scan_tracks.
  - apply follows_refl.
  - assert (Hfirst : follows p (play_of snd
              (if negb (is_null (Track.data t))
               then drain on off time_div fuel t p
               else Finished (t, p)))).
    { destruct (negb (is_null (Track.data t)));
        [apply drain_follows | apply follows_refl]. }
    destruct (if negb (is_null (Track.data t))
              then drain on off time_div fuel t p
              else Finished (t, p)) as [[t' p1] | q | f q]; try exact Hfirst.
    specialize (IH (S i) p1).
    destruct (scan_tracks on off time_div fuel rest (S i) p1)
      as [[[rest' active] p2] | q | f q];
      eapply follows_trans; eassumption.
Qed.

(** What a completed pass over the array leaves: [active_tracks] holds
    exactly the indices of the tracks that still have data, and none of
    them is due. *)
Lemma scan_tracks_finished (fuel : nat) (tracks : list TrackData) :
  forall i p tracks' active p',
    scan_tracks on off time_div fuel tracks i p = Finished (tracks', active, p') ->
    (forall idx, In idx active ->
       exists j t, idx = (i + j)%nat /\ nth_error tracks' j = Some t /\
                   is_null (Track.data t) = false /\
                   Play.tick p' < uint64 (Track.tick t)) /\
    (forall j t, nth_error tracks' j = Some t ->
                 is_null (Track.data t) = false -> In (i + j)%nat active).
Proof.
  induction tracks as [| t rest IH]; intros i p tracks' active p' H;
    simpl scan_tracks in H.
  - inversion H; subst. split.
    + intros idx [].
    + intros j t Hnth. destruct j; discriminate.
  - assert (Hfirst : forall t' p1,
              (if negb (is_null (Track.data t))
               then drain on off time_div fuel t p
               else Finished (t, p)) = Finished (t', p1) ->
              is_null (Track.data t') = false ->
              Play.tick p1 < uint64 (Track.tick t')).
    { intros t' p1 Hf Hactive.
      destruct (is_null (Track.data t)) eqn:Hn; simpl negb in Hf; cbv iota in Hf.
      - inversion Hf; subst. congruence.
      - eapply drain_finished; eassumption. }
    destruct (if negb (is_null (Track.data t))
              then drain on off time_div fuel t p
              else Finished (t, p)) as [[t' p1] | q | f q]; try discriminate.
    specialize (Hfirst t' p1 eq_refl).
    pose proof (scan_tracks_follows fuel rest (S i) p1) as [Htick _].
    destruct (scan_tracks on off time_div fuel rest (S i) p1)
      as [[[rest' act] p2] | q | f q] eqn:Hrest; try discriminate.
    simpl in Htick.
    destruct (IH _ _ _ _ _ Hrest) as [Hin Hall].
    inversion H; subst. clear H.
    split.
    + intros idx Hidx.
      assert (Hcases : (idx = i /\ is_null (Track.data t') = false) \/ In idx act).
      { destruct (is_null (Track.data t')); simpl in Hidx; intuition. }
      destruct Hcases as [[-> Hactive] | Hold].
      * exists 0%nat, t'.
        split; [lia |]. split; [reflexivity |]. split; [assumption |].
        rewrite Htick. now apply Hfirst.
      * destruct (Hin idx Hold) as (j & u & -> & Hnth & Hu & Hlt).
        exists (S j), u.
        split; [lia |]. split; [exact Hnth |]. split; assumption.
    + intros j u Hnth Hu. destruct j as [| j]; simpl in Hnth.
      * inversion Hnth; subst. rewrite Hu. simpl. left. lia.
      * specialize (Hall j u Hnth Hu).
        replace (i + S j)%nat with (S i + j)%nat by lia.
        destruct (negb (is_null (Track.data t'))); simpl; auto.
Qed.

(** The minimum loop. *)
Lemma next_delta_fold (tracks : list TrackData) (tick : Z) (active : list nat) :
  forall acc,
    let r := fold_left
               (fun delta_tick idx =>
                  match nth_error tracks idx with
                  | Some track =>
                      if negb (is_null (Track.data track)) then
                        let track_delta := pending_delta tick track in
                        if track_delta <? delta_tick then track_delta else delta_tick
                      else delta_tick
                  | None => delta_tick
                  end) active acc in
    r <= acc /\
    (forall idx t, In idx active -> nth_error tracks idx = Some t ->
                   is_null (Track.data t) = false -> r <= pending_delta tick t) /\
    (r = acc \/
     exists idx t, In idx active /\ nth_error tracks idx = Some t /\
                   is_null (Track.data t) = false /\ r = pending_delta tick t).
Proof.
  induction active as [| a active IH]; intros acc; simpl fold_left.
  - split; [lia |]. split; [intros ? ? [] | now left].
  - set (acc' := match nth_error tracks a with
                 | Some track =>
                     if negb (is_null (Track.data track)) then
                       let track_delta := pending_delta tick track in
                       if track_delta <? acc then track_delta else acc
                     else acc
                 | None => acc
                 end).
    assert (Hacc : acc' <= acc /\
                   (forall t, nth_error tracks a = Some t ->
                              is_null (Track.data t) = false ->
                              acc' <= pending_delta tick t) /\
                   (acc' = acc \/
                    exists t, nth_error tracks a = Some t /\
                              is_null (Track.data t) = false /\
                              acc' = pending_delta tick t)).
    { unfold acc'. destruct (nth_error tracks a) as [u |].
      - destruct (is_null (Track.data u)) eqn:Hu; simpl negb; cbv iota.
        + split; [lia |]. split; [| now left].
          intros t Ht. inversion Ht; subst. congruence.
        + cbv zeta.
          destruct (Z.ltb_spec (pending_delta tick u) acc).
          * split; [lia |]. split.
            -- intros t Ht. inversion Ht; subst. lia.
            -- right. exists u. auto.
          * split; [lia |]. split; [| now left].
            intros t Ht. inversion Ht; subst. lia.
      - split; [lia |]. split; [discriminate | now left]. }
    destruct Hacc as (Hle & Hbound & Hwho).
    destruct (IH acc') as (Hle' & Hbound' & Hwho').
    cbv zeta in *. split; [lia |]. split.
    + intros idx t [-> | Hin] Hnth Hn.
      * specialize (Hbound t Hnth Hn). lia.
      * now apply Hbound' with (idx := idx).
    + destruct Hwho' as [Heq | (idx & t & Hin & Hnth & Hn & Heq)].
      * rewrite Heq.
        destruct Hwho as [-> | (t & Hnth & Hn & ->)]; [now left |].
        right. exists a, t. simpl. auto.
      * right. exists idx, t. simpl. auto.
Qed.

(** After a completed pass with some track still active, the loop finds
    the distance to the nearest pending tick, and adding it to the global
    tick does not wrap. *)
Lemma next_delta_min (tracks : list TrackData) (p : Play.t) (active : list nat) :
  0 <= Play.tick p ->
  active <> [] ->
  (forall idx, In idx active ->
     exists t, nth_error tracks idx = Some t /\
               is_null (Track.data t) = false /\
               Play.tick p < uint64 (Track.tick t)) ->
  let d := next_delta tracks (Play.tick p) active in
  (exists idx t, In idx active /\ nth_error tracks idx = Some t /\
                 d = uint64 (Track.tick t) - Play.tick p) /\
  (forall idx t, In idx active -> nth_error tracks idx = Some t ->
                 d <= uint64 (Track.tick t) - Play.tick p) /\
  0 < d /\
  uint64 (Play.tick p + d) = Play.tick p + d.
Proof.
  intros Htick Hne Hactive d.
  assert (Hpend : forall idx t, In idx active -> nth_error tracks idx = Some t ->
                   is_null (Track.data t) = false /\
                   pending_delta (Play.tick p) t = uint64 (Track.tick t) - Play.tick p /\
                   0 < uint64 (Track.tick t) - Play.tick p <= UINT64_MAX).
  { intros idx t Hin Hnth.
    destruct (Hactive idx Hin) as (u & Hu & Hn & Hlt).
    rewrite Hnth in Hu. inversion Hu; subst u.
    pose proof (uint64_range (Track.tick t)).
    split; [assumption |]. unfold pending_delta, UINT64_MAX.
    rewrite uint64_small by lia. lia. }
  assert (Hfold := next_delta_fold tracks (Play.tick p) active UINT64_MAX).
  change (d <= UINT64_MAX /\
          (forall idx t, In idx active -> nth_error tracks idx = Some t ->
                         is_null (Track.data t) = false ->
                         d <= pending_delta (Play.tick p) t) /\
          (d = UINT64_MAX \/
           exists idx t, In idx active /\ nth_error tracks idx = Some t /\
                         is_null (Track.data t) = false /\
                         d = pending_delta (Play.tick p) t)) in Hfold.
  destruct Hfold as (Hle & Hbound & Hwho).
  assert (Hsome : exists a, In a active).
  { destruct active as [| a rest]; [congruence | exists a; now left]. }
  assert (Hmin : forall idx t, In idx active -> nth_error tracks idx = Some t ->
                   d <= uint64 (Track.tick t) - Play.tick p).
  { intros idx t Hin Hnth.
    destruct (Hpend idx t Hin Hnth) as (Hn & Heq & _).
    rewrite <- Heq. now apply Hbound with (idx := idx). }
  assert (Hex : exists idx t, In idx active /\ nth_error tracks idx = Some t /\
                   d = uint64 (Track.tick t) - Play.tick p).
  { destruct Hwho as [Hmax | (idx & t & Hin & Hnth & Hn & Heq)].
    - destruct Hsome as [a Ha].
      destruct (Hactive a Ha) as (t & Hnth & _).
      exists a, t. split; [assumption |]. split; [assumption |].
      destruct (Hpend a t Ha Hnth) as (_ & _ & Hr).
      specialize (Hmin a t Ha Hnth). lia.
    - exists idx, t. split; [assumption |]. split; [assumption |].
      destruct (Hpend idx t Hin Hnth) as (_ & <- & _). assumption. }
  split; [assumption |]. split; [assumption |].
  destruct Hex as (idx & t & Hin & Hnth & Hd).
  destruct (Hpend idx t Hin Hnth) as (_ & _ & Hr).
  pose proof (uint64_range (Track.tick t)).
  split; [lia |]. apply uint64_small. lia.
Qed.

(** The pump keeps the log in order and the global tick in range. *)
Lemma pump_keeps_order (budget fuel : nat) :
  forall tracks p,
    0 <= Play.tick p < 2 ^ 64 ->
    log_ok (Play.tick p) (Play.log p) ->
    let p' := final_play (pump on off time_div budget fuel tracks p) in
    Play.tick p <= Play.tick p' < 2 ^ 64 /\
    log_ok (Play.tick p') (Play.log p').
Proof.
  induction fuel as [| fuel IH]; intros tracks p Hrange Hlog; simpl pump.
  - simpl. split; [lia | assumption].
  - pose proof (scan_tracks_follows budget tracks 0 p) as [Htick Hfl].
    pose proof (scan_tracks_finished budget tracks 0 p) as Hfin.
    destruct (scan_tracks on off time_div budget tracks 0 p)
      as [[[tracks' active] p1] | q | f q]; simpl in Htick, Hfl |- *.
    2,3: split; [lia | auto].
    destruct (Hfin _ _ _ eq_refl) as [Hin _].
    destruct active as [| a rest].
    + simpl. split; [lia | auto].
    + set (active := a :: rest) in *.
      destruct (@next_delta_min tracks' p1 active) as (_ & _ & Hpos & Hnowrap).
      * lia.
      * discriminate.
      * intros idx Hidx. destruct (Hin idx Hidx) as (j & t & -> & Hnth & Hn & Hlt).
        exists t. auto.
      * set (d := next_delta tracks' (Play.tick p1) active) in *.
        set (p2 := Play.mk _ _ _ _ _).
        assert (Hrange2 : 0 <= Play.tick p2 < 2 ^ 64).
        { unfold p2. simpl. apply uint64_range. }
        assert (Hlog2 : log_ok (Play.tick p2) (Play.log p2)).
        { unfold p2. simpl. rewrite Hnowrap.
          apply log_ok_weaken with (k := Play.tick p1); [lia | auto]. }
        destruct (IH tracks' p2 Hrange2 Hlog2) as [Hr Hl].
        split; [| exact Hl].
        assert (Play.tick p2 = Play.tick p1 + d) by (unfold p2; simpl; exact Hnowrap).
        lia.
Qed.
End SchedulerFacts.



(** C3: two tracks of a file the loader accepts, every delta-time a
    well-formed quantity of at most four bytes.  The first track has a
    Note-On at tick 2^32 - 6, the second one at tick 2^32 + 2^28 - 17.
    The track ticks are kept in an [int]: the second track's tick wraps
    to 2^28 - 17, which is behind the global tick, so its note is played
    in the pass of tick 2^32 - 16, before the note of the first track,
    whose own tick is smaller. *)
Theorem later_event_is_played_first :
  let junk := fun _ : nat => 0 in
  forallb (fun e => (0 <=? fst e) && (fst e <? 2 ^ 28))
          (wrap_events_a ++ wrap_events_b) = true /\
  nth 16 (event_ticks 0 wrap_events_a) 0 = 2 ^ 32 - 6 /\
  nth 16 (event_ticks 0 wrap_events_b) 0 = 2 ^ 32 + 2 ^ 28 - 17 /\
  exists tracks done p,
    load_midi_file junk
      (smf_file 1 480 [encode_timed wrap_events_a; encode_timed wrap_events_b])
    = Loaded tracks 480 2 /\
    play_midi true true 480 24 tracks = Finished (done, p) /\
    calls (Play.log p) = [NoteOnCall 0x40 1 0x40; NoteOnCall 0x40 0 0x3C] /\
    notify_ticks (Play.log p) = [2 ^ 64 - 16; 2 ^ 64 - 6] /\
    uint64 (int32 (2 ^ 32 - 16)) = 2 ^ 64 - 16 /\
    int32 (2 ^ 32 + 2 ^ 28 - 17) = 2 ^ 28 - 17.
Proof.
  intros junk.
  split; [vm_compute; reflexivity |].
  split; [vm_compute; reflexivity |].
  split; [vm_compute; reflexivity |].
  do 3 eexists. split; [vm_compute; reflexivity |].
  split; [vm_compute; reflexivity |].
  repeat split; vm_compute; reflexivity.
Qed.

(** ** C5: the Set-Tempo multiplier *)

(** Line 127 on three bytes is the big-endian number they spell. *)
Lemma tempo_of_bytes_value (b0 b1 b2 : Z) :
  is_byte b0 -> is_byte b1 -> is_byte b2 ->
  tempo_of_bytes b0 b1 b2 = b0 * 65536 + b1 * 256 + b2.
Proof.
  unfold is_byte, tempo_of_bytes. intros H0 H1 H2.
  rewrite (Z.shiftl_mul_pow2 b1 8) by lia.
  rewrite (@lor_shiftl_add 16 b0 (b1 * 2 ^ 8)) by lia.
  replace (b0 * 2 ^ 16 + b1 * 2 ^ 8) with ((b0 * 256 + b1) * 2 ^ 8) by lia.
  rewrite <- (Z.shiftl_mul_pow2 (b0 * 256 + b1) 8) by lia.
  rewrite (@lor_shiftl_add 8 (b0 * 256 + b1) b2) by lia.
  lia.
Qed.

Section FloatFacts.
Import SpecFloat FloatOps FloatAxioms.

Lemma iter_pos_invariant (A : Type) (P : A -> Prop) (f : A -> A) :
  (forall x, P x -> P (f x)) -> forall n x, P x -> P (iter_pos f n x).
Proof.
  intros Hf. induction n as [n IH | n IH |]; intros x Hx; simpl; auto.
Qed.

Lemma shr_1_nonneg (mrs : shr_record) :
  0 <= shr_m mrs -> 0 <= shr_m (shr_1 mrs).
Proof.
  destruct mrs as [m r s]. destruct m as [| [q | q |] | [q | q |]];
    simpl; intros H; lia.
Qed.

Lemma shr_fexp_nonneg (m e : Z) (l : location) :
  0 <= m -> 0 <= shr_m (fst (shr_fexp prec emax m e l)).
Proof.
  intros Hm. unfold shr_fexp, shr.
  assert (H0 : 0 <= shr_m (shr_record_of_loc m l))
    by (destruct l as [| []]; exact Hm).
  destruct (fexp prec emax (Zdigits2 m + e) - e) as [| n | n]; try exact H0.
  cbn [fst]. apply iter_pos_invariant; [exact shr_1_nonneg | exact H0].
Qed.

Lemma round_nearest_even_nonneg (m : Z) (l : location) :
  0 <= m -> 0 <= round_nearest_even m l.
Proof.
  intros Hm. destruct l as [| []]; cbn [round_nearest_even]; try lia.
  destruct (Z.even m); lia.
Qed.

(** Rounding a non-negative mantissa never yields NaN. *)
Lemma binary_round_aux_not_nan (sx : bool) (mx ex : Z) (lx : location) :
  0 <= mx -> binary_round_aux prec emax sx mx ex lx <> S754_nan.
Proof.
  intros Hm. unfold binary_round_aux.
  pose proof (shr_fexp_nonneg ex lx Hm) as H1.
  destruct (shr_fexp prec emax mx ex lx) as [mrs' e']. cbn [fst] in H1.
  pose proof (shr_fexp_nonneg e' loc_Exact
                (round_nearest_even_nonneg (loc_of_shr_record mrs') H1)) as H2.
  destruct (shr_fexp prec emax
              (round_nearest_even (shr_m mrs') (loc_of_shr_record mrs')) e' loc_Exact)
    as [mrs'' e'']. cbn [fst] in H2.
  destruct (shr_m mrs'') as [| q | q]; [discriminate | | lia].
  destruct (e'' <=? emax - prec); discriminate.
Qed.

(** The conversion of an unsigned integer is never NaN. *)
Lemma to_double_not_nan (z : Z) : Prim2SF (to_double z) <> S754_nan.
Proof.
  unfold to_double. rewrite of_uint63_spec.
  pose proof (Uint63.to_Z_bounded (Uint63.of_Z z)) as Hb.
  unfold binary_normalize.
  destruct (Uint63.to_Z (Uint63.of_Z z)) as [| q | q]; [discriminate | | lia].
  unfold binary_round.
  destruct (shl_align q 0 (fexp prec emax (Z.pos (digits2_pos q) + 0))) as [mz ez].
  apply binary_round_aux_not_nan. lia.
Qed.

(** A quotient by a finite non-zero divisor is NaN only if the dividend
    is. *)
Lemma quotient_not_nan (x y : float) (sy : bool) (my : positive) (ey : Z) :
  Prim2SF x <> S754_nan ->
  Prim2SF y = S754_finite sy my ey ->
  Prim2SF (x / y) <> S754_nan.
Proof.
  intros Hx Hy. rewrite div_spec. unfold SF64div, SFdiv. rewrite Hy.
  destruct (Prim2SF x) as [sx | sx | | sx mx ex]; try discriminate;
    [congruence |].
  destruct (SFdiv_core_binary prec emax (Z.pos mx) ex (Z.pos my) ey)
    as [[mz ez] lz] eqn:Hcore.
  apply binary_round_aux_not_nan.
  unfold SFdiv_core_binary in Hcore.
  set (s := ex - ey - _) in Hcore.
  set (m' := match s with
             | 0 => Z.pos mx
             | Z.pos _ => Z.shiftl (Z.pos mx) s
             | Z.neg _ => 0
             end) in Hcore.
  assert (Hm' : 0 <= m').
  { unfold m'. destruct s; try lia. apply Z.shiftl_nonneg. lia. }
  assert (Hq : mz = m' / Z.pos my).
  { unfold Z.div. destruct (Z.div_eucl m' (Z.pos my)) as [q r].
    now inversion Hcore. }
  rewrite Hq. apply Z.div_pos; lia.
Qed.

(** What the test [multiplier < 1.0] leaves through is at least 1, unless
    it is NaN. *)
Lemma not_below_one (m : float) :
  (m <? 1)%float = false -> Prim2SF m <> S754_nan -> (1 <=? m)%float = true.
Proof.
  rewrite ltb_spec, leb_spec.
  change (Prim2SF 1) with (S754_finite false 4503599627370496 (-52)).
  unfold SFltb, SFleb, SFcompare.
  destruct (Prim2SF m) as [s | s | | s q e]; intros Hlt Hnan;
    try congruence; try (destruct s; congruence).
  destruct s; [discriminate |].
  rewrite (Z.compare_antisym e (-52)).
  destruct (e ?= -52); cbn [CompOpp]; try congruence.
  pose proof (Pos.compare_cont_antisym q 4503599627370496 Eq) as Hanti.
  change (CompOpp Eq) with Eq in Hanti. rewrite <- Hanti.
  destruct (Pos.compare_cont Eq q 4503599627370496); cbn [CompOpp]; congruence.
Qed.

(** Every non-zero 16-bit division converts to a finite non-zero double,
    and zero divided by it is floored to exactly 1; by evaluation on all
    of them. *)
Lemma all_divisions_checked : all_block division_check 16 0 = true.
Proof. vm_compute. reflexivity. Qed.

Lemma division_checked (d : Z) :
  0 < d < 2 ^ 16 ->
  (exists s q e, Prim2SF (to_double d) = S754_finite s q e) /\
  tempo_multiplier 0 d = 1%float.
Proof.
  intros Hd.
  assert (H : division_check d = true).
  { apply (@all_block_spec division_check 16 0 all_divisions_checked).
    change (Z.of_nat 16) with 16. lia. }
  unfold division_check in H.
  destruct (Z.eqb_spec d 0) as [Hzero | _]; [clear H; lia |].
  cbn [orb] in H. apply andb_true_iff in H. destruct H as [Hfin Hone].
  split.
  - destruct (Prim2SF (to_double d)) as [s | s | | s q e]; try discriminate.
    now exists s, q, e.
  - now apply Leibniz.eqb_spec.
Qed.

(** For a non-zero division the multiplier is at least 1. *)
Lemma tempo_multiplier_at_least_one (bpm time_div : Z) :
  0 < time_div < 2 ^ 16 ->
  (1 <=? tempo_multiplier bpm time_div)%float = true.
Proof.
  intros Hd. unfold tempo_multiplier.
  destruct (division_checked Hd) as [(s & q & e & Hfin) _].
  set (quotient := (to_double (uint64 (bpm * 10)) / to_double time_div)%float).
  destruct (quotient <? 1)%float eqn:Hlt; [reflexivity |].
  apply not_below_one; [exact Hlt |].
  apply quotient_not_nan with (sy := s) (my := q) (ey := e);
    [apply to_double_not_nan | exact Hfin].
Qed.
End FloatFacts.

(** C5: a file with a division of 0, which the loader accepts, and a
    Set-Tempo of 0.  The quotient is [0.0 / 0.0], a NaN; the clamp
    [multiplier < 1.0] is false on a NaN, so the multiplier stays NaN
    instead of becoming 1, and the delay for the 96 ticks up to the note
    is computed with it. *)
Theorem tempo_zero_division_zero_is_nan :
  let junk := fun _ : nat => 0 in
  let multiplier := tempo_multiplier (tempo_of_bytes 0 0 0) 0 in
  (multiplier <> 1%float /\
   (1 <=? multiplier)%float = false /\
   PrimFloat.is_nan multiplier = true)
  /\
  exists tracks done p,
    load_midi_file junk (smf_file 1 0 [tempo_zero_track]) = Loaded tracks 0 1 /\
    play_midi true true 0 8 tracks = Finished (done, p) /\
    Play.bpm p = 0 /\
    PrimFloat.is_nan (Play.multiplier p) = true /\
    (1 <=? Play.multiplier p)%float = false /\
    map PrimFloat.is_nan (delay_multipliers (Play.log p)) = [true] /\
    calls (Play.log p) = [NoteOnCall 0x40 0 0x3C].
Proof.
  intros junk multiplier. split.
  - split; [| split; vm_compute; reflexivity].
    intros H. apply (f_equal PrimFloat.is_nan) in H.
    vm_compute in H. discriminate.
  - do 3 eexists. split; [vm_compute; reflexivity |].
    split; [vm_compute; reflexivity |].
    repeat split; vm_compute; reflexivity.
Qed.

(** X17: the Set-Tempo arithmetic.  On a Set-Tempo meta event whose
    three payload bytes [b0 b1 b2] stand at the front of [long_msg],
    with a non-zero ticks-per-quarter division, the tempo becomes the
    big-endian number [b0 b1 b2] and the multiplier becomes the binary64
    quotient [(tempo * 10) / division], replaced by 1 when it is below 1; the
    multiplier is at least 1, and it is exactly 1 for a tempo of 0.  The
    payload [07 A1 20] is 500000, and at division 480 the multiplier is the
    double [5000000 / 480]. *)
Theorem set_tempo_multiplier
        (track : TrackData) (p : Play.t) (b0 b1 b2 time_div : Z) (rest : list Z) :
  is_byte b0 -> is_byte b1 -> is_byte b2 ->
  0 < time_div < 2 ^ 16 ->
  uint8 (Z.land (Z.shiftr (Track.message track) 8) 0xFF) = 0x51 ->
  Track.long_msg track = b0 :: b1 :: b2 :: rest ->
  let tempo := b0 * 65536 + b1 * 256 + b2 in
  let quotient := (to_double (tempo * 10) / to_double time_div)%float in
  (exists p',
      process_meta_event track p time_div = Ok (track, p') /\
      Play.bpm p' = tempo /\
      Play.multiplier p' = (if (quotient <? 1)%float then 1%float else quotient) /\
      (1 <=? Play.multiplier p')%float = true /\
      (tempo = 0 -> Play.multiplier p' = 1%float) /\
      Play.tick p' = Play.tick p /\ Play.log p' = Play.log p)
  /\ tempo_of_bytes 0x07 0xA1 0x20 = 500000
  /\ tempo_multiplier 500000 480 = (5000000 / 480)%float.
Proof.
  intros H0 H1 H2 Hd Hmeta Hlong tempo quotient.
  split; [| split; [reflexivity | vm_compute; reflexivity]].
  unfold process_meta_event. rewrite Hmeta.
  change (0x51 =? 0x51) with true. cbv iota.
  unfold read_long_msg. rewrite Hlong. cbn [nth_error bind].
  rewrite (tempo_of_bytes_value H0 H1 H2). fold tempo.
  eexists. split; [reflexivity |]. cbn [Play.bpm Play.multiplier Play.tick Play.log].
  assert (Hm : tempo_multiplier tempo time_div
               = (if (quotient <? 1)%float then 1%float else quotient)).
  { unfold tempo_multiplier, quotient.
    rewrite uint64_small; [reflexivity |].
    unfold tempo, is_byte in *. lia. }
  split; [reflexivity |]. split; [exact Hm |].
  split; [now apply tempo_multiplier_at_least_one |].
  split; [| split; reflexivity].
  intros Hzero. rewrite Hzero. exact (proj2 (division_checked Hd)).
Qed.

(** The payload [07 A1 20] at division 480. *)
Lemma set_tempo_multiplier_witness :
  let track := Track.with_long_msg [0x07; 0xA1; 0x20]
                 (Track.with_message 0x51FF (cursor_at [] 0)) in
  exists p',
    process_meta_event track initial_play 480 = Ok (track, p') /\
    Play.bpm p' = 500000 /\
    Play.multiplier p' = (5000000 / 480)%float /\
    (1 <=? Play.multiplier p')%float = true.
Proof.
  intros track.
  destruct (@set_tempo_multiplier track initial_play 0x07 0xA1 0x20 480 [])
    as [(p' & Hrun & Hbpm & Hmul & Hone & _) _].
  - split; [discriminate | reflexivity].
  - split; [discriminate | reflexivity].
  - split; [discriminate | reflexivity].
  - split; reflexivity.
  - reflexivity.
  - reflexivity.
  - exists p'. split; [exact Hrun |]. split; [exact Hbpm |].
    split; [exact Hmul | exact Hone].
Defined.

(** * Further properties of the code *)

(** ** Byte order helpers *)

Lemma land_shifted_mask (n m k : Z) :
  0 <= k -> Z.land n (Z.shiftl m k) = Z.shiftl (Z.land (Z.shiftr n k) m) k.
Proof.
  intros Hk. apply Z.bits_inj'. intros i Hi.
  rewrite Z.land_spec.
  destruct (Z.lt_ge_cases i k) as [Hlt | Hge].
  - rewrite !Z.shiftl_spec_low by assumption. apply andb_false_r.
  - rewrite !Z.shiftl_spec by assumption.
    rewrite Z.land_spec, Z.shiftr_spec by lia.
    do 2 f_equal. lia.
Qed.

(** The byte of [n] at position [i], counted from the low end. *)
Lemma byte_field (n i : Z) :
  0 <= i ->
  Z.land (Z.shiftr n (8 * i)) 0xFF = (n / 2 ^ (8 * i)) mod 256.
Proof.
  intros Hi. rewrite Z.shiftr_div_pow2 by lia.
  change 0xFF with (Z.ones 8). rewrite Z.land_ones by lia. reflexivity.
Qed.

Lemma fntohl_fields (n : Z) :
  fntohl n =
  (n mod 256) * 2 ^ 24 + ((n / 2 ^ 8) mod 256) * 2 ^ 16
  + ((n / 2 ^ 16) mod 256) * 2 ^ 8 + (n / 2 ^ 24) mod 256.
Proof.
  unfold fntohl.
  change 0xFF000000 with (Z.shiftl 0xFF 24).
  change 0x00FF0000 with (Z.shiftl 0xFF 16).
  change 0x0000FF00 with (Z.shiftl 0xFF 8).
  rewrite !land_shifted_mask by lia.
  rewrite (Z.shiftr_shiftl_l _ 24 24) by lia.
  rewrite (Z.shiftr_shiftl_l _ 16 8) by lia.
  rewrite (Z.shiftl_shiftl _ 8 8) by lia.
  change (24 - 24) with 0. change (16 - 8) with 8. change (8 + 8) with 16.
  rewrite Z.shiftl_0_r.
  pose proof (@byte_field n 0 ltac:(lia)) as F0.
  pose proof (@byte_field n 1 ltac:(lia)) as F1.
  pose proof (@byte_field n 2 ltac:(lia)) as F2.
  pose proof (@byte_field n 3 ltac:(lia)) as F3.
  change (8 * 0) with 0 in F0. change (8 * 1) with 8 in F1.
  change (8 * 2) with 16 in F2. change (8 * 3) with 24 in F3.
  rewrite Z.shiftr_0_r in F0. change (2 ^ 0) with 1 in F0.
  rewrite Z.div_1_r in F0.
  rewrite F0, F1, F2, F3.
  set (b0 := n mod 256). set (b1 := (n / 2 ^ 8) mod 256).
  set (b2 := (n / 2 ^ 16) mod 256). set (b3 := (n / 2 ^ 24) mod 256).
  assert (H0 : 0 <= b0 < 256) by (apply Z.mod_pos_bound; lia).
  assert (H1 : 0 <= b1 < 256) by (apply Z.mod_pos_bound; lia).
  assert (H2 : 0 <= b2 < 256) by (apply Z.mod_pos_bound; lia).
  assert (H3 : 0 <= b3 < 256) by (apply Z.mod_pos_bound; lia).
  rewrite (Z.lor_comm b3), (@lor_shiftl_add 8 b2 b3) by lia.
  rewrite (Z.lor_comm (b2 * 2 ^ 8 + b3)),
    (@lor_shiftl_add 16 b1 (b2 * 2 ^ 8 + b3)) by lia.
  rewrite (Z.lor_comm (b1 * 2 ^ 16 + (b2 * 2 ^ 8 + b3))),
    (@lor_shiftl_add 24 b0 (b1 * 2 ^ 16 + (b2 * 2 ^ 8 + b3))) by lia.
  unfold uint32. rewrite Z.mod_small by lia. lia.
Qed.

Lemma fntohs_fields (n : Z) :
  fntohs n = (n mod 256) * 2 ^ 8 + (n / 2 ^ 8) mod 256.
Proof.
  unfold fntohs.
  change 0xFF00 with (Z.shiftl 0xFF 8).
  rewrite land_shifted_mask by lia.
  rewrite (Z.shiftr_shiftl_l _ 8 8) by lia.
  change (8 - 8) with 0. rewrite Z.shiftl_0_r.
  pose proof (@byte_field n 0 ltac:(lia)) as F0.
  pose proof (@byte_field n 1 ltac:(lia)) as F1.
  change (8 * 0) with 0 in F0. change (8 * 1) with 8 in F1.
  rewrite Z.shiftr_0_r in F0. change (2 ^ 0) with 1 in F0.
  rewrite Z.div_1_r in F0.
  rewrite F0, F1.
  set (b0 := n mod 256). set (b1 := (n / 2 ^ 8) mod 256).
  assert (H0 : 0 <= b0 < 256) by (apply Z.mod_pos_bound; lia).
  assert (H1 : 0 <= b1 < 256) by (apply Z.mod_pos_bound; lia).
  rewrite Z.lor_comm, (@lor_shiftl_add 8 b0 b1) by lia.
  rewrite Z.mod_small by lia. reflexivity.
Qed.

Lemma fntohl_bytes (b0 b1 b2 b3 : Z) :
  is_byte b0 -> is_byte b1 -> is_byte b2 -> is_byte b3 ->
  fntohl (b0 + 256 * (b1 + 256 * (b2 + 256 * b3)))
  = b3 + 256 * (b2 + 256 * (b1 + 256 * b0)).
Proof.
  unfold is_byte. intros H0 H1 H2 H3. rewrite fntohl_fields.
  set (n := b0 + 256 * (b1 + 256 * (b2 + 256 * b3))).
  change (2 ^ 8) with 256. change (2 ^ 16) with 65536.
  change (2 ^ 24) with 16777216.
  assert (E0 : n mod 256 = b0)
    by (unfold n; Z.div_mod_to_equations; lia).
  assert (D1 : n / 256 = b1 + 256 * (b2 + 256 * b3))
    by (unfold n; Z.div_mod_to_equations; lia).
  assert (D2 : n / 65536 = b2 + 256 * b3)
    by (unfold n; Z.div_mod_to_equations; lia).
  assert (D3 : n / 16777216 = b3)
    by (unfold n; Z.div_mod_to_equations; lia).
  rewrite E0, D1, D2, D3.
  assert (E1 : (b1 + 256 * (b2 + 256 * b3)) mod 256 = b1)
    by (Z.div_mod_to_equations; lia).
  assert (E2 : (b2 + 256 * b3) mod 256 = b2)
    by (Z.div_mod_to_equations; lia).
  rewrite E1, E2, (Z.mod_small b3) by lia. lia.
Qed.

Lemma fntohs_bytes (b0 b1 : Z) :
  is_byte b0 -> is_byte b1 -> fntohs (b0 + 256 * b1) = b1 + 256 * b0.
Proof.
  unfold is_byte. intros H0 H1. rewrite fntohs_fields.
  change (2 ^ 8) with 256.
  assert (E0 : (b0 + 256 * b1) mod 256 = b0)
    by (Z.div_mod_to_equations; lia).
  assert (D1 : (b0 + 256 * b1) / 256 = b1)
    by (Z.div_mod_to_equations; lia).
  rewrite E0, D1, (Z.mod_small b1) by lia. lia.
Qed.

(** Every 32-bit (16-bit) integer is the host word of four (two) bytes. *)
Lemma word_bytes (n : Z) :
  0 <= n < 2 ^ 32 ->
  exists b0 b1 b2 b3,
    is_byte b0 /\ is_byte b1 /\ is_byte b2 /\ is_byte b3 /\
    n = b0 + 256 * (b1 + 256 * (b2 + 256 * b3)).
Proof.
  intros Hn. change (2 ^ 32) with 4294967296 in Hn.
  exists (n mod 256), ((n / 256) mod 256), ((n / 256 / 256) mod 256),
    (n / 256 / 256 / 256).
  unfold is_byte.
  pose proof (Z.div_mod n 256 ltac:(lia)).
  pose proof (Z.div_mod (n / 256) 256 ltac:(lia)).
  pose proof (Z.div_mod (n / 256 / 256) 256 ltac:(lia)).
  pose proof (Z.mod_pos_bound n 256 ltac:(lia)).
  pose proof (Z.mod_pos_bound (n / 256) 256 ltac:(lia)).
  pose proof (Z.mod_pos_bound (n / 256 / 256) 256 ltac:(lia)).
  repeat split; lia.
Qed.

Lemma short_bytes (n : Z) :
  0 <= n < 2 ^ 16 ->
  exists b0 b1, is_byte b0 /\ is_byte b1 /\ n = b0 + 256 * b1.
Proof.
  intros Hn. change (2 ^ 16) with 65536 in Hn.
  exists (n mod 256), (n / 256). unfold is_byte.
  pose proof (Z.div_mod n 256 ltac:(lia)).
  pose proof (Z.mod_pos_bound n 256 ltac:(lia)).
  repeat split; lia.
Qed.

Lemma fntoh_bytes_big_endian (b0 b1 b2 b3 : Z) :
  is_byte b0 -> is_byte b1 -> is_byte b2 -> is_byte b3 ->
  fntohl (host_word [b0; b1; b2; b3]) = big_endian [b0; b1; b2; b3] /\
  fntohs (host_word [b0; b1]) = big_endian [b0; b1].
Proof.
  intros H0 H1 H2 H3.
  unfold host_word, big_endian. simpl fold_left.
  rewrite !Z.mul_0_r, !Z.add_0_r.
  rewrite (fntohl_bytes H0 H1 H2 H3), (fntohs_bytes H0 H1).
  split; lia.
Qed.

(** X1: [fntohl] turns the word a little-endian host read from four file
    bytes into the number those bytes spell in big-endian order, and
    [fntohs] does the same for two bytes. *)
Theorem fntoh_reads_big_endian (b0 b1 b2 b3 : Z) :
  is_byte b0 -> is_byte b1 -> is_byte b2 -> is_byte b3 ->
  fntohl (host_word [b0; b1; b2; b3]) = big_endian [b0; b1; b2; b3] /\
  fntohs (host_word [b0; b1]) = big_endian [b0; b1].
Proof.
  intros H0 H1 H2 H3. now apply fntoh_bytes_big_endian.
Qed.

Lemma fntoh_reads_big_endian_witness :
  fntohl (host_word [0x01; 0xE0; 0x00; 0x06]) = big_endian [0x01; 0xE0; 0x00; 0x06] /\
  fntohs (host_word [0x01; 0xE0]) = big_endian [0x01; 0xE0].
Proof.
  apply fntoh_reads_big_endian; unfold is_byte; lia.
Defined.

(** X2: on their own ranges both swaps are involutions, and they map the
    range into itself. *)
Theorem fntoh_involutive (n : Z) :
  (0 <= n < 2 ^ 32 -> fntohl (fntohl n) = n /\ 0 <= fntohl n < 2 ^ 32) /\
  (0 <= n < 2 ^ 16 -> fntohs (fntohs n) = n /\ 0 <= fntohs n < 2 ^ 16).
Proof.
  split; intros Hn.
  - destruct (word_bytes Hn) as (b0 & b1 & b2 & b3 & H0 & H1 & H2 & H3 & ->).
    rewrite (fntohl_bytes H0 H1 H2 H3), (fntohl_bytes H3 H2 H1 H0).
    unfold is_byte in *. split; [reflexivity | lia].
  - destruct (short_bytes Hn) as (b0 & b1 & H0 & H1 & ->).
    rewrite (fntohs_bytes H0 H1), (fntohs_bytes H1 H0).
    unfold is_byte in *. split; [reflexivity | lia].
Qed.

Lemma fntoh_involutive_witness :
  (fntohl (fntohl 0x12345678) = 0x12345678 /\ 0 <= fntohl 0x12345678 < 2 ^ 32) /\
  (fntohs (fntohs 0x01E0) = 0x01E0 /\ 0 <= fntohs 0x01E0 < 2 ^ 16).
Proof.
  split.
  - apply (proj1 (fntoh_involutive 0x12345678)). lia.
  - apply (proj2 (fntoh_involutive 0x01E0)). lia.
Defined.

(** ** Time helpers *)

(** X3: for a non-negative delay the [timespec] built by
    [delayExecution100Ns] is normalised ([0 <= tv_nsec < 10^9]), lasts
    exactly [100 * delay] nanoseconds, and converts back to the delay under
    the clock's conversion. *)
Theorem delay_timespec_exact (d : Z) :
  0 <= d < 2 ^ 63 ->
  let ts := delayExecution100Ns d in
  0 <= fst ts /\ 0 <= snd ts < 1000000000 /\
  fst ts * 1000000000 + snd ts = d * 100 /\
  to_100ns ts = d.
Proof.
  intros Hd ts. unfold ts, delayExecution100Ns, to_100ns. cbn [fst snd].
  rewrite Z.quot_div_nonneg, Z.rem_mod_nonneg by lia.
  change (2 ^ 63) with 9223372036854775808 in Hd.
  pose proof (Z.div_mod d 10000000 ltac:(lia)) as Hdm.
  pose proof (Z.mod_pos_bound d 10000000 ltac:(lia)) as Hr.
  set (q := d / 10000000) in *. set (r := d mod 10000000) in *.
  assert (Hq : 0 <= q < 9223372036854775808) by lia.
  rewrite (@uint64_small q), (@uint64_small (r * 100))
    by (change (2 ^ 64) with 18446744073709551616; lia).
  rewrite Z.quot_div_nonneg, Z.div_mul by lia.
  rewrite uint64_small
    by (change (2 ^ 64) with 18446744073709551616; lia).
  repeat split; lia.
Qed.

Lemma delay_timespec_exact_witness :
  let ts := delayExecution100Ns 25000123 in
  0 <= fst ts /\ 0 <= snd ts < 1000000000 /\
  fst ts * 1000000000 + snd ts = 25000123 * 100 /\
  to_100ns ts = 25000123.
Proof.
  apply delay_timespec_exact. lia.
Defined.

(** ** The loader *)

Lemma fread_chars_app (buf a rest : list Z) :
  List.length buf = List.length a ->
  fread_chars buf (List.length a) (a ++ rest) = (a, rest).
Proof.
  intros Hlen. unfold fread_chars.
  rewrite firstn_app, Nat.sub_diag, firstn_all, firstn_O, app_nil_r.
  rewrite skipn_app, Nat.sub_diag, skipn_all, skipn_O. simpl app.
  rewrite <- Hlen, skipn_all, app_nil_r. reflexivity.
Qed.

Lemma unset_length (junk : nat -> Z) (used n : nat) :
  List.length (unset junk used n) = n.
Proof. unfold unset. now rewrite length_map, length_seq. Qed.

Lemma fread_word_app (junk : nat -> Z) (a rest : list Z) (used : nat) :
  fread_word junk (List.length a) (a ++ rest) used = (host_word a, rest, used).
Proof.
  unfold fread_word.
  replace (List.length a <=? List.length (a ++ rest))%nat with true
    by (symmetry; apply Nat.leb_le; rewrite length_app; lia).
  rewrite firstn_app, Nat.sub_diag, firstn_all, firstn_O, app_nil_r.
  rewrite skipn_app, Nat.sub_diag, skipn_all, skipn_O. reflexivity.
Qed.

Lemma fread_block_app (junk : nat -> Z) (a rest : list Z) (used : nat) :
  fread_block junk (List.length a) (a ++ rest) used = (a, rest, used).
Proof.
  unfold fread_block.
  rewrite firstn_app, Nat.sub_diag, firstn_all, firstn_O, app_nil_r.
  rewrite skipn_app, Nat.sub_diag, skipn_all, skipn_O.
  rewrite Nat.add_0_r. unfold unset. simpl.
  now rewrite app_nil_r.
Qed.

Lemma fread_block_length (junk : nat -> Z) (n : nat) (file : list Z) (used : nat) :
  List.length (fst (fst (fread_block junk n file used))) = n.
Proof.
  unfold fread_block. cbn [fst].
  rewrite length_app, unset_length, length_firstn. lia.
Qed.

Lemma strncmp_eq_same (tag rest : list Z) :
  strncmp_eq (tag ++ rest) tag = true.
Proof.
  induction tag as [| c tag IH]; simpl; [destruct rest; reflexivity |].
  rewrite Z.eqb_refl. exact IH.
Qed.

Lemma strncmp_eq_refl (tag : list Z) : strncmp_eq tag tag = true.
Proof.
  pose proof (strncmp_eq_same tag []) as E. now rewrite app_nil_r in E.
Qed.

Lemma strncmp_eq_differs (a tag : list Z) :
  List.length a = List.length tag -> a <> tag ->
  strncmp_eq a tag = false.
Proof.
  revert tag. induction a as [| b a IH]; intros [| c tag] Hlen Hne;
    simpl in *; try discriminate; [congruence |].
  destruct (Z.eqb_spec b c) as [-> | Hbc]; [| reflexivity].
  apply IH; [lia |]. intros ->. now apply Hne.
Qed.

Lemma be32_read (n : Z) :
  0 <= n < 2 ^ 32 -> fntohl (host_word (be32 n)) = n.
Proof.
  intros Hn. unfold be32, host_word.
  rewrite Z.mul_0_r, Z.add_0_r.
  rewrite fntohl_bytes by (unfold is_byte; apply Z.mod_pos_bound; lia).
  change (2 ^ 8) with 256. change (2 ^ 16) with 65536.
  change (2 ^ 24) with 16777216. change (2 ^ 32) with 4294967296 in Hn.
  Z.div_mod_to_equations. lia.
Qed.

Lemma be16_read (n : Z) :
  0 <= n < 2 ^ 16 -> fntohs (host_word (be16 n)) = n.
Proof.
  intros Hn. unfold be16, host_word.
  rewrite Z.mul_0_r, Z.add_0_r.
  rewrite fntohs_bytes by (unfold is_byte; apply Z.mod_pos_bound; lia).
  change (2 ^ 8) with 256. change (2 ^ 16) with 65536 in Hn.
  Z.div_mod_to_equations. lia.
Qed.

(** The cursor built for a chunk: decoding the first delta-time cannot
    fault and leaves the cursor inside the block. *)
Lemma load_track_ok (bytes : list Z) :
  Zlen bytes < 2 ^ 32 ->
  exists t, load_track bytes = Ok t /\ track_of bytes = t /\
            Track.data t = Some bytes /\ cursor_ok t.
Proof.
  intros Hlen. unfold track_of, load_track, update_tick.
  set (t0 := Track.mk (Some bytes) (repeat 0 256) 0 0 (Zlen bytes) 0 0 0 256
                      (Zlen bytes)).
  pose proof (Zlen_nonneg bytes) as Hnn.
  destruct (@decode_variable_length_cases t0 bytes eq_refl eq_refl)
    as [[Hend Hrun] | (pre & init & lastb & post & Hbuf & Hpre & _ & _ & Hrun)];
    [simpl; lia | lia | |]; rewrite Hrun; simpl bind.
  - eexists. split; [reflexivity |]. split; [reflexivity |].
    split; [reflexivity |].
    exists bytes. simpl. repeat split; try lia; reflexivity.
  - eexists. split; [reflexivity |]. split; [reflexivity |].
    split; [reflexivity |].
    exists bytes. simpl in *.
    assert (Hsize : Zlen bytes = Zlen pre + Zlen init + 1 + Zlen post).
    { rewrite Hbuf, !Zlen_app, Zlen_cons. lia. }
    pose proof (Zlen_nonneg init). pose proof (Zlen_nonneg post).
    repeat split; try lia; reflexivity.
Qed.

Lemma vlq_bytes_length (groups : list Z) :
  Zlen (vlq_bytes groups) = Zlen groups.
Proof.
  unfold Zlen. f_equal.
  induction groups as [| g [| g' rest] IH]; [reflexivity | reflexivity |].
  change (vlq_bytes (g :: g' :: rest)) with (Z.lor g 0x80 :: vlq_bytes (g' :: rest)).
  simpl List.length in *. now rewrite IH.
Qed.

(** The cursor built for a chunk that starts with the delta-time [d]:
    the tick is [d] and the cursor stands behind its encoding. *)
Lemma load_track_delta (d : Z) (rest : list Z) :
  0 <= d < 2 ^ 28 ->
  Zlen (vlq_encode d ++ rest) < 2 ^ 32 ->
  load_track (vlq_encode d ++ rest)
  = Ok (Track.mk (Some (vlq_encode d ++ rest)) (repeat 0 256)
                 d (Zlen (vlq_encode d)) (Zlen (vlq_encode d ++ rest))
                 0 0 0 256 (Zlen (vlq_encode d ++ rest))).
Proof.
  intros Hd Hlen. unfold load_track, update_tick.
  destruct (vlq_groups_valid Hd) as (Hne & Hfew & Hgroups & Hvalue).
  set (t0 := Track.mk _ _ _ _ _ _ _ _ _ _).
  rewrite (@decode_groups t0 [] rest (vlq_groups d) Hne Hfew Hgroups
             eq_refl eq_refl eq_refl)
    by (subst t0; cbn [Track.length]; simpl app; lia).
  cbn [bind]. rewrite Hvalue.
  unfold Track.with_tick, Track.with_offset. cbn.
  rewrite int32_small by lia.
  unfold vlq_encode. now rewrite vlq_bytes_length.
Qed.

Ltac read_tag junk a rest :=
  let E := fresh "E" in
  pose proof (@fread_chars_app (unset junk 0 4) a rest eq_refl) as E;
  change (List.length a) with 4%nat in E; rewrite E; clear E.

Ltac read_word junk a rest used :=
  let E := fresh "E" in
  pose proof (fread_word_app junk a rest used) as E;
  first [ change (List.length a) with 4%nat in E
        | change (List.length a) with 2%nat in E ];
  rewrite E; clear E.

(** X4: the three load errors.  A file whose first four bytes are not
    "MThd" is refused; so is one whose header length field is not 6, and
    one whose division has the high bit set (SMPTE).  Nothing after the
    refused field is looked at. *)
Theorem load_midi_file_rejects (junk : nat -> Z) (rest : list Z) :
  (forall m0 m1 m2 m3,
      [m0; m1; m2; m3] <> MThd ->
      load_midi_file junk ([m0; m1; m2; m3] ++ rest) = LoadFailed)
  /\
  (forall b0 b1 b2 b3,
      is_byte b0 -> is_byte b1 -> is_byte b2 -> is_byte b3 ->
      big_endian [b0; b1; b2; b3] <> 6 ->
      load_midi_file junk (MThd ++ [b0; b1; b2; b3] ++ rest) = LoadFailed)
  /\
  (forall f0 f1 n0 n1 d0 d1,
      is_byte d0 -> is_byte d1 -> 0x80 <= d0 ->
      load_midi_file junk (MThd ++ be32 6 ++ [f0; f1; n0; n1; d0; d1] ++ rest)
      = LoadFailed).
Proof.
  split; [| split].
  - intros m0 m1 m2 m3 Hne. unfold load_midi_file.
    read_tag junk [m0; m1; m2; m3] rest.
    rewrite (@strncmp_eq_differs [m0; m1; m2; m3] MThd eq_refl Hne).
    reflexivity.
  - intros b0 b1 b2 b3 H0 H1 H2 H3 Hne. unfold load_midi_file.
    read_tag junk MThd ([b0; b1; b2; b3] ++ rest).
    rewrite (strncmp_eq_refl MThd). cbn [negb].
    read_word junk [b0; b1; b2; b3] rest 4%nat.
    rewrite (proj1 (fntoh_bytes_big_endian H0 H1 H2 H3)).
    apply Z.eqb_neq in Hne. rewrite Hne. reflexivity.
  - intros f0 f1 n0 n1 d0 d1 H0 H1 Hd. unfold load_midi_file.
    read_tag junk MThd (be32 6 ++ [f0; f1; n0; n1; d0; d1] ++ rest).
    rewrite (strncmp_eq_refl MThd). cbn [negb].
    read_word junk (be32 6) ([f0; f1; n0; n1; d0; d1] ++ rest) 4%nat.
    rewrite be32_read by lia. change (negb (6 =? 6)) with false. cbv iota.
    change ([f0; f1; n0; n1; d0; d1] ++ rest)
      with ([f0; f1] ++ [n0; n1] ++ [d0; d1] ++ rest).
    read_word junk [f0; f1] ([n0; n1] ++ [d0; d1] ++ rest) 4%nat.
    read_word junk [n0; n1] ([d0; d1] ++ rest) 4%nat.
    read_word junk [d0; d1] rest 4%nat.
    assert (Hdiv : fntohs (host_word [d0; d1]) = d1 + 256 * d0).
    { unfold host_word. rewrite Z.mul_0_r, Z.add_0_r. now apply fntohs_bytes. }
    rewrite Hdiv.
    replace (32768 <=? d1 + 256 * d0) with true; [reflexivity |].
    symmetry. apply Z.leb_le. unfold is_byte in *. lia.
Qed.

Lemma load_midi_file_rejects_witness :
  let junk := fun _ : nat => 0 in
  load_midi_file junk ([0x52; 0x49; 0x46; 0x46] ++ [0x00; 0x01]) = LoadFailed /\
  load_midi_file junk (MThd ++ [0x00; 0x00; 0x00; 0x07] ++ [0x00; 0x01]) = LoadFailed /\
  load_midi_file junk
    (MThd ++ be32 6 ++ [0x00; 0x01; 0x00; 0x01; 0xE7; 0x28] ++ [0x00; 0x01])
  = LoadFailed.
Proof.
  intros junk.
  destruct (load_midi_file_rejects junk [0x00; 0x01]) as (Hmagic & Hlen & Hdiv).
  split; [| split].
  - apply Hmagic. discriminate.
  - apply Hlen; unfold is_byte; try lia. discriminate.
  - apply Hdiv; unfold is_byte; lia.
Defined.

Lemma fntohl_range (w : Z) : 0 <= fntohl w < 2 ^ 32.
Proof. unfold fntohl, uint32. apply Z.mod_pos_bound. lia. Qed.

Lemma fntohs_range (w : Z) : 0 <= fntohs w < 2 ^ 16.
Proof. unfold fntohs. apply Z.mod_pos_bound. lia. Qed.

Lemma load_chunks_roundtrip (junk : nat -> Z) (payloads : list (list Z)) :
  forall header valid trailing used,
    List.length header = 4%nat ->
    Forall (fun p => Zlen p < 2 ^ 32) payloads ->
    load_chunks junk (List.length payloads) header
                (concat (map smf_chunk payloads) ++ trailing) used valid
    = Ok (valid ++ map track_of payloads).
Proof.
  induction payloads as [| p ps IH]; intros header valid trailing used Hh Hall.
  - simpl. now rewrite app_nil_r.
  - inversion Hall as [| ? ? Hp Hps]; subst.
    change (List.length (p :: ps)) with (S (List.length ps)).
    change (concat (map smf_chunk (p :: ps)))
      with (smf_chunk p ++ concat (map smf_chunk ps)).
    change (map track_of (p :: ps)) with (track_of p :: map track_of ps).
    cbn [load_chunks].
    unfold smf_chunk at 1. rewrite <- !app_assoc.
    pose proof (@fread_chars_app header MTrk
                  (be32 (Zlen p) ++ p ++ concat (map smf_chunk ps) ++ trailing) Hh) as E.
    change (List.length MTrk) with 4%nat in E. rewrite E. clear E.
    rewrite strncmp_eq_refl.
    read_word junk (be32 (Zlen p)) (p ++ concat (map smf_chunk ps) ++ trailing) used.
    pose proof (Zlen_nonneg p) as Hnn.
    rewrite be32_read by lia.
    unfold Zlen at 1. rewrite Nat2Z.id.
    rewrite fread_block_app.
    destruct (@load_track_ok _ Hp) as (t & Hload & Htrack & _).
    rewrite Hload, Htrack.
    rewrite (IH MTrk (valid ++ [t]) trailing used eq_refl Hps).
    now rewrite <- app_assoc.
Qed.



Lemma load_chunks_post (junk : nat -> Z) (n : nat) :
  forall header file used valid,
    Forall cursor_ok valid ->
    match load_chunks junk n header file used valid with
    | Ok r =>
        Forall cursor_ok r /\
        (List.length valid <= List.length r <= List.length valid + n)%nat
    | Fault _ => False
    end.
Proof.
  induction n as [| n IH]; intros header file used valid Hvalid; cbn [load_chunks].
  - split; [assumption | lia].
  - destruct (fread_chars header 4 file) as [header' file'].
    destruct (strncmp_eq header' MTrk).
    + destruct (fread_word junk 4 file' used) as [[w file''] used'].
      pose proof (fread_block_length junk (Z.to_nat (fntohl w)) file'' used')
        as Hblock.
      destruct (fread_block junk (Z.to_nat (fntohl w)) file'' used')
        as [[block file3] used3]. cbn [fst] in Hblock.
      pose proof (fntohl_range w) as Hw.
      assert (Hsize : Zlen block < 2 ^ 32) by (unfold Zlen; lia).
      destruct (@load_track_ok _ Hsize) as (t & Hload & _ & _ & Hok).
      rewrite Hload.
      specialize (IH header' file3 used3 (valid ++ [t])).
      destruct (load_chunks junk n header' file3 used3 (valid ++ [t]))
        as [r | f].
      * destruct IH as [Hr Hlen].
        { apply Forall_app. split; [assumption | now constructor]. }
        rewrite length_app in Hlen. simpl in Hlen. split; [assumption | lia].
      * apply IH. apply Forall_app. split; [assumption | now constructor].
    + specialize (IH header' file' used valid Hvalid).
      destruct (load_chunks junk n header' file' used valid) as [r | f];
        [| exact IH].
      destruct IH as [Hr Hlen]. split; [assumption | lia].
Qed.

(** X6: what the loader hands over, for any file, complete or cut
    short, and whatever the bytes that no read stored happen to hold.
    Building the cursors never reads outside a block.  When the loader
    returns an array, the division is below 0x8000, the array has as many
    entries as the header declared, the first [track_count] entries are
    cursors over a block of their own with
    [0 <= offset <= length = data_capacity = block size] and a 256-byte
    scratch buffer, and the remaining entries are as [init_track_data]
    left them, without data. *)
Theorem load_midi_file_postcondition (junk : nat -> Z) (file : list Z) :
  (forall f, load_midi_file junk file <> LoadFault f) /\
  (forall tracks time_div track_count,
      load_midi_file junk file = Loaded tracks time_div track_count ->
      0 <= time_div < 0x8000 /\
      0 <= track_count <= Z.of_nat (List.length tracks) /\
      Z.of_nat (List.length tracks) < 2 ^ 16 /\
      Forall cursor_ok (firstn (Z.to_nat track_count) tracks) /\
      skipn (Z.to_nat track_count) tracks
      = repeat init_track_data (List.length tracks - Z.to_nat track_count)).
Proof.
  unfold load_midi_file.
  destruct (fread_chars (unset junk 0 4) 4 file) as [header f0].
  destruct (negb (strncmp_eq header MThd));
    try (split; [discriminate | discriminate]).
  destruct (fread_word junk 4 f0 4) as [[w0 f1] u1].
  destruct (negb (fntohl w0 =? 6));
    try (split; [discriminate | discriminate]).
  destruct (fread_word junk 2 f1 u1) as [[w1 f2] u2].
  destruct (fread_word junk 2 f2 u2) as [[w2 f3] u3].
  destruct (fread_word junk 2 f3 u3) as [[w3 f4] u4].
  destruct (Z.leb_spec 0x8000 (fntohs w3)) as [| Hdiv];
    try (split; [discriminate | discriminate]).
  pose proof (@load_chunks_post junk (Z.to_nat (fntohs w2)) header f4 u4 []
                (Forall_nil _)) as Hpost.
  pose proof (fntohs_range w2) as Hn. pose proof (fntohs_range w3) as Hd.
  destruct (load_chunks junk (Z.to_nat (fntohs w2)) header f4 u4 [])
    as [valid | f]; [| contradiction].
  destruct Hpost as [Hok Hlen]. simpl in Hlen.
  split; [discriminate |].
  intros tracks time_div track_count H. inversion H; subst; clear H.
  rewrite Nat2Z.id, length_app, repeat_length.
  split; [lia |]. split; [lia |]. split; [lia |]. split.
  - rewrite firstn_app, Nat.sub_diag, firstn_all, firstn_O, app_nil_r. exact Hok.
  - rewrite skipn_app, Nat.sub_diag, skipn_all, skipn_O. simpl app.
    f_equal. lia.
Qed.

(** Three chunks declared: an unknown tag, a track chunk, and then the
    file ends.  The third round finds the tag of the second still in the
    buffer and builds a cursor from unset bytes (here zeros: an empty
    block). *)
Lemma load_midi_file_postcondition_witness :
  let junk := fun _ : nat => 0 in
  let file := smf_header 1 3 480 ++ [0x58; 0x58; 0x58; 0x58]
              ++ smf_chunk no_tempo_track in
  let tracks := [track_of no_tempo_track; track_of []; init_track_data] in
  load_midi_file junk file = Loaded tracks 480 2 /\
  0 <= 480 < 0x8000 /\
  0 <= 2 <= Z.of_nat (List.length tracks) /\
  Z.of_nat (List.length tracks) < 2 ^ 16 /\
  Forall cursor_ok (firstn (Z.to_nat 2) tracks) /\
  skipn (Z.to_nat 2) tracks
  = repeat init_track_data (List.length tracks - Z.to_nat 2).
Proof.
  intros junk file tracks.
  assert (Hrun : load_midi_file junk file = Loaded tracks 480 2)
    by (vm_compute; reflexivity).
  split; [exact Hrun |].
  exact (proj2 (load_midi_file_postcondition junk file) tracks 480 2 Hrun).
Defined.

(** ** Decoding one event *)

Lemma read_data_at (t : TrackData) (pre post : list Z) (x i : Z) :
  Track.data t = Some (pre ++ x :: post) ->
  i = Zlen pre ->
  read_data t i = Ok x.
Proof.
  intros Hd ->.
  exact (@read_data_middle (Track.with_offset (Zlen pre) t) pre post x Hd eq_refl).
Qed.

Lemma lor_bound (k a b : Z) :
  0 <= k -> 0 <= a < 2 ^ k -> 0 <= b < 2 ^ k -> 0 <= Z.lor a b < 2 ^ k.
Proof.
  intros Hk Ha Hb.
  assert (Hnn : 0 <= Z.lor a b) by (apply Z.lor_nonneg; lia).
  split; [assumption |].
  destruct (Z.eq_dec (Z.lor a b) 0) as [-> | Hne]; [lia |].
  apply Z.log2_lt_pow2; [lia |].
  rewrite Z.log2_lor by lia.
  destruct (Z.eq_dec a 0) as [-> | Ha0]; destruct (Z.eq_dec b 0) as [-> | Hb0].
  - now rewrite Z.lor_0_l in Hne.
  - rewrite Z.max_r by (simpl; apply Z.log2_nonneg). apply Z.log2_lt_pow2; lia.
  - rewrite Z.max_l by (simpl; apply Z.log2_nonneg). apply Z.log2_lt_pow2; lia.
  - apply Z.max_lub_lt; apply Z.log2_lt_pow2; lia.
Qed.

(** Lines 92 and 121 on a status byte and two data bytes. *)
Lemma pack_two_data_bytes (s d1 d2 : Z) :
  is_byte s -> is_byte d1 -> is_byte d2 ->
  uint32 (Z.lor s (uint32 (Z.lor (Z.shiftl d1 8) (Z.shiftl d2 16))))
  = s + 256 * d1 + 65536 * d2.
Proof.
  unfold is_byte. intros Hs H1 H2.
  rewrite (Z.shiftl_mul_pow2 d1 8) by lia.
  rewrite (Z.lor_comm (d1 * 2 ^ 8)), (@lor_shiftl_add 16 d2 (d1 * 2 ^ 8)) by lia.
  unfold uint32 at 2. rewrite Z.mod_small by lia.
  replace (d2 * 2 ^ 16 + d1 * 2 ^ 8) with ((d2 * 256 + d1) * 2 ^ 8) by lia.
  rewrite <- (Z.shiftl_mul_pow2 (d2 * 256 + d1) 8) by lia.
  rewrite (Z.lor_comm s), (@lor_shiftl_add 8 (d2 * 256 + d1) s) by lia.
  unfold uint32. rewrite Z.mod_small by lia. lia.
Qed.

(** Lines 95 and 121 on a status byte and one data byte. *)
Lemma pack_one_data_byte (s d1 : Z) :
  is_byte s -> is_byte d1 ->
  uint32 (Z.lor s (uint32 (Z.shiftl d1 8))) = s + 256 * d1.
Proof.
  unfold is_byte. intros Hs H1.
  rewrite (Z.shiftl_mul_pow2 d1 8) by lia.
  unfold uint32 at 2. rewrite Z.mod_small by lia.
  rewrite <- (Z.shiftl_mul_pow2 d1 8) by lia.
  rewrite (Z.lor_comm s), (@lor_shiftl_add 8 d1 s) by lia.
  unfold uint32. rewrite Z.mod_small by lia. lia.
Qed.

(** Lines 225-229 on a packed message. *)
Lemma packed_message_fields (s d1 d2 : Z) :
  is_byte s -> is_byte d1 -> is_byte d2 ->
  let message := s + 256 * d1 + 65536 * d2 in
  status_byte_of message = s /\
  channel_of message = s mod 16 /\
  command_of message = s - s mod 16 /\
  note_of message = d1 /\
  velocity_of message = d2.
Proof.
  intros Hs H1 H2 message. unfold is_byte in *.
  assert (Hstatus : status_byte_of message = s).
  { unfold status_byte_of, uint8. change 0xFF with (Z.ones 8).
    rewrite Z.land_ones by lia. change (2 ^ 8) with 256.
    unfold message. Z.div_mod_to_equations. lia. }
  unfold channel_of, command_of. rewrite Hstatus.
  split; [reflexivity |]. split; [| split; [| split]].
  - unfold uint8. change 0x0F with (Z.ones 4). rewrite Z.land_ones by lia.
    change (2 ^ 4) with 16. change (2 ^ 8) with 256.
    Z.div_mod_to_equations. lia.
  - apply Z.eqb_eq.
    apply (@range_check (fun s => uint8 (Z.land s 0xF0) =? s - s mod 16) 256);
      [vm_compute; reflexivity | exact Hs].
  - unfold note_of, uint8. rewrite Z.shiftr_div_pow2 by lia.
    change 0xFF with (Z.ones 8). rewrite Z.land_ones by lia.
    change (2 ^ 8) with 256. unfold message. Z.div_mod_to_equations. lia.
  - unfold velocity_of, uint8. rewrite Z.shiftr_div_pow2 by lia.
    change 0xFF with (Z.ones 8). rewrite Z.land_ones by lia.
    change (2 ^ 8) with 256. change (2 ^ 16) with 65536.
    unfold message. Z.div_mod_to_equations. lia.
Qed.

Lemma uint8_land_byte (s : Z) : is_byte s -> uint8 (Z.land s 0xFF) = s.
Proof.
  unfold is_byte. intros Hs. unfold uint8. change 0xFF with (Z.ones 8).
  rewrite Z.land_ones by lia. change (2 ^ 8) with 256.
  rewrite Z.mod_mod by lia. apply Z.mod_small. lia.
Qed.

(** X7: an event that starts with its own status byte.  For a
    channel-voice status (0x80-0xEF) followed by its data bytes inside the
    buffer, [update_command] then [update_message] leave in [message]
    exactly [status | d1 << 8 | d2 << 16] (two data bytes; statuses below
    0xC0 and from 0xE0) or [status | d1 << 8] (one data byte; 0xC0-0xDF),
    whatever the message held before, and move the cursor by 3 or 2 bytes,
    not past the end.  The fields the scheduler extracts are the bytes
    read. *)
Theorem channel_message_decoded
        (t : TrackData) (pre rest : list Z) (status d1 : Z) :
  Track.data t = Some (pre ++ status :: d1 :: rest) ->
  Track.offset t = Zlen pre ->
  Track.length t = Zlen (pre ++ status :: d1 :: rest) ->
  Track.length t < 2 ^ 64 ->
  0x80 <= status < 0xF0 -> is_byte d1 ->
  (0xC0 <= status < 0xE0 ->
   exists t',
     (a <- update_command t ;; update_message a) = Ok t' /\
     Track.message t' = status + 256 * d1 /\
     status_byte_of (Track.message t') = status /\
     note_of (Track.message t') = d1 /\
     Track.offset t' = Track.offset t + 2 /\
     Track.offset t' <= Track.length t' /\
     Track.data t' = Track.data t /\ Track.tick t' = Track.tick t)
  /\
  (status < 0xC0 \/ 0xE0 <= status ->
   forall d2 post, rest = d2 :: post -> is_byte d2 ->
   exists t',
     (a <- update_command t ;; update_message a) = Ok t' /\
     Track.message t' = status + 256 * d1 + 65536 * d2 /\
     status_byte_of (Track.message t') = status /\
     note_of (Track.message t') = d1 /\
     velocity_of (Track.message t') = d2 /\
     Track.offset t' = Track.offset t + 3 /\
     Track.offset t' <= Track.length t' /\
     Track.data t' = Track.data t /\ Track.tick t' = Track.tick t).
Proof.
  intros Hd Ho Hl Hmax Hs H1.
  assert (Hsb : is_byte status) by (unfold is_byte; lia).
  pose proof (Zlen_nonneg pre) as Hpre. pose proof (Zlen_nonneg rest) as Hrest.
  assert (Hsize : Track.length t = Zlen pre + 2 + Zlen rest).
  { rewrite Hl, Zlen_app, !Zlen_cons. lia. }
  assert (Hcmd : update_command t
                 = Ok (Track.with_message status
                         (Track.with_offset (Zlen pre + 1) t))).
  { unfold update_command.
    replace (Track.length t =? 0) with false by (symmetry; apply Z.eqb_neq; lia).
    rewrite Hd. simpl orb. cbv iota.
    rewrite (@read_data_at t pre (d1 :: rest) status _ Hd Ho). simpl bind.
    replace (128 <=? status) with true by (symmetry; apply Z.leb_le; lia).
    rewrite Ho, uint64_small by lia. reflexivity. }
  rewrite Hcmd. simpl bind.
  set (t1 := Track.with_message status (Track.with_offset (Zlen pre + 1) t)).
  assert (Hd1 : Track.data t1 = Some ((pre ++ [status]) ++ d1 :: rest))
    by (simpl; rewrite Hd, <- app_assoc; reflexivity).
  assert (Hr1 : read_data t1 (Track.offset t1) = Ok d1).
  { apply (@read_data_at t1 (pre ++ [status]) rest d1 _ Hd1).
    simpl. rewrite Zlen_app, Zlen_cons. reflexivity. }
  unfold update_message.
  replace (Track.length t1 =? 0) with false
    by (symmetry; apply Z.eqb_neq; simpl; lia).
  replace (is_null (Track.data t1)) with false by (simpl; now rewrite Hd).
  simpl orb. cbv iota.
  cbv zeta. change (Track.message t1) with status.
  rewrite !(uint8_land_byte Hsb).
  split.
  - intros Hone.
    replace (status <? 192) with false by (symmetry; apply Z.ltb_ge; lia).
    replace (status <? 224) with true by (symmetry; apply Z.ltb_lt; lia).
    unfold read_one_data_byte. rewrite Hr1. simpl bind.
    eexists. split; [reflexivity |]. cbn [Track.message Track.with_message
      Track.with_offset Track.with_temp Track.temp Track.offset Track.length
      Track.data Track.tick t1].
    rewrite (pack_one_data_byte Hsb H1).
    destruct (@packed_message_fields status d1 0 Hsb H1 ltac:(unfold is_byte; lia))
      as (Fs & _ & _ & Fn & _).
    rewrite Z.mul_0_r, Z.add_0_r in Fs, Fn.
    rewrite Ho, uint64_small by lia.
    repeat split; try assumption; try reflexivity; lia.
  - intros Htwo d2 post -> H2.
    assert (Hr2 : read_data t1 (uint64 (Track.offset t1 + 1)) = Ok d2).
    { apply (@read_data_at t1 (pre ++ [status; d1]) post d2).
      - simpl. rewrite Hd, <- app_assoc. reflexivity.
      - simpl. rewrite Zlen_app, !Zlen_cons. rewrite Zlen_cons in Hrest, Hsize.
        pose proof (Zlen_nonneg post).
        rewrite uint64_small by lia. change (Zlen []) with 0. lia. }
    rewrite Zlen_cons in Hsize. pose proof (Zlen_nonneg post).
    destruct (packed_message_fields Hsb H1 H2) as (Fs & _ & _ & Fn & Fv).
    destruct (Z.ltb_spec status 192);
      [| destruct (Z.ltb_spec status 224);
         [lia | destruct (Z.ltb_spec status 240); [| lia]]].
    all: unfold read_two_data_bytes; rewrite Hr1; cbn [bind];
      rewrite Hr2; cbn [bind];
      eexists; (split; [reflexivity |]);
      cbn [Track.message Track.with_message Track.with_offset Track.with_temp
           Track.temp Track.offset Track.length Track.data Track.tick t1];
      rewrite (pack_two_data_bytes Hsb H1 H2);
      rewrite Ho, uint64_small by lia;
      repeat split; try assumption; try reflexivity; lia.
Qed.

(** A Note-On with its status byte, and a Program-Change. *)
Lemma channel_message_decoded_witness :
  (exists t',
      (a <- update_command (cursor_at [0x00; 0x91; 0x3C; 0x64; 0x00] 1) ;;
       update_message a) = Ok t' /\
      Track.message t' = 0x91 + 256 * 0x3C + 65536 * 0x64 /\
      Track.offset t' = 4)
  /\
  (exists t',
      (a <- update_command (cursor_at [0x00; 0xC1; 0x05; 0x00] 1) ;;
       update_message a) = Ok t' /\
      Track.message t' = 0xC1 + 256 * 0x05 /\
      Track.offset t' = 3).
Proof.
  split.
  - destruct (@channel_message_decoded
                (cursor_at [0x00; 0x91; 0x3C; 0x64; 0x00] 1) [0x00] [0x64; 0x00]
                0x91 0x3C eq_refl eq_refl eq_refl)
      as [_ Htwo]; [reflexivity | lia | unfold is_byte; lia |].
    destruct (Htwo ltac:(lia) 0x64 [0x00] eq_refl ltac:(unfold is_byte; lia))
      as (t' & Hrun & Hmsg & _ & _ & _ & Hoff & _).
    exists t'. repeat split; assumption.
  - destruct (@channel_message_decoded
                (cursor_at [0x00; 0xC1; 0x05; 0x00] 1) [0x00] [0x00]
                0xC1 0x05 eq_refl eq_refl eq_refl)
      as [Hone _]; [reflexivity | lia | unfold is_byte; lia |].
    destruct (Hone ltac:(lia)) as (t' & Hrun & Hmsg & _ & _ & Hoff & _).
    exists t'. repeat split; assumption.
Defined.

Lemma copy_from_data_payload (t : TrackData) (pre payload post : list Z) :
  Track.data t = Some (pre ++ payload ++ post) ->
  Track.offset t = Zlen pre ->
  copy_from_data t (Zlen payload) = Ok payload.
Proof.
  intros Hd Ho. unfold copy_from_data. rewrite Hd.
  destruct (Z.eqb_spec (Zlen payload) 0) as [Hzero | Hpos].
  - destruct payload; [reflexivity | rewrite Zlen_cons in Hzero].
    pose proof (Zlen_nonneg payload). lia.
  - pose proof (Zlen_nonneg post).
    replace (Track.offset t + Zlen payload <=? Zlen (pre ++ payload ++ post))
      with true by (symmetry; apply Z.leb_le; rewrite Ho, !Zlen_app; lia).
    rewrite Ho. unfold Zlen. rewrite !Nat2Z.id.
    rewrite skipn_app, Nat.sub_diag, skipn_all, skipn_O. simpl app.
    rewrite firstn_app, Nat.sub_diag, firstn_all, firstn_O, app_nil_r.
    reflexivity.
Qed.

Lemma realloc_length (block : list Z) (n : Z) :
  0 <= n -> Zlen (realloc block n) = n.
Proof.
  intros Hn. unfold realloc, Zlen.
  rewrite length_firstn, length_app, repeat_length. lia.
Qed.

Lemma copy_into_fits (dst src : list Z) :
  Zlen src <= Zlen dst ->
  exists out, copy_into dst src = Ok out /\
              firstn (List.length src) out = src /\ Zlen out = Zlen dst.
Proof.
  intros Hfit. unfold copy_into.
  replace (Zlen src <=? Zlen dst) with true by (symmetry; now apply Z.leb_le).
  eexists. split; [reflexivity |]. split.
  - rewrite firstn_app, Nat.sub_diag, firstn_all, firstn_O, app_nil_r. reflexivity.
  - unfold Zlen in *. rewrite length_app, length_skipn. lia.
Qed.

Lemma meta_event_run
        (t : TrackData) (pre groups payload post : list Z) (ty : Z) :
  Track.data t = Some (pre ++ 0xFF :: ty :: vlq_bytes groups ++ payload ++ post) ->
  Track.offset t = Zlen pre ->
  Track.length t = Zlen (pre ++ 0xFF :: ty :: vlq_bytes groups ++ payload ++ post) ->
  Track.length t < 2 ^ 64 ->
  Zlen (Track.long_msg t) = Track.long_msg_capacity t ->
  is_byte ty ->
  groups <> [] -> (List.length groups <= 4)%nat -> Forall is_group groups ->
  vlq_value groups = Zlen payload ->
  exists t',
    (a <- update_command t ;; update_message a) = Ok t' /\
    Track.message t' = 0xFF + 256 * ty /\
    Track.long_msg_len t' = Zlen payload /\
    firstn (List.length payload) (Track.long_msg t') = payload /\
    Track.long_msg_capacity t' = Z.max (Track.long_msg_capacity t) (Zlen payload) /\
    Zlen (Track.long_msg t') = Track.long_msg_capacity t' /\
    Track.offset t' = Track.offset t + 2 + Zlen groups + Zlen payload /\
    Track.offset t' <= Track.length t' /\
    Track.data t' = Track.data t /\ Track.tick t' = Track.tick t.
Proof.
  intros Hd Ho Hl Hmax Hcap Hty Hne Hlen Hall Hval.
  set (buf := pre ++ 0xFF :: ty :: vlq_bytes groups ++ payload ++ post) in *.
  pose proof (Zlen_nonneg pre) as Hpre. pose proof (Zlen_nonneg payload) as Hpay.
  pose proof (Zlen_nonneg post) as Hpost.
  pose proof (Zlen_nonneg (vlq_bytes groups)) as Hvb.
  assert (Hgl : Zlen (vlq_bytes groups) = Zlen groups).
  { destruct (exists_last Hne) as (gs & g & ->). rewrite vlq_bytes_snoc.
    unfold Zlen. now rewrite !length_app, length_map. }
  assert (Hsize : Zlen buf = Zlen pre + 2 + Zlen groups + Zlen payload + Zlen post).
  { unfold buf. rewrite Zlen_app, !Zlen_cons, !Zlen_app. lia. }
  (* update_command latches 0xFF *)
  assert (Hcmd : update_command t
                 = Ok (Track.with_message 0xFF
                         (Track.with_offset (Zlen pre + 1) t))).
  { unfold update_command.
    replace (Track.length t =? 0) with false by (symmetry; apply Z.eqb_neq; lia).
    rewrite Hd. simpl orb. cbv iota.
    rewrite (@read_data_at t pre (ty :: vlq_bytes groups ++ payload ++ post) 0xFF _ Hd Ho).
    cbn [bind]. change (128 <=? 255) with true. cbv iota.
    rewrite Ho, uint64_small by lia. reflexivity. }
  rewrite Hcmd. cbn [bind].
  set (t1 := Track.with_message 0xFF (Track.with_offset (Zlen pre + 1) t)).
  unfold update_message.
  replace (Track.length t1 =? 0) with false
    by (symmetry; apply Z.eqb_neq; simpl; lia).
  replace (is_null (Track.data t1)) with false by (simpl; now rewrite Hd).
  simpl orb. cbv iota zeta. change (Track.message t1) with 255.
  change (uint8 (Z.land 255 255)) with 255.
  change (255 <? 192) with false. change (255 <? 224) with false.
  change (255 <? 240) with false. change ((255 =? 255) || (255 =? 240)) with true.
  cbv iota.
  (* the type byte *)
  unfold read_long_message. change (255 =? 255) with true. cbv iota.
  assert (Hty_read : read_data t1 (Track.offset t1) = Ok ty).
  { apply (@read_data_at t1 (pre ++ [0xFF]) (vlq_bytes groups ++ payload ++ post) ty).
    - simpl. rewrite Hd. unfold buf. now rewrite <- app_assoc.
    - simpl. rewrite Zlen_app, Zlen_cons. reflexivity. }
  rewrite Hty_read. cbn [bind].
  set (t2 := Track.with_offset _ (Track.with_temp _ t1)).
  assert (Ho2 : Track.offset t2 = Zlen pre + 2).
  { unfold t2. simpl. rewrite uint64_small by lia. lia. }
  (* the length *)
  assert (Hdec : decode_variable_length t2
                 = Ok (Zlen payload,
                       Track.with_offset (Zlen pre + 2 + Zlen groups) t2)).
  { rewrite <- Hval, <- Ho2.
    apply (@decode_groups t2 (pre ++ [0xFF; ty]) (payload ++ post) groups
             Hne Hlen Hall).
    - simpl. rewrite Hd. unfold buf. now rewrite <- app_assoc.
    - rewrite Ho2, Zlen_app, !Zlen_cons. change (Zlen []) with 0. lia.
    - simpl. rewrite Hl. unfold buf. now rewrite <- app_assoc.
    - simpl. exact Hmax. }
  rewrite Hdec. cbn [bind].
  rewrite (@uint64_small (Zlen payload)) by lia.
  set (t3 := Track.with_long_msg_len (Zlen payload)
               (Track.with_offset (Zlen pre + 2 + Zlen groups) t2)).
  set (t4 := if Track.long_msg_capacity t3 <? Track.long_msg_len t3
             then Track.with_long_msg_capacity (Track.long_msg_len t3)
                    (Track.with_long_msg
                       (realloc (Track.long_msg t3) (Track.long_msg_len t3)) t3)
             else t3).
  assert (H4 : Track.data t4 = Some buf /\ Track.offset t4 = Zlen pre + 2 + Zlen groups
               /\ Track.long_msg_len t4 = Zlen payload
               /\ Track.long_msg_capacity t4
                  = Z.max (Track.long_msg_capacity t) (Zlen payload)
               /\ Zlen (Track.long_msg t4) = Track.long_msg_capacity t4
               /\ Track.length t4 = Track.length t
               /\ Track.tick t4 = Track.tick t
               /\ Track.message t4 = 0xFF
               /\ Track.temp t4 = uint32 (Z.shiftl ty 8)).
  { unfold t4. change (Track.long_msg_capacity t3) with (Track.long_msg_capacity t).
    change (Track.long_msg_len t3) with (Zlen payload).
    destruct (Z.ltb_spec (Track.long_msg_capacity t) (Zlen payload)); simpl.
    - rewrite realloc_length by lia. repeat split; try assumption; lia.
    - repeat split; try assumption; lia. }
  destruct H4 as (D4 & O4 & L4 & C4 & S4 & Len4 & T4 & M4 & Temp4).
  rewrite L4.
  rewrite (@copy_from_data_payload t4 (pre ++ 0xFF :: ty :: vlq_bytes groups) payload post).
  2:{ rewrite D4. unfold buf. rewrite <- app_assoc. reflexivity. }
  2:{ rewrite O4, Zlen_app, !Zlen_cons. lia. }
  cbn [bind].
  destruct (@copy_into_fits (Track.long_msg t4) payload) as (out & Hcopy & Hfront & Hout);
    [lia |].
  rewrite Hcopy. cbn [bind].
  eexists. split; [reflexivity |].
  cbn [Track.message Track.with_message Track.with_offset Track.with_temp
       Track.with_long_msg Track.temp Track.offset Track.length Track.data
       Track.tick Track.long_msg Track.long_msg_len Track.long_msg_capacity].
  rewrite M4, Temp4, O4, L4, C4, D4, Len4, T4.
  rewrite (@pack_one_data_byte 0xFF ty ltac:(unfold is_byte; lia) Hty).
  rewrite uint64_small by lia.
  repeat split; try assumption; try lia; try reflexivity.
  now rewrite Hd.
Qed.

(** X8: a meta event inside the buffer.  For [FF type], a length of one
    to four bytes and that many payload bytes, [update_command] then
    [update_message] leave [message = 0xFF | type << 8], the payload at the
    front of the scratch buffer with [long_msg_len] its length, the
    scratch capacity raised to that length when it was smaller and
    otherwise unchanged, and the cursor just after the payload, not past
    the end. *)
Theorem meta_event_decoded
        (t : TrackData) (pre groups payload post : list Z) (ty : Z) :
  Track.data t = Some (pre ++ 0xFF :: ty :: vlq_bytes groups ++ payload ++ post) ->
  Track.offset t = Zlen pre ->
  Track.length t = Zlen (pre ++ 0xFF :: ty :: vlq_bytes groups ++ payload ++ post) ->
  Track.length t < 2 ^ 64 ->
  Zlen (Track.long_msg t) = Track.long_msg_capacity t ->
  is_byte ty ->
  groups <> [] -> (List.length groups <= 4)%nat -> Forall is_group groups ->
  vlq_value groups = Zlen payload ->
  exists t',
    (a <- update_command t ;; update_message a) = Ok t' /\
    Track.message t' = 0xFF + 256 * ty /\
    Track.long_msg_len t' = Zlen payload /\
    firstn (List.length payload) (Track.long_msg t') = payload /\
    Track.long_msg_capacity t' = Z.max (Track.long_msg_capacity t) (Zlen payload) /\
    Zlen (Track.long_msg t') = Track.long_msg_capacity t' /\
    Track.offset t' = Track.offset t + 2 + Zlen groups + Zlen payload /\
    Track.offset t' <= Track.length t' /\
    Track.data t' = Track.data t /\ Track.tick t' = Track.tick t.
Proof. exact (@meta_event_run t pre groups payload post ty). Qed.

(** A Set-Tempo event [FF 51 03 07 A1 20] after a delta-time byte. *)
Lemma meta_event_decoded_witness :
  exists t',
    (a <- update_command (cursor_at [0x00; 0xFF; 0x51; 0x03; 0x07; 0xA1; 0x20; 0x00] 1) ;;
     update_message a) = Ok t' /\
    Track.message t' = 0xFF + 256 * 0x51 /\
    Track.long_msg_len t' = 3 /\
    firstn 3 (Track.long_msg t') = [0x07; 0xA1; 0x20] /\
    Track.offset t' = 7.
Proof.
  destruct (@meta_event_decoded
              (cursor_at [0x00; 0xFF; 0x51; 0x03; 0x07; 0xA1; 0x20; 0x00] 1)
              [0x00] [0x03] [0x07; 0xA1; 0x20] [0x00] 0x51
              eq_refl eq_refl eq_refl)
    as (t' & Hrun & Hmsg & Hlen & Hfront & _ & _ & Hoff & _).
  - reflexivity.
  - reflexivity.
  - unfold is_byte. lia.
  - discriminate.
  - simpl. lia.
  - repeat constructor; unfold is_group; lia.
  - reflexivity.
  - exists t'. repeat split; assumption.
Defined.

Lemma land_255 (z : Z) : Z.land z 0xFF = z mod 256 /\ uint8 (Z.land z 0xFF) = z mod 256.
Proof.
  change 0xFF with (Z.ones 8). rewrite Z.land_ones by lia.
  change (2 ^ 8) with 256. split; [reflexivity |].
  unfold uint8. change (2 ^ 8) with 256. apply Z.mod_mod. lia.
Qed.

Lemma lor_byte (a b : Z) : is_byte a -> is_byte b -> is_byte (Z.lor a b).
Proof.
  unfold is_byte. intros Ha Hb. change 256 with (2 ^ 8).
  apply lor_bound; [lia | assumption | assumption].
Qed.

(** X9: running status on a two-data-byte message.  When the byte at the
    cursor has its high bit clear, [update_command] leaves cursor and
    status alone and [update_message] takes the two bytes at the cursor as
    data bytes; it ORs them into [message], which still holds the data
    bytes of the previous event: the event dispatched has the old status,
    note [old_note | d1] and velocity [old_velocity | d2]. *)
Theorem running_status_ors_data
        (t : TrackData) (pre post : list Z) (d1 d2 : Z) :
  Track.data t = Some (pre ++ d1 :: d2 :: post) ->
  Track.offset t = Zlen pre ->
  Track.length t = Zlen (pre ++ d1 :: d2 :: post) ->
  Track.length t < 2 ^ 64 ->
  0 <= d1 < 0x80 -> is_byte d2 ->
  0 <= Track.message t < 2 ^ 32 ->
  status_byte_of (Track.message t) < 0xC0 \/
  0xE0 <= status_byte_of (Track.message t) < 0xF0 ->
  exists t',
    (a <- update_command t ;; update_message a) = Ok t' /\
    Track.offset t' = Track.offset t + 2 /\
    Track.offset t' <= Track.length t' /\
    status_byte_of (Track.message t') = status_byte_of (Track.message t) /\
    note_of (Track.message t') = Z.lor (note_of (Track.message t)) d1 /\
    velocity_of (Track.message t') = Z.lor (velocity_of (Track.message t)) d2.
Proof.
  intros Hd Ho Hl Hmax H1 H2 Hm Hs.
  pose proof (Zlen_nonneg pre) as Hpre. pose proof (Zlen_nonneg post) as Hpost.
  assert (Hsize : Track.length t = Zlen pre + 2 + Zlen post).
  { rewrite Hl, Zlen_app, !Zlen_cons. lia. }
  assert (Hr1 : read_data t (Track.offset t) = Ok d1)
    by (apply (@read_data_at t pre (d2 :: post) d1 _ Hd Ho)).
  rewrite (update_command_running_status t Hr1) by lia. cbn [bind].
  assert (Hr2 : read_data t (uint64 (Track.offset t + 1)) = Ok d2).
  { apply (@read_data_at t (pre ++ [d1]) post d2).
    - rewrite Hd, <- app_assoc. reflexivity.
    - rewrite Ho, uint64_small, Zlen_app, Zlen_cons by lia. reflexivity. }
  unfold update_message.
  replace (Track.length t =? 0) with false by (symmetry; apply Z.eqb_neq; lia).
  rewrite Hd. simpl orb. cbv iota zeta.
  fold (status_byte_of (Track.message t)).
  set (m := Track.message t) in *.
  set (x := 256 * d1 + 65536 * d2).
  assert (Hx : uint32 (Z.lor (Z.shiftl d1 8) (Z.shiftl d2 16)) = x).
  { pose proof (@pack_two_data_bytes 0 d1 d2 ltac:(unfold is_byte; lia)
                  ltac:(unfold is_byte; lia) H2) as Hp.
    rewrite Z.lor_0_l in Hp. unfold uint32 in Hp |- *.
    rewrite Z.mod_mod in Hp by lia. rewrite Hp. unfold x. lia. }
  assert (Hxr : 0 <= x < 2 ^ 32) by (unfold x, is_byte in *; lia).
  assert (Hpack : uint32 (Z.lor m x) = Z.lor m x).
  { unfold uint32. apply Z.mod_small. apply lor_bound; [lia | assumption | assumption]. }
  assert (Fs : status_byte_of (Z.lor m x) = status_byte_of m).
  { unfold status_byte_of. rewrite Z.land_lor_distr_l.
    replace (Z.land x 255) with 0.
    - now rewrite Z.lor_0_r.
    - rewrite (proj1 (land_255 x)). unfold x. Z.div_mod_to_equations. lia. }
  assert (Fn : note_of (Z.lor m x) = Z.lor (note_of m) d1).
  { unfold note_of. rewrite Z.shiftr_lor, Z.land_lor_distr_l.
    rewrite !(proj2 (land_255 _)).
    replace (Z.land (Z.shiftr x 8) 255) with d1.
    - rewrite (proj1 (land_255 (Z.shiftr m 8))).
      unfold uint8. apply Z.mod_small. change (2 ^ 8) with 256.
      apply lor_byte; unfold is_byte; [| lia].
      apply Z.mod_pos_bound. lia.
    - rewrite (proj1 (land_255 _)), Z.shiftr_div_pow2 by lia.
      change (2 ^ 8) with 256. unfold x, is_byte in *.
      Z.div_mod_to_equations. lia. }
  assert (Fv : velocity_of (Z.lor m x) = Z.lor (velocity_of m) d2).
  { unfold velocity_of. rewrite Z.shiftr_lor, Z.land_lor_distr_l.
    rewrite !(proj2 (land_255 _)).
    replace (Z.land (Z.shiftr x 16) 255) with d2.
    - rewrite (proj1 (land_255 (Z.shiftr m 16))).
      unfold uint8. apply Z.mod_small. change (2 ^ 8) with 256.
      apply lor_byte; [| assumption].
      unfold is_byte. apply Z.mod_pos_bound. lia.
    - rewrite (proj1 (land_255 _)), Z.shiftr_div_pow2 by lia.
      change (2 ^ 16) with 65536. unfold x, is_byte in *.
      Z.div_mod_to_equations. lia. }
  assert (Hsb : 0 <= status_byte_of m < 256).
  { unfold status_byte_of. rewrite (proj2 (land_255 m)). apply Z.mod_pos_bound. lia. }
  destruct (Z.ltb_spec (status_byte_of m) 192);
    [| destruct (Z.ltb_spec (status_byte_of m) 224);
       [lia | destruct (Z.ltb_spec (status_byte_of m) 240); [| lia]]].
  all: unfold read_two_data_bytes; rewrite Hr1; cbn [bind];
    rewrite Hr2; cbn [bind];
    eexists; (split; [reflexivity |]);
    cbn [Track.message Track.with_message Track.with_offset Track.with_temp
         Track.temp Track.offset Track.length];
    fold m; rewrite Hx, Hpack, Ho, uint64_small by lia;
    repeat split; try assumption; lia.
Qed.

(** After Note-On [90 3C 40], the data bytes [40 00] under running
    status. *)
Lemma running_status_ors_data_witness :
  exists t',
    (a <- update_command
            (Track.with_message 0x403C90 (cursor_at [0x40; 0x00; 0x00] 0)) ;;
     update_message a) = Ok t' /\
    Track.offset t' = 2 /\
    status_byte_of (Track.message t') = 0x90 /\
    note_of (Track.message t') = Z.lor 0x3C 0x40 /\
    velocity_of (Track.message t') = Z.lor 0x40 0x00.
Proof.
  destruct (@running_status_ors_data
              (Track.with_message 0x403C90 (cursor_at [0x40; 0x00; 0x00] 0))
              [] [0x00] 0x40 0x00 eq_refl eq_refl eq_refl)
    as (t' & Hrun & Hoff & _ & Fs & Fn & Fv).
  - reflexivity.
  - lia.
  - unfold is_byte. lia.
  - simpl. lia.
  - left. vm_compute. reflexivity.
  - exists t'. repeat split; assumption.
Defined.

(** ** The scheduler: what holds along every session *)

Section SchedulerInvariant.
Variables on off : bool.
Variable time_div : Z.
Variable Inv : Play.t -> Prop.

Hypothesis dispatch_keeps :
  forall t p t' p', Inv p -> dispatch on off time_div t p = Ok (t', p') -> Inv p'.

Lemma drain_invariant (fuel : nat) :
  forall t p, Inv p -> Inv (play_of snd (drain on off time_div fuel t p)).
Proof.
  induction fuel as [| fuel IH]; intros t p Hp; simpl drain.
  - destruct (negb (is_null (Track.data t)) && (uint64 (Track.tick t) <=? Play.tick p));
      exact Hp.
  - destruct (negb (is_null (Track.data t)) && (uint64 (Track.tick t) <=? Play.tick p));
      [| exact Hp].
    destruct (t1 <- update_command t;; update_message t1) as [t2 | f]; [| exact Hp].
    destruct (dispatch on off time_div t2 p) as [[t3 p'] | f] eqn:Hd; [| exact Hp].
    assert (Hp' : Inv p') by (eapply dispatch_keeps; eassumption).
    destruct (negb (is_null (Track.data t3))).
    + destruct (update_tick t3) as [t4 | f]; [| exact Hp']. now apply IH.
    + now apply IH.
Qed.

Lemma scan_tracks_invariant (fuel : nat) (tracks : list TrackData) :
  forall i p, Inv p -> Inv (play_of snd (scan_tracks on off time_div fuel tracks i p)).
Proof.
  induction tracks as [| t rest IH]; intros i p Hp; simpl scan_tracks; [exact Hp |].
  assert (Hfirst : Inv (play_of snd
            (if negb (is_null (Track.data t))
             then drain on off time_div fuel t p
             else Finished (t, p)))).
  { destruct (negb (is_null (Track.data t))); [now apply drain_invariant | exact Hp]. }
  destruct (if negb (is_null (Track.data t))
            then drain on off time_div fuel t p
            else Finished (t, p)) as [[t' p1] | q | f q]; try exact Hfirst.
  specialize (IH (S i) p1 Hfirst).
  destruct (scan_tracks on off time_div fuel rest (S i) p1)
    as [[[rest' active] p2] | q | f q]; exact IH.
Qed.

Hypothesis advance_keeps :
  forall p d,
    Inv p -> 0 <= Play.tick p -> 0 < d ->
    uint64 (Play.tick p + d) = Play.tick p + d ->
    Inv (advance p d).

Lemma pump_invariant (budget fuel : nat) :
  forall tracks p,
    Inv p -> 0 <= Play.tick p < 2 ^ 64 ->
    Inv (final_play (pump on off time_div budget fuel tracks p)).
Proof.
  induction fuel as [| fuel IH]; intros tracks p Hp Hrange; simpl pump; [exact Hp |].
  pose proof (scan_tracks_follows on off time_div budget tracks 0 p) as [Htick _].
  pose proof (scan_tracks_finished on off time_div budget tracks 0 p) as Hfin.
  pose proof (@scan_tracks_invariant budget tracks 0 p Hp) as Hscan.
  destruct (scan_tracks on off time_div budget tracks 0 p)
    as [[[tracks' active] p1] | q | f q]; simpl in Htick, Hscan |- *;
    try exact Hscan.
  destruct (Hfin _ _ _ eq_refl) as [Hin _].
  destruct active as [| a rest]; [exact Hscan |].
  set (active := a :: rest) in *.
  destruct (@next_delta_min tracks' p1 active) as (_ & _ & Hpos & Hnowrap).
  - lia.
  - discriminate.
  - intros idx Hidx. destruct (Hin idx Hidx) as (j & t & -> & Hnth & Hn & Hlt).
    exists t. auto.
  - apply (IH tracks' (advance p1 (next_delta tracks' (Play.tick p1) active))).
    + apply advance_keeps; [assumption | lia | assumption | assumption].
    + simpl. apply uint64_range.
Qed.
End SchedulerInvariant.

Lemma nibble_range (s : Z) : 0 <= uint8 (Z.land s 0x0F) <= 15.
Proof.
  change 0x0F with (Z.ones 4). rewrite Z.land_ones by lia.
  change (2 ^ 4) with 16. unfold uint8. change (2 ^ 8) with 256.
  change (Z.ones 4) with 15.
  pose proof (Z.mod_pos_bound s 16 ltac:(lia)).
  rewrite Z.mod_small by lia. lia.
Qed.

Lemma uint8_range (z : Z) : 0 <= uint8 z <= 255.
Proof.
  unfold uint8. change (2 ^ 8) with 256.
  pose proof (Z.mod_pos_bound z 256 ltac:(lia)). lia.
Qed.

Lemma dispatch_calls_ok (on off : bool) (time_div : Z)
      (t t' : TrackData) (p p' : Play.t) :
  calls_ok on off p -> dispatch on off time_div t p = Ok (t', p') ->
  calls_ok on off p'.
Proof.
  unfold dispatch, calls_ok. intros Hp H.
  pose proof (nibble_range (status_byte_of (Track.message t))) as Hch.
  fold (channel_of (Track.message t)) in Hch.
  pose proof (uint8_range (Z.land (Z.shiftr (Track.message t) 8) 255)) as Hn.
  fold (note_of (Track.message t)) in Hn.
  pose proof (uint8_range (Z.land (Z.shiftr (Track.message t) 16) 255)) as Hv.
  fold (velocity_of (Track.message t)) in Hv.
  destruct (command_of (Track.message t) =? 0x90).
  - destruct (Z.ltb_spec 0 (velocity_of (Track.message t))); inversion H; subst.
    + destruct on; simpl; [constructor |]; auto.
      simpl. repeat split; lia.
    + destruct off; simpl; [constructor |]; auto.
      simpl. repeat split; lia.
  - destruct (command_of (Track.message t) =? 0x80).
    + inversion H; subst. destruct off; simpl; [constructor |]; auto.
      simpl. repeat split; lia.
    + destruct (status_byte_of (Track.message t) =? 0xFF).
      * unfold process_meta_event, bind, read_long_msg in H.
        repeat destruct_scrutinee H; inversion H; subst; exact Hp.
      * inversion H; subst. exact Hp.
Qed.

Lemma calls_of_log (on off : bool) (p : Play.t) :
  calls_ok on off p -> Forall (call_ok on off) (calls (Play.log p)).
Proof.
  unfold calls_ok, calls. intros H. apply Forall_rev.
  induction H as [| e log He _ IH]; simpl.
  - constructor.
  - apply Forall_app. split; [| exact IH].
    destruct e as [k c | d m]; simpl; [now repeat constructor | constructor].
Qed.

(** X10: what the callbacks are ever called with.  For every track array
    and however the session ends, a callback whose pointer is null is
    never called, the note-on callback is never called with a first
    argument (the velocity) of 0, and the values passed are a velocity in
    1..255, a channel in 0..15 and a note in 0..255. *)
Theorem callbacks_called_in_range
        (on off : bool) (time_div : Z) (fuel : nat) (tracks : list TrackData) :
  Forall (call_ok on off)
         (calls (Play.log (final_play (play_midi on off time_div fuel tracks)))).
Proof.
  apply calls_of_log. unfold play_midi.
  apply pump_invariant with (Inv := calls_ok on off).
  - intros t p t' p'. apply dispatch_calls_ok.
  - intros p d Hp _ _ _. unfold calls_ok, advance in *. simpl.
    constructor; [exact I | exact Hp].
  - constructor.
  - simpl. lia.
Qed.

Lemma dispatch_delays_ok (on off : bool) (time_div : Z)
      (t t' : TrackData) (p p' : Play.t) :
  0 < time_div < 2 ^ 16 ->
  delays_ok p -> dispatch on off time_div t p = Ok (t', p') -> delays_ok p'.
Proof.
  unfold dispatch, delays_ok. intros Hd [Hm Hlog] H.
  assert (Hemit : forall k c,
            multiplier_ok (Play.multiplier (emit (Notify k c) p)) /\
            Forall (fun e => match e with
                             | Notify _ _ => True
                             | Delay d m => 0 < d < 2 ^ 64 /\ multiplier_ok m
                             end) (Play.log (emit (Notify k c) p))).
  { intros k c. cbn [emit Play.multiplier Play.log].
    split; [exact Hm | constructor; [exact I | exact Hlog]]. }
  destruct (command_of (Track.message t) =? 0x90).
  - destruct (0 <? velocity_of (Track.message t)); inversion H; subst.
    + destruct on; [apply Hemit | split; assumption].
    + destruct off; [apply Hemit | split; assumption].
  - destruct (command_of (Track.message t) =? 0x80).
    + inversion H; subst. destruct off; [apply Hemit | split; assumption].
    + destruct (status_byte_of (Track.message t) =? 0xFF).
      * clear Hemit. unfold process_meta_event, bind, read_long_msg in H.
        repeat destruct_scrutinee H; inversion H; subst;
          cbn [Play.multiplier Play.log]; (split; [| exact Hlog]);
          try exact Hm.
        right. apply tempo_multiplier_at_least_one. exact Hd.
      * inversion H; subst. split; assumption.
Qed.

(** X11: the operands of every delay computation, for a non-zero
    division.  The global tick moves by a strictly positive number of
    ticks each round, and the multiplier used is either the initial 0 (no
    Set-Tempo met yet) or at least 1. *)
Theorem delays_positive_and_floored
        (on off : bool) (time_div : Z) (fuel : nat) (tracks : list TrackData) :
  0 < time_div < 2 ^ 16 ->
  forall d m,
    In (Delay d m) (Play.log (final_play (play_midi on off time_div fuel tracks))) ->
    0 < d < 2 ^ 64 /\ (m = 0%float \/ PrimFloat.leb 1 m = true).
Proof.
  intros Hdiv d m Hin.
  assert (H : delays_ok (final_play (play_midi on off time_div fuel tracks))).
  { unfold play_midi. apply pump_invariant with (Inv := delays_ok).
    - intros t p t' p'. now apply dispatch_delays_ok.
    - intros p k [Hm Hlog] Htick Hk Hwrap. unfold delays_ok, advance.
      cbn [Play.multiplier Play.log].
      split; [exact Hm |]. constructor; [| exact Hlog].
      split; [| exact Hm].
      pose proof (uint64_range (Play.tick p + k)). lia.
    - split; [left; reflexivity | constructor].
    - unfold initial_play. cbn [Play.tick]. lia. }
  destruct H as [_ Hlog]. rewrite Forall_forall in Hlog.
  exact (Hlog _ Hin).
Qed.

Lemma delays_positive_and_floored_witness :
  let tracks := [track_of no_tempo_track] in
  0 < 480 < 2 ^ 16 /\
  forall d m,
    In (Delay d m) (Play.log (final_play (play_midi true true 480 8 tracks))) ->
    0 < d < 2 ^ 64 /\ (m = 0%float \/ PrimFloat.leb 1 m = true).
Proof.
  intros tracks.
  assert (H : 0 < 480 < 2 ^ 16) by lia.
  split; [exact H |].
  exact (@delays_positive_and_floored true true 480 8 tracks H).
Defined.

(** X12: End of Track.  When a due track stands on an [FF 2F] event that
    lies inside the buffer, the inner loop handles that one event and
    stops: the buffer is released ([data] is NULL, [length] is 0), the
    track's tick is not advanced (no delta is read after the event), the
    bytes behind the event are never looked at, and the locals of
    [play_midi] are as before. *)
Theorem end_of_track_stops_the_track
        (on off : bool) (time_div : Z) (fuel : nat) (p : Play.t)
        (t : TrackData) (pre groups payload post : list Z) :
  Track.data t = Some (pre ++ 0xFF :: 0x2F :: vlq_bytes groups ++ payload ++ post) ->
  Track.offset t = Zlen pre ->
  Track.length t = Zlen (pre ++ 0xFF :: 0x2F :: vlq_bytes groups ++ payload ++ post) ->
  Track.length t < 2 ^ 64 ->
  Zlen (Track.long_msg t) = Track.long_msg_capacity t ->
  groups <> [] -> (List.length groups <= 4)%nat -> Forall is_group groups ->
  vlq_value groups = Zlen payload ->
  uint64 (Track.tick t) <= Play.tick p ->
  exists t',
    drain on off time_div (S fuel) t p = Finished (t', p) /\
    Track.data t' = None /\ Track.length t' = 0 /\
    Track.tick t' = Track.tick t /\
    Track.offset t' = Track.offset t + 2 + Zlen groups + Zlen payload.
Proof.
  intros Hdata Hoff Hlen Hmax Hcap Hne Hfew Hgroups Hvalue Hdue.
  destruct (@meta_event_run t pre groups payload post 0x2F
              Hdata Hoff Hlen Hmax Hcap ltac:(unfold is_byte; lia)
              Hne Hfew Hgroups Hvalue)
    as (t1 & Hrun & Hmsg & _ & _ & _ & _ & Hoff1 & _ & _ & Htick1).
  exists (Track.with_length 0 (Track.with_data None t1)).
  split; [| repeat split; assumption].
  cbn [drain]. rewrite Hdata. cbn [is_null negb andb].
  destruct (Z.leb_spec (uint64 (Track.tick t)) (Play.tick p)); [| lia].
  rewrite Hrun. unfold dispatch, process_meta_event.
  unfold command_of, status_byte_of. rewrite Hmsg.
  change (uint8 (Z.land (uint8 (Z.land (0xFF + 256 * 0x2F) 0xFF)) 0xF0) =? 0x90)
    with false.
  change (uint8 (Z.land (uint8 (Z.land (0xFF + 256 * 0x2F) 0xFF)) 0xF0) =? 0x80)
    with false.
  change (uint8 (Z.land (0xFF + 256 * 0x2F) 0xFF) =? 0xFF) with true.
  change (uint8 (Z.land (Z.shiftr (0xFF + 256 * 0x2F) 8) 0xFF) =? 0x51) with false.
  change (uint8 (Z.land (Z.shiftr (0xFF + 256 * 0x2F) 8) 0xFF) =? 0x2F) with true.
  cbv iota. cbn [Track.data Track.with_length Track.with_data is_null negb].
  destruct fuel; reflexivity.
Qed.

Lemma end_of_track_stops_the_track_witness :
  let t := cursor_at [0x00; 0xFF; 0x2F; 0x00; 0x00; 0x90; 0x3C; 0x40] 1 in
  exists t',
    drain true true 480 1 t initial_play = Finished (t', initial_play) /\
    Track.data t' = None /\ Track.length t' = 0 /\
    Track.tick t' = 0 /\ Track.offset t' = 4.
Proof.
  intros t.
  destruct (@end_of_track_stops_the_track true true 480 0 initial_play t
              [0x00] [0x00] [] [0x00; 0x90; 0x3C; 0x40]
              eq_refl eq_refl eq_refl)
    as (t' & Hrun & Hnull & Hlen & Htick & Hoff).
  - reflexivity.
  - reflexivity.
  - discriminate.
  - simpl. lia.
  - repeat constructor; unfold is_group; lia.
  - reflexivity.
  - vm_compute. discriminate.
  - exists t'. repeat split; assumption.
Defined.

(** ** The scheduler: how a session ends *)

Lemma scan_tracks_shape (on off : bool) (time_div : Z) (fuel : nat)
      (tracks : list TrackData) :
  forall i p tracks' active p',
    scan_tracks on off time_div fuel tracks i p = Finished (tracks', active, p') ->
    List.length tracks' = List.length tracks /\
    forall j t, nth_error tracks j = Some t -> is_null (Track.data t) = true ->
                nth_error tracks' j = Some t.
Proof.
  induction tracks as [| t rest IH]; intros i p tracks' active p' H;
    simpl scan_tracks in H.
  - inversion H; subst. split; [reflexivity | auto].
  - assert (Hfirst : forall t1 p1,
              (if negb (is_null (Track.data t))
               then drain on off time_div fuel t p
               else Finished (t, p)) = Finished (t1, p1) ->
              is_null (Track.data t) = true -> t1 = t).
    { intros t1 p1 Heq Hnull. rewrite Hnull in Heq. simpl in Heq.
      now inversion Heq. }
    destruct (if negb (is_null (Track.data t))
              then drain on off time_div fuel t p
              else Finished (t, p)) as [[t1 p1] | q | f q]; try discriminate.
    specialize (Hfirst t1 p1 eq_refl).
    destruct (scan_tracks on off time_div fuel rest (S i) p1)
      as [[[rest' active'] p2] | q | f q] eqn:Hrest; try discriminate.
    inversion H; subst. destruct (IH _ _ _ _ _ Hrest) as [Hlen Hsame].
    split; [simpl; now rewrite Hlen |].
    intros [| j] u Hu Hnull; simpl in Hu |- *.
    + inversion Hu; subst. now rewrite (Hfirst Hnull).
    + now apply Hsame.
Qed.

Lemma scan_tracks_inactive (on off : bool) (time_div : Z) (fuel : nat)
      (tracks : list TrackData) :
  Forall (fun t => is_null (Track.data t) = true) tracks ->
  forall i p,
    scan_tracks on off time_div fuel tracks i p = Finished (tracks, [], p).
Proof.
  induction 1 as [| t rest Ht _ IH]; intros i p; simpl scan_tracks.
  - reflexivity.
  - rewrite Ht. simpl. rewrite IH. rewrite Ht. reflexivity.
Qed.

Lemma pump_finished (on off : bool) (time_div : Z) (budget fuel : nat) :
  forall tracks p done p',
    pump on off time_div budget fuel tracks p = Finished (done, p') ->
    List.length done = List.length tracks /\
    Forall (fun t => is_null (Track.data t) = true) done /\
    forall j t, nth_error tracks j = Some t -> is_null (Track.data t) = true ->
                nth_error done j = Some t.
Proof.
  induction fuel as [| fuel IH]; intros tracks p done p' H; simpl pump in H;
    [discriminate |].
  pose proof (scan_tracks_finished on off time_div budget tracks 0 p) as Hfin.
  pose proof (@scan_tracks_shape on off time_div budget tracks 0 p) as Hshape.
  destruct (scan_tracks on off time_div budget tracks 0 p)
    as [[[tracks' active] p1] | q | f q]; try discriminate.
  destruct (Hfin _ _ _ eq_refl) as [_ Hall].
  destruct (Hshape _ _ _ eq_refl) as [Hlen Hsame].
  destruct active as [| a rest].
  - inversion H; subst. split; [exact Hlen |]. split; [| exact Hsame].
    rewrite Forall_forall. intros t Hin.
    destruct (In_nth_error _ _ Hin) as [j Hj].
    destruct (is_null (Track.data t)) eqn:Hnull; [reflexivity |].
    destruct (Hall j t Hj Hnull).
  - destruct (IH _ _ _ _ H) as (Hlen' & Hdone & Hsame').
    split; [congruence |]. split; [exact Hdone |].
    intros j t Hj Hnull. apply Hsame'; [| exact Hnull]. now apply Hsame.
Qed.

(** X13: what [play_midi] leaves behind when it returns.  The outer loop
    is left only once no track has a buffer: on return every track of the
    array has a NULL [data]; the array has as many tracks as before; and a
    track that was already ended on entry is handed back exactly as it
    was. *)
Theorem play_midi_returns_with_all_tracks_ended
        (on off : bool) (time_div : Z) (fuel : nat)
        (tracks done : list TrackData) (p' : Play.t) :
  play_midi on off time_div fuel tracks = Finished (done, p') ->
  List.length done = List.length tracks /\
  Forall (fun t => Track.data t = None) done /\
  forall j t, nth_error tracks j = Some t -> Track.data t = None ->
              nth_error done j = Some t.
Proof.
  unfold play_midi. intros H.
  destruct (pump_finished _ _ _ _ _ _ _ H) as (Hlen & Hdone & Hsame).
  split; [exact Hlen |]. split.
  - eapply Forall_impl; [| exact Hdone].
    intros t Ht. simpl in Ht. now destruct (Track.data t).
  - intros j t Hj Hnull. apply Hsame; [exact Hj |]. now rewrite Hnull.
Qed.

Lemma play_midi_returns_with_all_tracks_ended_witness :
  let tracks := [track_of merge_track_a; init_track_data; track_of merge_track_b] in
  exists done p',
    play_midi true true 480 8 tracks = Finished (done, p') /\
    List.length done = 3%nat /\
    Forall (fun t => Track.data t = None) done /\
    nth_error done 1 = Some init_track_data.
Proof.
  intros tracks.
  destruct (play_midi true true 480 8 tracks) as [[done p'] | q | f q] eqn:H.
  - exists done, p'. split; [reflexivity |].
    destruct (@play_midi_returns_with_all_tracks_ended
                true true 480 8 tracks done p' H) as (Hlen & Hdone & Hsame).
    split; [exact Hlen |]. split; [exact Hdone |].
    apply Hsame; reflexivity.
  - vm_compute in H. discriminate H.
  - vm_compute in H. discriminate H.
Defined.

(** X14: nothing to play.  If no track of the array has a buffer (in
    particular if the array is empty), [play_midi] makes one pass over the
    array and returns: no callback is called, no delay is taken, the
    tracks and the locals are untouched. *)
Theorem play_midi_nothing_to_play
        (on off : bool) (time_div : Z) (fuel : nat) (tracks : list TrackData) :
  Forall (fun t => Track.data t = None) tracks ->
  play_midi on off time_div (S fuel) tracks = Finished (tracks, initial_play).
Proof.
  intros H. unfold play_midi. simpl pump. rewrite scan_tracks_inactive; [reflexivity |].
  eapply Forall_impl; [| exact H]. intros t Ht. simpl in Ht. now rewrite Ht.
Qed.

Lemma play_midi_nothing_to_play_witness :
  play_midi true true 480 1 [init_track_data; init_track_data]
  = Finished ([init_track_data; init_track_data], initial_play).
Proof.
  apply (@play_midi_nothing_to_play true true 480 0
           [init_track_data; init_track_data]).
  repeat constructor.
Defined.

(** ** The event queue: bursts and the consumer's loop *)

Section QueueBursts.
Variable N : Z.
Hypothesis N_pos : 0 < N.

Lemma occupied_bound (q : EventQueue) : 0 <= occupied N q <= N - 1.
Proof.
  unfold occupied. pose proof (Z.mod_pos_bound (head q - tail q) N N_pos). lia.
Qed.

Lemma push_burst (es : list MidiEvent) :
  forall h,
    indices_ok N (queue h) ->
    let kept := firstn (Z.to_nat (N - 1 - occupied N (queue h))) es in
    let h' := run_requests N h (map Push es) in
    indices_ok N (queue h') /\
    accepted h' = accepted h ++ kept /\
    contents N (queue h') = contents N (queue h) ++ kept /\
    popped h' = popped h /\
    tail (queue h') = tail (queue h).
Proof.
  induction es as [| e es IH]; intros h Hidx; cbn zeta.
  - rewrite firstn_nil, !app_nil_r. simpl. auto.
  - cbn [map run_requests fold_left]. fold (run_requests N (serve N h (Push e)) (map Push es)).
    pose proof (occupied_bound (queue h)) as Hocc.
    destruct (Z.eq_dec (occupied N (queue h)) (N - 1)) as [Hfull | Hroom].
    + pose proof (@queue_push_full N N_pos e (queue h) Hidx Hfull) as Hpush.
      assert (Hh : serve N h (Push e) = h).
      { unfold serve. rewrite Hpush. now destruct h. }
      rewrite Hh. specialize (IH h Hidx). cbn zeta in IH.
      replace (N - 1 - occupied N (queue h)) with 0 in * by lia.
      change (Z.to_nat 0) with 0%nat in *. rewrite firstn_O in *. exact IH.
    + destruct (@queue_push_room N N_pos e (queue h) Hidx Hroom)
        as (q' & Hpush & Hidx' & Hocc' & Hcont').
      assert (Htail : tail q' = tail (queue h)).
      { unfold queue_push in Hpush.
        destruct (negb (Z.rem (head (queue h) + 1) N =? tail (queue h)));
          inversion Hpush; reflexivity. }
      assert (Hh : serve N h (Push e) = mkHistory q' (accepted h ++ [e]) (popped h)).
      { unfold serve. now rewrite Hpush. }
      rewrite Hh.
      specialize (IH (mkHistory q' (accepted h ++ [e]) (popped h)) Hidx').
      cbn zeta in IH. cbn [queue accepted popped] in IH.
      rewrite Hocc', Hcont', Htail in IH.
      replace (Z.to_nat (N - 1 - occupied N (queue h)))
        with (S (Z.to_nat (N - 1 - (occupied N (queue h) + 1)))) by lia.
      cbn [firstn]. rewrite <- !app_assoc in IH. exact IH.
Qed.

Lemma drain_events_all (fuel : nat) :
  forall q,
    indices_ok N q -> occupied N q < Z.of_nat fuel ->
    drain_events N fuel q
    = Some (contents N q, mkEventQueue (events q) (head q) (head q)).
Proof.
  induction fuel as [| fuel IH]; intros q Hidx Hfuel.
  - pose proof (occupied_bound q). lia.
  - cbn [drain_events].
    destruct (Z.eq_dec (occupied N q) 0) as [Hempty | Hsome].
    + rewrite (@queue_pop_empty N N_pos q Hidx Hempty).
      pose proof (@contents_length N N_pos q) as Hlen. rewrite Hempty in Hlen.
      destruct (contents N q); [| simpl in Hlen; lia].
      destruct (@occupied_cases N N_pos q Hidx) as [[_ H] | [_ H]];
        destruct q as [ev hd tl]; simpl in *.
      * replace tl with hd by lia. reflexivity.
      * destruct Hidx as [[? ?] [? ?]]. simpl in *. lia.
    + destruct (@queue_pop_some N N_pos q Hidx Hsome)
        as (e & q' & Hpop & Hidx' & Hocc' & Hcont).
      rewrite Hpop. rewrite (IH q' Hidx') by lia. rewrite Hcont.
      unfold queue_pop in Hpop.
      destruct (negb (tail q =? head q)); inversion Hpop; subst; reflexivity.
Qed.
End QueueBursts.

(** X15: a burst with no consumer.  When the producer pushes a run of
    events and nothing is popped meanwhile, the queue keeps exactly as
    many of them as it had free slots, [RING_BUFFER_SIZE - 1] minus the
    number stored, taken from the front of the run; every later event of
    the run is dropped (its push returns false and changes nothing).
    From an empty queue that is the first [RING_BUFFER_SIZE - 1]
    events. *)
Theorem burst_keeps_the_first_free_slots
        (N : Z) (h : history) (es : list MidiEvent) :
  0 < N -> indices_ok N (queue h) ->
  let free := N - 1 - occupied N (queue h) in
  let h' := run_requests N h (map Push es) in
  0 <= free /\
  accepted h' = accepted h ++ firstn (Z.to_nat free) es /\
  contents N (queue h') = contents N (queue h) ++ firstn (Z.to_nat free) es /\
  popped h' = popped h /\
  tail (queue h') = tail (queue h) /\
  (head (queue h) = tail (queue h) -> free = N - 1).
Proof.
  intros HN Hidx free h'.
  destruct (@push_burst N HN es h Hidx) as (_ & Hacc & Hcont & Hpop & Htail).
  pose proof (@occupied_bound N HN (queue h)) as Hocc.
  split; [unfold free; lia |]. repeat (split; [assumption |]).
  intros Heq. unfold free, occupied. rewrite Heq, Z.sub_diag.
  rewrite Z.mod_0_l by lia. lia.
Qed.

Lemma burst_keeps_the_first_free_slots_witness :
  let blank := mkMidiEvent 0 0 0 false 0%float in
  let es := [note_on 0 60 100 0%float; note_on 0 64 100 0%float;
             note_off 0 60 0%float; note_on 0 67 100 0%float;
             note_off 0 64 0%float] in
  let h := mkHistory (init_event_queue blank) [] [] in
  let h' := run_requests 4 h (map Push es) in
  accepted h' = firstn 3 es /\ contents 4 (queue h') = firstn 3 es.
Proof.
  intros blank es h h'.
  assert (HN : 0 < 4) by lia.
  assert (Hidx : indices_ok 4 (queue h)) by (unfold indices_ok; simpl; lia).
  destruct (@burst_keeps_the_first_free_slots 4 h es HN Hidx)
    as (_ & Hacc & Hcont & _).
  split; [exact Hacc | exact Hcont].
Defined.

(** X16: the consumer's loop.  [while (queue_pop(&event))], run while
    the producer is silent, ends after as many rounds as events are
    stored plus one, so [RING_BUFFER_SIZE] rounds are always enough; it
    hands the body every stored event, oldest first, also when the stored
    run wraps around the end of the array; and it leaves the queue empty
    with [tail] moved up to [head] and [head] and the slots untouched, so
    that a further pop fails. *)
Theorem consumer_loop_empties_the_queue (N : Z) (q : EventQueue) :
  0 < N -> indices_ok N q ->
  let emptied := mkEventQueue (events q) (head q) (head q) in
  (forall fuel, occupied N q < Z.of_nat fuel ->
                drain_events N fuel q = Some (contents N q, emptied)) /\
  drain_events N (Z.to_nat N) q = Some (contents N q, emptied) /\
  queue_pop N emptied = (None, emptied) /\
  contents N emptied = [].
Proof.
  intros HN Hidx emptied.
  pose proof (@occupied_bound N HN q) as Hocc.
  split; [| split; [| split]].
  - intros fuel Hfuel. now apply drain_events_all.
  - apply drain_events_all; [assumption | assumption | lia].
  - unfold queue_pop, emptied. cbn [head tail]. now rewrite Z.eqb_refl.
  - unfold contents, occupied, emptied. cbn [head tail].
    rewrite Z.sub_diag, Z.mod_0_l by lia. reflexivity.
Qed.

Lemma consumer_loop_empties_the_queue_witness :
  let first := note_on 0 60 100 0%float in
  let second := note_off 0 60 0%float in
  let q := mkEventQueue (fun i => if i =? 3 then first else second) 1 3 in
  drain_events 4 3 q = Some (contents 4 q, mkEventQueue (events q) 1 1) /\
  contents 4 q = [first; second].
Proof.
  intros first second q.
  assert (HN : 0 < 4) by lia.
  assert (Hidx : indices_ok 4 q) by (unfold indices_ok; simpl; lia).
  destruct (@consumer_loop_empties_the_queue 4 q HN Hidx) as (Hrun & _).
  split; [| reflexivity].
  apply (Hrun 3%nat). vm_compute. reflexivity.
Defined.
